(** * garupa-unpacker: manifest diff, resilient fetch, segment merge, tree reconciliation

    A shallow embedding of the TypeScript sources
      - [src/compare.ts]              (modules [Compare], [CompareVersions])
      - [src/getAssets.ts]            (module [GetAssets], over [Path])
      - [src/mergeBytes.ts]           (modules [MergeBytes], [MergeAcb])
      - [src/removeUnchangedFiles.ts] (modules [RemoveUnchanged], [DecodeAcb])
      - [src/downloadAssetBundleInfo.ts] (module [DownloadAB])
    followed by the properties the design document states about them
    (modules [CompareFacts], [PathFacts], [GetAssetsFacts],
    [MergeBytesFacts], [RemoveUnchangedFacts]) and by further properties
    read off the sources: the version files and the diff record
    ([ScanFacts], [VersionFacts], [DiffRecordFacts], [ManifestFacts]), the
    fetcher ([FetchFacts]), the directory tree and its reconciliation
    ([TreeFacts], [ReconcileFacts]), the two mergers ([SegmentFacts],
    [MergeFacts], [AcbFacts]), the finders and the decoder
    ([DecodeFacts]) and the downloader ([DownloadFacts]).

    Conventions.
      - A JavaScript string is modelled as a Rocq [string], a sequence of
        8-bit characters.  Every character class used by the regular
        expressions of the sources is a set of ASCII characters, so a
        non-ASCII character (whatever its encoding) is a separator for all
        of them, and the tokens they extract are plain ASCII.
      - File contents are byte sequences, also written as [string].
      - Code that throws returns a [result]; code that mutates the file
        system or talks to the network threads an explicit world. *)

From Stdlib Require Import String Ascii ZArith Lia.
From stdpp Require Import base strings list gmap sorting pretty.

#[local] Arguments String.append : simpl nomatch.

(** ** Shared vocabulary *)

(** The outcome of a piece of code that may throw. *)
Inductive result (A : Type) : Type :=
| Ok (a : A)
| Throw (msg : string).
Arguments Ok {A} a.
Arguments Throw {A} msg.

Definition is_ok {A} (r : result A) : bool :=
  match r with Ok _ => true | Throw _ => false end.

(** [Array.prototype.sort] is stable; the embedding is a stable insertion
    sort over the comparator's "not after" test [le a b], which stands for
    [compare(a, b) <= 0]. *)
Section js_sort.
Context {A : Type} (le : A -> A -> bool).

Fixpoint sort_insert (x : A) (l : list A) : list A :=
  match l with
  | [] => [x]
  | y :: l' => if le x y then x :: y :: l' else y :: sort_insert x l'
  end.

Fixpoint js_sort (l : list A) : list A :=
  match l with
  | [] => []
  | x :: l' => sort_insert x (js_sort l')
  end.
End js_sort.

(** A JavaScript [Map] keyed by strings.  Iteration follows insertion
    order, and [set] on a key already present replaces the value where the
    key stands. *)
Section js_map.
Context {V : Type}.

Fixpoint map_set (k : string) (v : V) (m : list (string * V))
  : list (string * V) :=
  match m with
  | [] => [(k, v)]
  | (k', v') :: m' =>
      if String.eqb k' k then (k, v) :: m' else (k', v') :: map_set k v m'
  end.

Fixpoint map_get (k : string) (m : list (string * V)) : option V :=
  match m with
  | [] => None
  | (k', v') :: m' => if String.eqb k' k then Some v' else map_get k m'
  end.

Definition map_has (k : string) (m : list (string * V)) : bool :=
  match map_get k m with Some _ => true | None => false end.

Definition map_keys (m : list (string * V)) : list string := m.*1.
End js_map.

(** Bytewise tests on strings. *)
Fixpoint str_all (P : ascii -> bool) (s : string) : bool :=
  match s with
  | EmptyString => true
  | String c rest => P c && str_all P rest
  end.

Definition in_range (lo hi c : ascii) : bool :=
  Ascii.leb lo c && Ascii.leb c hi.

Definition is_digit (c : ascii) : bool := in_range "0" "9" c.

(** ** String methods and pieces of the regular expressions *)

(** [s.split(sep)] for a separator of one character. *)
Fixpoint split_on (sep : ascii) (s : string) : list string :=
  match s with
  | EmptyString => [EmptyString]
  | String c rest =>
      if Ascii.eqb c sep then EmptyString :: split_on sep rest
      else
        match split_on sep rest with
        | seg :: segs => String c seg :: segs
        | [] => [String c EmptyString]
        end
  end.

(** A literal at the head of [s]: what follows it. *)
Fixpoint expect (lit s : string) : option string :=
  match lit with
  | EmptyString => Some s
  | String c lit' =>
      match s with
      | String d s' => if Ascii.eqb c d then expect lit' s' else None
      | EmptyString => None
      end
  end.

(** [s.endsWith(suf)] *)
Fixpoint ends_with (suf s : string) : bool :=
  String.eqb s suf ||
  match s with
  | EmptyString => false
  | String _ rest => ends_with suf rest
  end.

(** [s.split(sep)[0]]: the text before the first occurrence of [sep], or
    all of [s] when there is none. *)
Fixpoint before_first (sep s : string) : string :=
  match expect sep s with
  | Some _ => EmptyString
  | None =>
      match s with
      | EmptyString => EmptyString
      | String c rest => String c (before_first sep rest)
      end
  end.

(** [\d+] at the head of [s], greedy: the longest run of digits and what
    follows it. *)
Fixpoint take_digits (s : string) : string * string :=
  match s with
  | EmptyString => (EmptyString, EmptyString)
  | String c rest =>
      if is_digit c then
        let '(ds, r) := take_digits rest in (String c ds, r)
      else (EmptyString, s)
  end.

Definition digits1 (s : string) : option (string * string) :=
  match take_digits s with
  | (EmptyString, _) => None
  | (ds, rest) => Some (ds, rest)
  end.

(** [\d+\.\d+\.\d+\.\d+] at the head of [s]: the matched text and what
    follows it.  In every expression of the sources a run of digits is
    followed by a dot, by another character that is no digit, or by the
    end of the expression, so the longest run is the one that is matched. *)
Definition scan_version (s : string) : option (string * string) :=
  '(a, s) ← digits1 s; s ← expect "." s;
  '(b, s) ← digits1 s; s ← expect "." s;
  '(c, s) ← digits1 s; s ← expect "." s;
  '(d, s) ← digits1 s;
  Some (a +:+ "." +:+ b +:+ "." +:+ c +:+ "." +:+ d, s).

(** The value of a run of decimal digits; [Number(ds)] and
    [parseInt(ds, 10)] both give it.  A JavaScript number holds it
    exactly as long as it is below 2^53. *)
Definition digits_value (ds : string) : N :=
  let fix go (acc : N) (s : string) : N :=
    match s with
    | EmptyString => acc
    | String c rest => go (acc * 10 + (N_of_ascii c - 48))%N rest
    end in
  go 0%N ds.

(** [findIndex]: the position of the first element that passes. *)
Fixpoint findIndex {A} (P : A -> bool) (l : list A) : option nat :=
  match l with
  | [] => None
  | x :: l' => if P x then Some 0 else S <$> findIndex P l'
  end.

(** A non-empty run of digits, and the version format
    [digits.digits.digits.digits] of the sources. *)
Definition digit_run (ds : string) : Prop :=
  ds <> EmptyString /\ str_all is_digit ds = true.

Definition version_text (v : string) : Prop :=
  exists a b c d,
    v = a +:+ "." +:+ b +:+ "." +:+ c +:+ "." +:+ d /\
    digit_run a /\ digit_run b /\ digit_run c /\ digit_run d.

(** [s] does not go on with a digit. *)
Definition no_digit_ahead (s : string) : Prop :=
  match s with
  | EmptyString => True
  | String c _ => is_digit c = false
  end.

(** The lexicographic order of two lists of numbers of one length. *)
Fixpoint lex_le (a b : list N) : Prop :=
  match a, b with
  | x :: a', y :: b' => (x < y)%N \/ (x = y /\ lex_le a' b')
  | _, _ => True
  end.

(** The order of two version texts by their numbers. *)
Definition version_le (v1 v2 : string) : Prop :=
  lex_le (digits_value <$> split_on "." v1) (digits_value <$> split_on "." v2).

(** The character [sep] does not occur in [s]. *)
Definition free_of (sep : ascii) (s : string) : Prop :=
  str_all (fun c => negb (Ascii.eqb c sep)) s = true.

(** The characters of a version text. *)
Definition version_char (c : ascii) : bool := is_digit c || Ascii.eqb c ".".

(** A number a JavaScript number represents exactly. *)
Definition safe_integer (n : N) : Prop := (n < 2 ^ 53)%N.

(** A version text all of whose numbers are such. *)
Definition safe_version (v : string) : Prop :=
  Forall safe_integer (digits_value <$> split_on "." v).

(** * src/compare.ts *)
Module Compare.

(** ** Character classes of the two regular expressions *)

(** [[a-fA-F0-9]] *)
Definition is_hex (c : ascii) : bool :=
  in_range "a" "f" c || in_range "A" "F" c || is_digit c.

(** [[A-Za-z]] *)
Definition is_alpha (c : ascii) : bool :=
  in_range "A" "Z" c || in_range "a" "z" c.

(** [[A-Za-z0-9]] *)
Definition is_alnum (c : ascii) : bool :=
  is_alpha c || is_digit c.

(** [[A-Za-z0-9_\-./]] *)
Definition is_pathchar (c : ascii) : bool :=
  is_alnum c || Ascii.eqb c "_" || Ascii.eqb c "-" || Ascii.eqb c "."
  || Ascii.eqb c "/".

(** ** [line.match(/@([a-fA-F0-9]{64})/)] *)

(** [[a-fA-F0-9]{n}] anchored at the head of [s]: the [n] characters. *)
Fixpoint take_hex (n : nat) (s : string) : option string :=
  match n with
  | 0 => Some EmptyString
  | S n' =>
      match s with
      | EmptyString => None
      | String c rest =>
          if is_hex c then String c <$> take_hex n' rest else None
      end
  end.

(** The leftmost match: [(hashMatch.index, hashMatch[1])]. *)
Fixpoint match_hash (line : string) : option (nat * string) :=
  match line with
  | EmptyString => None
  | String c rest =>
      match (if Ascii.eqb c "@" then take_hex 64 rest else None) with
      | Some h => Some (0, h)
      | None =>
          match match_hash rest with
          | Some (i, h) => Some (S i, h)
          | None => None
          end
      end
  end.

(** ** [validPart.matchAll(/[A-Za-z][A-Za-z0-9_\-./]*[A-Za-z0-9]/g)] *)

(** The part of one match after its first letter: the greedy star takes
    path characters as long as it can and gives them back until the last
    one taken is a letter or a digit.  Returns the matched text and what
    follows it. *)
Fixpoint longest_tail (s : string) : option (string * string) :=
  match s with
  | EmptyString => None
  | String d rest =>
      if is_pathchar d then
        match longest_tail rest with
        | Some (m, r) => Some (String d m, r)
        | None => if is_alnum d then Some (String d EmptyString, rest) else None
        end
      else None
  end.

(** All matches, left to right without overlap.  [skip] counts the
    characters still covered by the previous match (the scan resumes at
    the regular expression's [lastIndex]). *)
Fixpoint matchAll_from (skip : nat) (s : string) : list string :=
  match s with
  | EmptyString => []
  | String c rest =>
      match skip with
      | S k => matchAll_from k rest
      | 0 =>
          if is_alpha c then
            match longest_tail rest with
            | Some (m, _) => String c m :: matchAll_from (String.length m) rest
            | None => matchAll_from 0 rest
            end
          else matchAll_from 0 rest
      end
  end.

Definition matchAll_path (s : string) : list string := matchAll_from 0 s.

(** What the path expression accepts, read off the expression itself: a
    letter, any run of path characters, a closing letter or digit. *)
Definition path_token (t : string) : Prop :=
  exists c mid d,
    t = String c (mid +:+ String d EmptyString) /\
    is_alpha c = true /\ str_all is_pathchar mid = true /\ is_alnum d = true.

(** What the hash expression accepts after its [@]. *)
Definition hash_token (h : string) : Prop :=
  String.length h = 64 /\ str_all is_hex h = true.

(** [t] is a substring of [s]. *)
Definition occurs_in (t s : string) : Prop :=
  exists pre post, s = pre +:+ t +:+ post.

(** ** [extractPathAndHash] *)
Definition extractPathAndHash (line : string) : option (string * string) :=
  match match_hash line with
  | None => None
  | Some (hashPos, hashValue) =>
      let validPart := substring 0 hashPos line in
      let matches := matchAll_path validPart in
      match last matches with
      | None => None
      | Some p => Some (p, hashValue)
      end
  end.

(** ** [readFileToAssetMap] *)

Abbreviation AssetMap := (list (string * string)).

(** The loop body of [readFileToAssetMap]: one line read from the file. *)
Definition read_line (data : AssetMap) (line : string) : AssetMap :=
  match extractPathAndHash line with
  | Some (p, hashValue) => map_set p hashValue data
  | None => data
  end.

Definition parse_lines (lines : list string) : AssetMap :=
  foldl read_line [] lines.

(** The manifest directory maps a file name to the lines [readline]
    delivers for it; [fs.open] rejects for a name that is not there. *)
Definition readFileToAssetMap (dir : gmap string (list string))
    (filePath : string) : result AssetMap :=
  match dir !! filePath with
  | None => Throw ("ENOENT: no such file or directory, open " +:+ filePath)
  | Some lines => Ok (parse_lines lines)
  end.

(** ** [compareVersions], from the two chosen version files on *)

(** The object serialised to the diff record: [{ new: added, change: changed }]. *)
Record DiffResult := mkDiff { new_ : list string; change : list string }.

(** [newMap.get(p) !== oldMap.get(p)] *)
Definition get_differs (p : string) (newMap oldMap : AssetMap) : bool :=
  negb (bool_decide (map_get p newMap = map_get p oldMap)).

(** Lines 113-119.  The default [sort()] orders strings by code unit. *)
Definition diff_maps (oldMap newMap : AssetMap) : DiffResult :=
  let added :=
    js_sort String.leb
      (filter (fun p => map_has p oldMap = false) (map_keys newMap)) in
  let changed :=
    js_sort String.leb
      (filter (fun p => map_has p oldMap = true /\ get_differs p newMap oldMap = true)
              (map_keys newMap)) in
  mkDiff added changed.

(** Lines 110-119 of [compareVersions]; [olderFile] and [newestFile] are
    the names the version selection above them has settled on. *)
Definition compareVersions (dir : gmap string (list string))
    (olderFile newestFile : string) : result DiffResult :=
  match readFileToAssetMap dir olderFile with
  | Throw e => Throw e
  | Ok oldMap =>
      match readFileToAssetMap dir newestFile with
      | Throw e => Throw e
      | Ok newMap => Ok (diff_maps oldMap newMap)
      end
  end.

(** ** Sample data *)

Definition sample_hash : string :=
  "00112233445566778899aabbccddeeff00112233445566778899AABBCCDDEEFF".

Definition hash_a : string :=
  "aaaaaaaaaaaaaaaaaaaaaaaaaaaaaaaaaaaaaaaaaaaaaaaaaaaaaaaaaaaaaaaa".
Definition hash_b : string :=
  "bbbbbbbbbbbbbbbbbbbbbbbbbbbbbbbbbbbbbbbbbbbbbbbbbbbbbbbbbbbbbbbb".

(** The end-to-end scenario of the design document. *)
Definition sample_manifests : gmap string (list string) :=
  <[ "AssetBundleInfo_1.0.0.1.txt" :=
       [ "x.bin @" +:+ hash_a; "y.bin @" +:+ hash_a ] ]>
  (<[ "AssetBundleInfo_1.0.0.2.txt" :=
       [ "z.bin @" +:+ hash_a; "x.bin @" +:+ hash_a; "y.bin @" +:+ hash_b ] ]> ∅).

End Compare.


(** * POSIX [path] of Node.js, as far as the sources use it *)
Module Path.

(** [path.split("/")]: the text between the separators. *)
Fixpoint split_slash (s : string) : list string :=
  match s with
  | EmptyString => [EmptyString]
  | String c rest =>
      if Ascii.eqb c "/" then EmptyString :: split_slash rest
      else
        match split_slash rest with
        | seg :: segs => String c seg :: segs
        | [] => [String c EmptyString]
        end
  end.

(** One segment of [normalizeString]; [res] holds the segments kept so
    far, the last one first.  An empty segment and [.] are dropped; [..]
    removes the last kept segment unless there is none or it is [..]
    itself, in which case [..] is kept when the path is relative. *)
Definition norm_step (allowAboveRoot : bool) (res : list string) (seg : string)
    : list string :=
  if String.eqb seg "" || String.eqb seg "." then res
  else if String.eqb seg ".." then
    match res with
    | top :: res' =>
        if String.eqb top ".." then
          (if allowAboveRoot then seg :: res else res)
        else res'
    | [] => if allowAboveRoot then [seg] else []
    end
  else seg :: res.

Definition normalizeString (p : string) (allowAboveRoot : bool) : list string :=
  reverse (foldl (norm_step allowAboveRoot) [] (split_slash p)).

Definition isAbsolute (p : string) : bool :=
  match p with
  | String c _ => Ascii.eqb c "/"
  | EmptyString => false
  end.

Fixpoint trailingSeparator (p : string) : bool :=
  match p with
  | EmptyString => false
  | String c EmptyString => Ascii.eqb c "/"
  | String _ rest => trailingSeparator rest
  end.

Definition join_segments (segs : list string) : string := String.concat "/" segs.

(** [path.normalize] *)
Definition normalize (p : string) : string :=
  if String.eqb p "" then "."
  else
    let body := join_segments (normalizeString p (negb (isAbsolute p))) in
    if String.eqb body "" then
      (if isAbsolute p then "/" else if trailingSeparator p then "./" else ".")
    else
      let body := if trailingSeparator p then body +:+ "/" else body in
      if isAbsolute p then "/" +:+ body else body.

(** [path.join(a, b)]: the non-empty arguments joined by [/], normalised. *)
Definition join (a b : string) : string :=
  if String.eqb a "" then (if String.eqb b "" then "." else normalize b)
  else if String.eqb b "" then normalize a
  else normalize (a +:+ "/" +:+ b).

(** The segments a path resolves to. *)
Definition segments (p : string) : list string :=
  normalizeString p (negb (isAbsolute p)).

(** A segment that [norm_step] keeps as it is. *)
Definition plain (seg : string) : Prop :=
  seg <> "" /\ seg <> "." /\ seg <> "..".

Fixpoint no_sep (s : string) : bool :=
  match s with
  | EmptyString => true
  | String c rest => negb (Ascii.eqb c "/") && no_sep rest
  end.


(** What [normalizeString] returns: some [..] in front when the path is
    relative, then plain segments. *)
Definition normal (allow : bool) (segs : list string) : Prop :=
  exists n tops,
    segs = replicate n ".." ++ tops /\
    Forall (fun seg => plain seg /\ no_sep seg = true) tops /\
    (allow = false -> n = 0).


(** [dest] lies inside [root]: it is [root] followed by further segments,
    none of which climbs back out. *)
Definition inside (root dest : string) : Prop :=
  isAbsolute dest = isAbsolute root /\
  exists rest, segments dest = segments root ++ rest /\ ".." ∉ rest.

(** [path.join(...args)]: the non-empty arguments joined by [/], then
    normalised. *)
Definition join_list (args : list string) : string :=
  let joined :=
    String.concat "/" (filter (fun a => a <> EmptyString) args) in
  if String.eqb joined "" then "." else normalize joined.

(** [path.basename]: the last non-empty segment. *)
Definition basename (p : string) : string :=
  default EmptyString
    (last (filter (fun seg => seg <> EmptyString) (split_slash p))).

End Path.

(** * src/compare.ts, the choice of the two versions (lines 20-23, 59-108) *)
Module CompareVersions.
Import Compare.

Definition ASSET_DIR : string := "AssetBundleInfo".
Definition OUT_DIR : string := "compare".

Record VersionTuple : Type := mkVersion { baseVer : string; extraNum : N }.

(** The field [versionKey] is [vkey]; [versionKey] is the function. *)
Record VersionFile : Type := mkVersionFile {
  version : VersionTuple;
  fileName : string;
  vkey : list N;
  formattedVersion : string
}.

(** [name.match(/^AssetBundleInfo_(\d+\.\d+\.\d+\.\d+)\.txt$/)] *)
Definition extractVersionFromFilename (name : string) : option VersionTuple :=
  s ← expect "AssetBundleInfo_" name;
  '(v, s) ← scan_version s;
  if String.eqb s ".txt" then Some (mkVersion v 1) else None.

(** [v.baseVer.split(".").map(n => Number(n))].  The numbers are exact
    as long as they are below 2^53; the facts that depend on their order
    assume that of the versions at hand. *)
Definition versionKey (v : VersionTuple) : list N :=
  digits_value <$> split_on "." (baseVer v).

Definition formatVersion (v : VersionTuple) : string :=
  if (1 <? extraNum v)%N then baseVer v +:+ "." +:+ pretty (extraNum v)
  else baseVer v.

(** Lines 72-83. *)
Definition versionFiles_of (filesInDir : list string) : list VersionFile :=
  omap (fun fileName =>
          version ← extractVersionFromFilename fileName;
          Some (mkVersionFile version fileName
                  (versionKey version) (formatVersion version)))
       (filter (fun f => ends_with ".txt" f = true) filesInDir).

(** The comparator of lines 87-91 on two keys.  Beyond the end of [b] the
    difference is [NaN], which [sort] takes for 0. *)
Fixpoint compare_keys (a b : list N) : Z :=
  match a with
  | [] => 0
  | x :: a' =>
      match b with
      | [] => 0
      | y :: b' =>
          if (x =? y)%N then compare_keys a' b' else Z.of_N x - Z.of_N y
      end
  end.

Definition sort_versions (versionFiles : list VersionFile) : list VersionFile :=
  js_sort (fun a b => (compare_keys (vkey a) (vkey b) <=? 0)%Z) versionFiles.

(** Lines 72-105: [(olderFile, newestFile)].  [filesInDir] is what
    [fs.readdir] lists, in its order; an empty [targetVersion] counts as
    none. *)
Definition select_versions (filesInDir : list string)
    (targetVersion : option string) : result (VersionFile * VersionFile) :=
  let versionFiles := versionFiles_of filesInDir in
  if length versionFiles <? 2 then Throw "需要至少两个版本文件才能比较！"
  else
    let versionFiles := sort_versions versionFiles in
    let target := default EmptyString targetVersion in
    if String.eqb target "" then
      match reverse versionFiles with
      | newestFile :: olderFile :: _ => Ok (olderFile, newestFile)
      | _ => Throw "TypeError: Cannot read properties of undefined"
      end
    else
      match findIndex (fun v => String.eqb (formattedVersion v) target)
                      versionFiles with
      | None => Throw ("未找到版本 " +:+ target)
      | Some 0 => Throw ("版本 " +:+ target +:+ " 没有更旧版本可比较")
      | Some (S idx) =>
          match versionFiles !! S idx, versionFiles !! idx with
          | Some newestFile, Some olderFile => Ok (olderFile, newestFile)
          | _, _ => Throw "TypeError: Cannot read properties of undefined"
          end
      end.

(** Line 117: where the diff record is written. *)
Definition outFile (verOld verNew : string) : string :=
  Path.join OUT_DIR ("diff_" +:+ verOld +:+ "_to_" +:+ verNew +:+ ".json").

(** Lines 68-122 up to the writing of the record: the record, its place
    and the two versions.  [dir] holds the manifests of [ASSET_DIR] by
    file name. *)
Definition compareVersions_in (filesInDir : list string)
    (dir : gmap string (list string)) (targetVersion : option string)
    : result (DiffResult * string * (string * string)) :=
  match select_versions filesInDir targetVersion with
  | Throw e => Throw e
  | Ok (olderFile, newestFile) =>
      let verOld := formattedVersion olderFile in
      let verNew := formattedVersion newestFile in
      match compareVersions dir (fileName olderFile) (fileName newestFile) with
      | Throw e => Throw e
      | Ok d => Ok (d, outFile verOld verNew, (verOld, verNew))
      end
  end.

(** Order of two keys as the comparator sees it. *)
Definition key_le (a b : VersionFile) : Prop :=
  (compare_keys (vkey a) (vkey b) <= 0)%Z.

(** ** Sample data *)

(** What the manifest of version [v] gives rise to. *)
Definition sample_file (v : string) : VersionFile :=
  let version := mkVersion v 1 in
  mkVersionFile version ("AssetBundleInfo_" +:+ v +:+ ".txt")
    (versionKey version) (formatVersion version).

Definition sample_listing : list string :=
  ["AssetBundleInfo_9.3.0.180.txt"; "notes.txt";
   "AssetBundleInfo_9.3.0.20.txt"; "AssetBundleInfo_10.0.0.1.txt"].

End CompareVersions.

(** * src/getAssets.ts *)
Module GetAssets.

Definition MAX_CONCURRENT_DOWNLOADS : nat := 10.
Definition PER_FILE_RETRIES : nat := 3.
(** Seconds.  The source's [1.0] and its doublings are small integers,
    which JavaScript numbers represent exactly. *)
Definition PER_FILE_BACKOFF_SECONDS : Z := 1.

(** What became of an awaited promise: it settled with a value, or it
    never settles and the function that awaits it never returns. *)
Inductive settling (A : Type) : Type :=
| Settles (a : A)
| NeverSettles.
Arguments Settles {A} a.
Arguments NeverSettles {A}.

(** What one pass through the [try] block of [downloadFile] runs into.
    The environment decides it; the code only reacts.  The promise of
    lines 97-101 listens to the write stream only: when the response
    stream breaks off after the headers, nothing resolves or rejects
    it. *)
Inductive attempt : Type :=
| MkdirFails (made : nat)        (* [fs.mkdir] rejects, [made] directories down from the top in place; no request is sent *)
| HttpError (status : Z)         (* the request rejects with [e.response.status] *)
| NoResponse                     (* the request rejects without a response: timeout, reset *)
| OpenFails                      (* the write stream cannot open the destination and errors *)
| WriteFails (written : string)  (* the write stream errors after [written] reached the file *)
| StreamFails (written : string) (* the response stream fails after [written] reached the file *)
| Received (body : string).      (* the write stream finishes with the whole body *)

(** The lines the fetcher prints with [console.log]. *)
Inductive log_line : Type :=
| LogSkipped (cleanPath : string)               (* already present, not fetched *)
| LogDone (cleanPath : string)
| LogNoRetry (cleanPath : string) (status : Z)   (* 403 or 404 *)
| LogError (cleanPath : string) (status : option Z) (attempt : nat)
| LogGaveUp (cleanPath : string)                (* the attempts are used up *)
| LogStart (nNew nChange : nat)
| LogFinished.

(** What the process does to the outside, in order. *)
Inductive event : Type :=
| EvMkdir (dir : string)
| EvGet (url : string)
| EvOpenWrite (file : string)   (* [createWriteStream(file)] *)
| EvSleep (ms : Z)
| EvLog (line : log_line).

(** Regular files by path, directories by path (without a closing
    separator), and the events so far.  The printed lines are part of the
    events because they are the only place where the fetcher names a
    failed identifier. *)
Record world : Type := mkWorld {
  files : gmap string string;
  dirs : gset string;
  trace : list event
}.

Definition emit (e : event) (w : world) : world :=
  mkWorld (files w) (dirs w) (trace w ++ [e]).

Definition write_file (file data : string) (w : world) : world :=
  mkWorld (<[file := data]> (files w)) (dirs w) (trace w).

Definition make_dirs (ds : list string) (w : world) : world :=
  mkWorld (files w) (dirs w ∪ list_to_set ds) (trace w).

(** The environment: the fate of the [n]-th attempt (from 1) on a URL. *)
Definition environment : Type := string -> nat -> attempt.

(** [assetPath.startsWith("/") ? assetPath.substring(1) : assetPath] *)
Definition cleanPath (assetPath : string) : string :=
  match assetPath with
  | String c rest => if Ascii.eqb c "/" then rest else assetPath
  | EmptyString => assetPath
  end.

(** [path.dirname] of a normalised path: a closing separator is ignored,
    and the result is everything before the last segment. *)
Definition dirname (p : string) : string :=
  let rsegs := reverse (Path.split_slash p) in
  let rsegs :=
    match rsegs with
    | EmptyString :: s :: rest => s :: rest
    | _ => rsegs
    end in
  match rsegs with
  | _ :: s :: rest =>
      let d := Path.join_segments (reverse (s :: rest)) in
      if String.eqb d "" then "/" else d
  | _ => if Path.isAbsolute p then "/" else "."
  end.

(** [dir] and the directories above it, the nearest first, up to [/] or
    [.], where [dirname] stays.  Each step up shortens the path, so its
    length is fuel enough. *)
Fixpoint and_above (fuel : nat) (dir : string) : list string :=
  match fuel with
  | 0 => [dir]
  | S fuel' =>
      let up := dirname dir in
      if String.eqb up dir then [dir] else dir :: and_above fuel' up
  end.

(** The directories [fs.mkdir(dir, {recursive: true})] leaves in place,
    in the order in which it makes the missing ones: from the top down. *)
Definition mkdir_chain (dir : string) : list string :=
  reverse (and_above (String.length dir) dir).

(** [p] without its last character. *)
Fixpoint chop (p : string) : string :=
  match p with
  | EmptyString => EmptyString
  | String _ EmptyString => EmptyString
  | String c rest => String c (chop rest)
  end.

(** The directory a path names when it closes with a separator. *)
Definition as_dir (p : string) : string :=
  if Path.trailingSeparator p && negb (String.eqb p "/") then chop p else p.

(** Whether [fs.access(p)] resolves: something is at [p], a regular file
    or a directory. *)
Definition exists_at (w : world) (p : string) : bool :=
  bool_decide (is_Some (files w !! p)) || bool_decide (as_dir p ∈ dirs w).

Definition terminal_status (status : Z) : bool :=
  (status =? 403)%Z || (status =? 404)%Z.

Section download.
Context (env : environment).
(** [PER_FILE_RETRIES] *)
Context (retries : nat).
Context (cleanPath url savePath : string).

(** The [while (attempt < PER_FILE_RETRIES)] loop and the two statements
    after it.  [fuel] bounds the iterations for the termination checker;
    the loop runs at most [retries - attempt] times, so [retries] units
    are always enough. *)
Fixpoint attempts (fuel : nat) (attempt : nat) (backoff : Z) (w : world)
    : world * settling bool :=
  if negb (attempt <? retries)
  then (emit (EvLog (LogGaveUp cleanPath)) w, Settles false)
  else
    match fuel with
    | 0 => (w, Settles false)
    | S fuel' =>
        let attempt := S attempt in
        (* the second half of the [catch] block: log, wait, go round again *)
        let retry (status : option Z) (w : world) : world * settling bool :=
          let w := emit (EvLog (LogError cleanPath status attempt)) w in
          if attempt <? retries then
            attempts fuel' attempt (backoff * 2)
              (emit (EvSleep (backoff * 1000)) w)
          else attempts fuel' attempt backoff w in
        (* the [catch] block, entered with [e.response?.status] *)
        let catch (status : option Z) (w : world) : world * settling bool :=
          match status with
          | Some st =>
              if terminal_status st
              then (emit (EvLog (LogNoRetry cleanPath st)) w, Settles false)
              else retry status w
          | None => retry status w
          end in
        let w := emit (EvMkdir (dirname savePath)) w in
        let asked :=
          emit (EvGet url) (make_dirs (mkdir_chain (dirname savePath)) w) in
        let opened := emit (EvOpenWrite savePath) asked in
        match env url attempt with
        | MkdirFails made =>
            catch None (make_dirs (take made (mkdir_chain (dirname savePath))) w)
        | HttpError st => catch (Some st) asked
        | NoResponse => catch None asked
        | OpenFails => catch None opened
        | WriteFails written => catch None (write_file savePath written opened)
        | StreamFails written =>
            (* neither [finish] nor [error] of the writer: the awaited
               promise stays pending *)
            (write_file savePath written opened, NeverSettles)
        | Received body =>
            (emit (EvLog (LogDone cleanPath)) (write_file savePath body opened),
             Settles true)
        end
    end.
End download.

(** The file system and the events after the [n]-th pass with outcome
    [a], before any sleep. *)
Definition attempt_world (cleanPath url savePath : string) (n : nat)
    (a : attempt) (w : world) : world :=
  let w := emit (EvMkdir (dirname savePath)) w in
  let asked := emit (EvGet url) (make_dirs (mkdir_chain (dirname savePath)) w) in
  let opened := emit (EvOpenWrite savePath) asked in
  match a with
  | MkdirFails made =>
      emit (EvLog (LogError cleanPath None n))
        (make_dirs (take made (mkdir_chain (dirname savePath))) w)
  | HttpError st =>
      emit (EvLog (if terminal_status st then LogNoRetry cleanPath st
                   else LogError cleanPath (Some st) n)) asked
  | NoResponse => emit (EvLog (LogError cleanPath None n)) asked
  | OpenFails => emit (EvLog (LogError cleanPath None n)) opened
  | WriteFails data =>
      emit (EvLog (LogError cleanPath None n)) (write_file savePath data opened)
  | StreamFails data => write_file savePath data opened
  | Received data =>
      emit (EvLog (LogDone cleanPath)) (write_file savePath data opened)
  end.

(** The failures after which the [catch] block goes round again, and the
    result of a pass after which it does not. *)
Definition is_retryable (a : attempt) : bool :=
  match a with
  | Received _ | StreamFails _ => false
  | HttpError status => negb (terminal_status status)
  | MkdirFails _ | NoResponse | OpenFails | WriteFails _ => true
  end.

Definition last_result (a : attempt) : settling bool :=
  match a with
  | Received _ => Settles true
  | StreamFails _ => NeverSettles
  | _ => Settles false
  end.

(** What is at the destination after a pass with outcome [a], given what
    was there before. *)
Definition dest_after (before : option string) (a : attempt) : option string :=
  match a with
  | WriteFails data | StreamFails data | Received data => Some data
  | _ => before
  end.

(** Readings of a trace: every attempt starts with its [mkdir]. *)
Definition attempts_made (tr : list event) : nat :=
  length (omap (fun e => match e with EvMkdir d => Some d | _ => None end) tr).

Definition sleeps (tr : list event) : list Z :=
  omap (fun e => match e with EvSleep ms => Some ms | _ => None end) tr.

Definition opened (tr : list event) : list string :=
  omap (fun e => match e with EvOpenWrite f => Some f | _ => None end) tr.

Section loop_post.
Context (env : environment) (retries : nat) (url savePath : string).

(** What a run of the loop has done when it ends. *)
Definition loop_post (attempt : nat) (backoff : Z)
    (w w' : world) (r : settling bool) : Prop :=
  exists n new,
    trace w' = trace w ++ new /\
    attempts_made new = n /\ 1 <= n /\ attempt + n <= retries /\
    sleeps new = (fun i => backoff * 2 ^ Z.of_nat i * 1000)%Z <$> seq 0 (n - 1) /\
    (forall f, f ∈ opened new -> f = savePath) /\
    (forall i, attempt < i < attempt + n -> is_retryable (env url i) = true) /\
    (is_retryable (env url (attempt + n)) = true -> attempt + n = retries) /\
    r = last_result (env url (attempt + n)) /\
    (forall p, p <> savePath -> files w' !! p = files w !! p) /\
    files w' !! savePath =
      foldl dest_after (files w !! savePath) (env url <$> seq (S attempt) n).
End loop_post.

(** [downloadFile], with the two retry constants as arguments. *)
Definition downloadFile_with (env : environment) (retries : nat) (backoff0 : Z)
    (baseUrl saveRoot assetPath : string) (w : world) : world * settling bool :=
  let clean := cleanPath assetPath in
  let url := baseUrl +:+ clean in
  let savePath := Path.join saveRoot clean in
  if exists_at w savePath
  then (emit (EvLog (LogSkipped clean)) w, Settles true)
  else attempts env retries clean url savePath retries 0 backoff0 w.

Definition downloadFile (env : environment)
    (baseUrl saveRoot assetPath : string) (w : world) : world * settling bool :=
  downloadFile_with env PER_FILE_RETRIES PER_FILE_BACKOFF_SECONDS
    baseUrl saveRoot assetPath w.

(** The destination [downloadFile] resolves for an identifier. *)
Definition savePath_of (saveRoot assetPath : string) : string :=
  Path.join saveRoot (cleanPath assetPath).

(** ** [downloadDiffAssets], from the parsed diff record on *)

Record diffJson : Type := mkDiffJson {
  dj_new : list string;
  dj_change : list string
}.

(** One queued call of [downloadFile]. *)
Record task : Type := mkTask {
  t_baseUrl : string;
  t_saveRoot : string;
  t_assetPath : string
}.

(** Lines 172-176: the three groups of tasks. *)
Definition make_tasks (baseUrlNew baseUrlOld newRoot : string) (d : diffJson)
    : list task :=
  (mkTask baseUrlNew (Path.join newRoot "new") <$> dj_new d) ++
  (mkTask baseUrlNew (Path.join newRoot "change") <$> dj_change d) ++
  (mkTask baseUrlOld (Path.join newRoot "change_old") <$> dj_change d).

(** The limiter: at most [slots] tasks are under way at a time.  The
    tasks are run here one after the other in queue order, which is one
    of its schedules.  A task that never settles never gives its slot
    back; once no slot is left, the tasks still queued are never
    started. *)
Fixpoint run_tasks_with (env : environment) (slots : nat) (ts : list task)
    (w : world) : world * list (settling bool) :=
  match ts with
  | [] => (w, [])
  | t :: ts' =>
      match slots with
      | 0 => (w, replicate (length ts) NeverSettles)
      | S slots' =>
          let '(w1, r) :=
            downloadFile env (t_baseUrl t) (t_saveRoot t) (t_assetPath t) w in
          let slots1 :=
            match r with Settles _ => slots | NeverSettles => slots' end in
          let '(w2, rs) := run_tasks_with env slots1 ts' w1 in
          (w2, r :: rs)
      end
  end.

(** The tasks of [Promise.all(tasks)] under [pLimit(MAX_CONCURRENT_DOWNLOADS)]. *)
Definition run_tasks (env : environment) (ts : list task) (w : world)
    : world * list (settling bool) :=
  run_tasks_with env MAX_CONCURRENT_DOWNLOADS ts w.

(** [await Promise.all(...)]: the values, once every promise has
    settled. *)
Fixpoint promise_all {A : Type} (rs : list (settling A)) : settling (list A) :=
  match rs with
  | [] => Settles []
  | Settles a :: rs' =>
      match promise_all rs' with
      | Settles l => Settles (a :: l)
      | NeverSettles => NeverSettles
      end
  | NeverSettles :: _ => NeverSettles
  end.

(** Lines 172-183.  The awaited array is not bound to anything and the
    function resolves to [undefined]. *)
Definition downloadDiffAssets (env : environment)
    (baseUrlNew baseUrlOld newRoot : string) (d : diffJson) (w : world)
    : world * settling unit :=
  let tasks := make_tasks baseUrlNew baseUrlOld newRoot d in
  let w := emit (EvLog (LogStart (length (dj_new d)) (length (dj_change d) * 2))) w in
  let '(w', results) := run_tasks env tasks w in
  match promise_all results with
  | Settles _ => (emit (EvLog LogFinished) w', Settles tt)
  | NeverSettles => (w', NeverSettles)
  end.

(** ** The earlier entry point (the second getAssets source), after its
    [Promise.all]: the identifiers whose download returned [false] are
    collected and written to [failed_downloads_<version>.txt]. *)
Definition newline : string := String (ascii_of_nat 10) EmptyString.

Definition failedPaths (assetPaths : list string) (results : list bool)
    : list string :=
  omap (fun pr : string * bool => if pr.2 then None else Some pr.1)
       (zip assetPaths results).

Definition report_failed (fullDiffDir diffVersion : string)
    (assetPaths : list string) (results : list bool) (w : world) : world :=
  match failedPaths assetPaths results with
  | [] => w
  | failed =>
      write_file
        (Path.join fullDiffDir ("failed_downloads_" +:+ diffVersion +:+ ".txt"))
        (String.concat newline failed +:+ newline) w
  end.

(** ** Which diff record to follow (lines 26-58, 140-159) *)

(** [url.split("/AssetBundleInfo")[0] + "/"] *)
Definition extractPrefix (url : string) : string :=
  before_first "/AssetBundleInfo" url +:+ "/".

(** The loop of [compareVersion] on the two lists of numbers.  Beyond the
    end of [pb] the difference is [NaN], which [sort] takes for 0. *)
Fixpoint compareVersion_keys (pa pb : list N) : Z :=
  match pa with
  | [] => 0
  | x :: pa' =>
      match pb with
      | [] => 0
      | y :: pb' =>
          if (x =? y)%N then compareVersion_keys pa' pb'
          else Z.of_N y - Z.of_N x
      end
  end.

Definition compareVersion (a b : string) : Z :=
  compareVersion_keys (digits_value <$> split_on "." a)
                      (digits_value <$> split_on "." b).

(** [/diff_(\d+\.\d+\.\d+\.\d+)_to_(\d+\.\d+\.\d+\.\d+)\.json$/] tried at
    the head of [s]. *)
Definition match_diff_here (s : string) : option (string * string) :=
  s ← expect "diff_" s;
  '(verOld, s) ← scan_version s;
  s ← expect "_to_" s;
  '(verNew, s) ← scan_version s;
  if String.eqb s ".json" then Some (verOld, verNew) else None.

(** The leftmost match in [s]: [(match[1], match[2])]. *)
Fixpoint match_diff_name (s : string) : option (string * string) :=
  match match_diff_here s with
  | Some r => Some r
  | None =>
      match s with
      | EmptyString => None
      | String _ rest => match_diff_name rest
      end
  end.

(** Lines 45-57 of [getLatestDiffByVersion]; [diffFiles] is what [glob]
    found.  When no name parses, [parsed[0]] is [undefined] and reading
    its [file] throws. *)
Definition getLatestDiffByVersion (diffFiles : list string) : result string :=
  match diffFiles with
  | [] => Throw "未找到差异文件 (compare/diff_x_to_x.json)"
  | _ =>
      let parsed :=
        omap (fun f =>
                '(_, newVer) ← match_diff_name (Path.basename f);
                Some (f, newVer)) diffFiles in
      let parsed :=
        js_sort (fun a b => (compareVersion a.2 b.2 <=? 0)%Z) parsed in
      match parsed with
      | [] => Throw "TypeError: Cannot read properties of undefined (reading 'file')"
      | first :: _ => Ok first.1
      end
  end.

(** Lines 140-159 of [downloadDiffAssets]: the two versions of the chosen
    record and the two URL prefixes.  [urlMap] is the parsed
    [AssetBundleInfoUrl.json]; a version it lacks gives [undefined], on
    which [split] throws. *)
Definition resolve_bases (urlMap : list (string * string)) (diffFile : string)
    : result (string * string * string * string) :=
  match match_diff_name diffFile with
  | None => Throw "diff 文件格式错误!"
  | Some (oldVersion, newVersion) =>
      match map_get newVersion urlMap with
      | None => Throw "TypeError: Cannot read properties of undefined (reading 'split')"
      | Some urlNew =>
          match map_get oldVersion urlMap with
          | None => Throw "TypeError: Cannot read properties of undefined (reading 'split')"
          | Some urlOld =>
              Ok (oldVersion, newVersion, extractPrefix urlNew, extractPrefix urlOld)
          end
      end
  end.

(** ** Sample environments *)

(** What [glob] may find in the diff directory. *)
Definition sample_diffFiles : list string :=
  ["/srv/compare/diff_1.0.0.1_to_1.0.0.2.json";
   "/srv/compare/diff_1.0.0.2_to_1.0.0.10.json";
   "/srv/compare/diff_old_to_new.json"].

(** A record with one new and one changed identifier. *)
Definition sample_diffJson : diffJson :=
  mkDiffJson ["live/a.bundle"] ["/sound/b.acb"].

(** A write error after part of the body, then a permanent 404. *)
Definition flaky_then_gone : environment :=
  fun _ n => match n with 1 => WriteFails "PK-partial" | _ => HttpError 404 end.



(** Every request times out. *)
Definition always_timeout : environment := fun _ _ => NoResponse.

(** A destination root with nothing in it. *)
Definition empty_root : world :=
  mkWorld ∅ (list_to_set ["/"; "/srv"; "/srv/new"]) [].

(** The directories lines 166-168 leave in place for version 1.0.0.2
    under [/srv/analysing]. *)
Definition version_dirs : gset string :=
  list_to_set
    ["/"; "/srv"; "/srv/analysing"; "/srv/analysing/1.0.0.2";
     "/srv/analysing/1.0.0.2/new"; "/srv/analysing/1.0.0.2/change";
     "/srv/analysing/1.0.0.2/change_old"].

End GetAssets.

(** * src/mergeBytes.ts, the [.bytes] merger *)
Module MergeBytes.

(** ** [SEGMENT_PATTERN = /^(.+?)(?:-(\d+))?(\.[^.]+)\.bytes$/] *)

(** [s] without the suffix [suf], when it ends with it. *)
Fixpoint strip_suffix (suf s : string) : option string :=
  if String.eqb s suf then Some EmptyString
  else
    match s with
    | EmptyString => None
    | String c rest => String c <$> strip_suffix suf rest
    end.

(** [s] cut before its last occurrence of [sep]. *)
Fixpoint split_last (sep : ascii) (s : string) : option (string * string) :=
  match s with
  | EmptyString => None
  | String c rest =>
      match split_last sep rest with
      | Some (front, back) => Some (String c front, back)
      | None => if Ascii.eqb c sep then Some (EmptyString, s) else None
      end
  end.

(** The line terminators [.] refuses: LF, CR, and U+2028 / U+2029 in their
    UTF-8 form. *)
Fixpoint has_line_terminator (s : string) : bool :=
  match s with
  | EmptyString => false
  | String c rest =>
      Ascii.eqb c (ascii_of_nat 10) || Ascii.eqb c (ascii_of_nat 13) ||
      match rest with
      | String c1 (String c2 _) =>
          Ascii.eqb c (ascii_of_nat 226) && Ascii.eqb c1 (ascii_of_nat 128) &&
          (Ascii.eqb c2 (ascii_of_nat 168) || Ascii.eqb c2 (ascii_of_nat 169))
      | _ => false
      end
      || has_line_terminator rest
  end.

(** The groups [(match[1], match[2], match[3])] of a file name.  The
    extension is the last dot and the dot-free text after it; the lazy
    base name is cut before a closing [-digits] whenever something is left
    in front of the dash, and otherwise is everything before the
    extension. *)
Definition match_segment (filename : string)
    : option (string * option string * string) :=
  match strip_suffix ".bytes" filename with
  | None => None
  | Some s =>
      match split_last "." s with
      | None => None
      | Some (front, ext) =>
          if String.eqb ext "." || String.eqb front "" || has_line_terminator front
          then None
          else
            match split_last "-" front with
            | Some (String c base, String _ (String d digits)) =>
                if str_all is_digit (String d digits)
                then Some (String c base, Some (String d digits), ext)
                else Some (front, None, ext)
            | _ => Some (front, None, ext)
            end
      end
  end.

(** [parseInt(digits, 10)] on a run of decimal digits.  A JavaScript
    number holds the value exactly as long as it is below 2^53; the facts
    that depend on the parsed numbers assume that of the indexes at
    hand. *)
Definition parseInt (digits : string) : N :=
  let fix go (acc : N) (s : string) : N :=
    match s with
    | EmptyString => acc
    | String c rest => go (acc * 10 + (N_of_ascii c - 48))%N rest
    end in
  go 0%N digits.

(** [path.basename]: the last non-empty segment. *)
Definition basename (p : string) : string :=
  default EmptyString
    (last (filter (fun seg => seg <> EmptyString) (Path.split_slash p))).

Record part : Type := mkPart { index : N; filepath : string }.

(** Lines 228-240: one file name filed under its group. *)
Definition group_step (baseMap : list (string * list part)) (filepath : string)
    : list (string * list part) :=
  match match_segment (basename filepath) with
  | None => baseMap
  | Some (baseName, digits, ext) =>
      let index := match digits with Some ds => parseInt ds | None => 0%N end in
      let mapKey := baseName +:+ ext in
      let parts := default [] (map_get mapKey baseMap) in
      map_set mapKey (parts ++ [mkPart index filepath]) baseMap
  end.

Definition group_files (files : list string) : list (string * list part) :=
  foldl group_step [] files.

(** ** The file system and what is done to it *)

Inductive fsop : Type :=
| OpMkdir (dir : string)
| OpOpenWrite (file : string)      (* [createWriteStream(file)] *)
| OpPipe (src dst : string)        (* one source streamed to its end *)
| OpEnd (file : string)            (* [writer.end()] *)
| OpCopyFile (src dst : string)
| OpUnlink (file : string).

Record world : Type := mkWorld {
  files : gmap string string;
  ops : list fsop
}.

Definition did (o : fsop) (w : world) : world := mkWorld (files w) (ops w ++ [o]).

Definition set_file (file data : string) (w : world) : world :=
  mkWorld (<[file := data]> (files w)) (ops w).

(** [pipeNext]: the parts are streamed into the open writer one after the
    other.  A source that cannot be read makes the promise reject; nothing
    else is done to the writer or its file.  A source that is the output
    file itself is read as it stands at that moment; the facts below are
    about groups that do not contain their own output. *)
Fixpoint pipeNext (parts : list part) (outputPath : string) (w : world)
    : world * result unit :=
  match parts with
  | [] => (did (OpEnd outputPath) w, Ok tt)
  | p :: rest =>
      match files w !! filepath p with
      | None =>
          (w, Throw ("ENOENT: no such file or directory, open " +:+ filepath p))
      | Some data =>
          let out := default EmptyString (files w !! outputPath) in
          pipeNext rest outputPath
            (did (OpPipe (filepath p) outputPath)
               (set_file outputPath (out +:+ data) w))
      end
  end.

Definition copyFile (src dst : string) (w : world) : world * result unit :=
  match files w !! src with
  | None => (w, Throw ("ENOENT: no such file or directory, copyfile " +:+ src))
  | Some data => (did (OpCopyFile src dst) (set_file dst data w), Ok tt)
  end.

Fixpoint unlink_parts (parts : list part) (w : world) : world * result unit :=
  match parts with
  | [] => (w, Ok tt)
  | p :: rest =>
      match files w !! filepath p with
      | None => (w, Throw ("ENOENT: no such file or directory, unlink " +:+ filepath p))
      | Some _ =>
          unlink_parts rest
            (did (OpUnlink (filepath p))
               (mkWorld (delete (filepath p) (files w)) (ops w)))
      end
  end.

Definition sort_parts (parts : list part) : list part :=
  js_sort (fun a b => (index a <=? index b)%N) parts.

(** Lines 245-278: the body of the loop over the groups. *)
Definition merge_group (outputDir : string) (deleteSource : bool)
    (mapKey : string) (parts0 : list part) (w : world) : world * result unit :=
  let parts := sort_parts parts0 in
  let outputPath := Path.join outputDir mapKey in
  match parts with
  | [] => (w, Throw "TypeError: Cannot read properties of undefined")
  | first :: others =>
      let '(w1, r) :=
        if (1 <? length parts) || negb (index first =? 0)%N then
          pipeNext parts outputPath
            (set_file outputPath EmptyString (did (OpOpenWrite outputPath) w))
        else copyFile (filepath first) outputPath w in
      match r with
      | Throw e => (w1, Throw e)
      | Ok _ => if deleteSource then unlink_parts parts w1 else (w1, Ok tt)
      end
  end.

Fixpoint merge_groups (outputDir : string) (deleteSource : bool)
    (groups : list (string * list part)) (w : world) : world * result unit :=
  match groups with
  | [] => (w, Ok tt)
  | (mapKey, parts) :: rest =>
      match merge_group outputDir deleteSource mapKey parts w with
      | (w1, Throw e) => (w1, Throw e)
      | (w1, Ok _) => merge_groups outputDir deleteSource rest w1
      end
  end.

(** [mergeBytesFiles(files, outputDir, deleteSource)] *)
Definition mergeBytesFiles (fileList : list string) (outputDir : string)
    (deleteSource : bool) (w : world) : world * result unit :=
  merge_groups outputDir deleteSource (group_files fileList)
    (did (OpMkdir outputDir) w).



(** The bytes of the parts in the order given. *)
Definition concat_parts (fs : gmap string string) (parts : list part) : string :=
  foldr (fun p acc => default EmptyString (fs !! filepath p) +:+ acc)
        EmptyString parts.

(** ** Vocabulary for the facts about file names *)

(** No dot occurs in [s]. *)
Definition dot_free (s : string) : Prop :=
  str_all (fun c => negb (Ascii.eqb c ".")) s = true.

(** What a segment number adds to a file name. *)
Definition segment_suffix (digits : option string) : string :=
  match digits with
  | Some ds => "-" +:+ ds
  | None => EmptyString
  end.

(** [s] ends with a dash and a run of digits, with something in front. *)
Definition numbered (s : string) : Prop :=
  exists front ds, front <> EmptyString /\ digit_run ds /\ s = front +:+ "-" +:+ ds.

(** The index a segment number stands for. *)
Definition segment_index (digits : option string) : N :=
  match digits with
  | Some ds => parseInt ds
  | None => 0%N
  end.

(** Lines 229-236 for one file: the key it is filed under, if its name
    matches, and the entry pushed for it. *)
Definition map_key (filepath : string) : option string :=
  match match_segment (basename filepath) with
  | Some (baseName, _, ext) => Some (baseName +:+ ext)
  | None => None
  end.

Definition part_of (filepath : string) : part :=
  match match_segment (basename filepath) with
  | Some (_, digits, _) => mkPart (segment_index digits) filepath
  | None => mkPart 0 filepath
  end.

(** The listed files filed under [key], in the order of the listing. *)
Definition members (key : string) (fileList : list string) : list part :=
  part_of <$> filter (fun f => map_key f = Some key) fileList.

(** ** Sample data: segments 2, 0 and 1 of one file *)

Definition three_parts : list part :=
  [mkPart 2 "in/s-2.txt.bytes"; mkPart 0 "in/s.txt.bytes";
   mkPart 1 "in/s-1.txt.bytes"].

Definition three_files : gmap string string :=
  <["in/s-2.txt.bytes" := "B"]>
    (<["in/s.txt.bytes" := "A"]> (<["in/s-1.txt.bytes" := ""]> ∅)).

Definition two_files : gmap string string :=
  <["in/s-2.txt.bytes" := "B"]> (<["in/s.txt.bytes" := "A"]> ∅).

End MergeBytes.

(** * src/mergeBytes.ts: the merger of segmented ACB files *)
Module MergeAcb.
Import MergeBytes.

(** ** [ACB_SEGMENT_PATTERN = /^(.+?)-(\d{3,})\.acb$/i] *)

(** An ASCII capital as its small letter, every other byte as it is. *)
Definition lower (c : ascii) : ascii :=
  if in_range "A" "Z" c then ascii_of_nat (nat_of_ascii c + 32) else c.

Fixpoint lower_ascii (s : string) : string :=
  match s with
  | EmptyString => EmptyString
  | String c rest => String (lower c) (lower_ascii rest)
  end.

(** [name.toLowerCase().endsWith('.acb')].  [toLowerCase] yields a dot or
    one of the letters a, c, b only from that character or its ASCII
    capital, so the test reads the last four bytes of the name. *)
Definition is_acb_name (name : string) : bool :=
  ends_with ".acb" (lower_ascii name).

(** [s] without a closing [.acb] in any case of the letters. *)
Fixpoint strip_acb (s : string) : option string :=
  if String.eqb (lower_ascii s) ".acb" then Some EmptyString
  else
    match s with
    | EmptyString => None
    | String c rest => String c <$> strip_acb rest
    end.

(** The groups [(match[1], match[2])] of a file name.  The digits reach
    from the last dash to the extension; there are at least three of
    them, and the base in front of the dash is not empty and holds no
    line terminator. *)
Definition match_acb (filename : string) : option (string * string) :=
  match strip_acb filename with
  | None => None
  | Some stem =>
      match split_last "-" stem with
      | Some (String c base, String _ digits) =>
          if str_all is_digit digits && (3 <=? String.length digits)
             && negb (has_line_terminator (String c base))
          then Some (String c base, digits)
          else None
      | _ => None
      end
  end.

(** ** [mergeSegmentedAcb] *)

Record segment : Type := mkSegment { seg_index : string; seg_filepath : string }.

(** [numericSort(a, b)] *)
Definition numericSort (a b : string) : Z :=
  (Z.of_N (parseInt a) - Z.of_N (parseInt b))%Z.

Definition sort_segments (segments : list segment) : list segment :=
  js_sort (fun a b => (numericSort (seg_index a) (seg_index b) <=? 0)%Z) segments.

(** [pipeNext] of lines 56-70: the segments streamed into the open writer
    one after the other; a source that cannot be read rejects. *)
Fixpoint pipeSegments (segments : list segment) (outputPath : string) (w : world)
    : world * result unit :=
  match segments with
  | [] => (did (OpEnd outputPath) w, Ok tt)
  | s :: rest =>
      match files w !! seg_filepath s with
      | None =>
          (w, Throw ("ENOENT: no such file or directory, open " +:+ seg_filepath s))
      | Some data =>
          let out := default EmptyString (files w !! outputPath) in
          pipeSegments rest outputPath
            (did (OpPipe (seg_filepath s) outputPath)
               (set_file outputPath (out +:+ data) w))
      end
  end.

(** [mergeSegmentedAcb(segments, outputPath)]; the array is sorted in
    place, so the caller goes on with the sorted segments. *)
Definition mergeSegmentedAcb (segments : list segment) (outputPath : string)
    (w : world) : world * result unit :=
  pipeSegments (sort_segments segments) outputPath
    (set_file outputPath EmptyString (did (OpOpenWrite outputPath) w)).

(** ** [mergeAllSegmentedAcbFiles] *)

(** [fs.unlink(p).catch(() => {})] *)
Definition unlink_quiet (file : string) (w : world) : world :=
  match files w !! file with
  | Some _ => did (OpUnlink file) (mkWorld (delete file (files w)) (ops w))
  | None => w
  end.

(** Lines 102-106: the listed files by their directory. *)
Definition dir_step (groups : list (string * list string)) (file : string)
    : list (string * list string) :=
  let dir := GetAssets.dirname file in
  map_set dir (default [] (map_get dir groups) ++ [file]) groups.

Definition group_by_dir (allAcbFiles : list string) : list (string * list string) :=
  foldl dir_step [] allAcbFiles.

(** Lines 114-126: the files of one directory by their base name. *)
Definition segment_step (segmentMap : list (string * list segment)) (file : string)
    : list (string * list segment) :=
  match match_acb (basename file) with
  | Some (baseName, index) =>
      map_set baseName
        (default [] (map_get baseName segmentMap) ++ [mkSegment index file])
        segmentMap
  | None => segmentMap
  end.

Definition segment_map (fileList : list string) : list (string * list segment) :=
  foldl segment_step [] fileList.

Definition acb_outputPath (rootDir : string) (outputToSameDir : bool)
    (dir baseName : string) : string :=
  let finalAcbName := baseName +:+ ".acb" in
  if outputToSameDir then Path.join dir finalAcbName
  else Path.join_list [rootDir; "merged_acb"; finalAcbName].

Section merge_all.
Context (rootDir : string) (deleteSource outputToSameDir : bool).

(** Lines 129-154: the groups of one directory. *)
Fixpoint merge_segment_groups (dir : string)
    (groups : list (string * list segment)) (w : world) : world * result unit :=
  match groups with
  | [] => (w, Ok tt)
  | (baseName, parts) :: rest =>
      if length parts <=? 1 then merge_segment_groups dir rest w
      else
        let outputPath := acb_outputPath rootDir outputToSameDir dir baseName in
        let w :=
          if outputToSameDir then w
          else did (OpMkdir (GetAssets.dirname outputPath)) w in
        match mergeSegmentedAcb parts outputPath w with
        | (w1, Throw e) => (w1, Throw e)
        | (w1, Ok _) =>
            let w2 :=
              if deleteSource then
                foldl (fun w p => unlink_quiet (seg_filepath p) w) w1
                  (sort_segments parts)
              else w1 in
            merge_segment_groups dir rest w2
        end
  end.

(** Lines 110-155: the directories one after the other. *)
Fixpoint merge_dirs (groups : list (string * list string)) (w : world)
    : world * result unit :=
  match groups with
  | [] => (w, Ok tt)
  | (dir, fileList) :: rest =>
      match merge_segment_groups dir (segment_map fileList) w with
      | (w1, Throw e) => (w1, Throw e)
      | (w1, Ok _) => merge_dirs rest w1
      end
  end.

(** [mergeAllSegmentedAcbFiles(rootDir, deleteSource, outputToSameDir)]
    on the listing [allAcbFiles] that [getAllAcbFiles(rootDir)] returned. *)
Definition mergeAllSegmentedAcbFiles_on (allAcbFiles : list string) (w : world)
    : world * result unit :=
  match allAcbFiles with
  | [] => (w, Ok tt)
  | _ => merge_dirs (group_by_dir allAcbFiles) w
  end.
End merge_all.

(** ** Vocabulary for the facts *)

(** The order of two segments by the numbers their indexes stand for. *)
Definition seg_le (a b : segment) : Prop :=
  (parseInt (seg_index a) <= parseInt (seg_index b))%N.

(** The bytes of the segments in the order given. *)
Definition concat_segments (fs : gmap string string) (segments : list segment)
    : string :=
  foldr (fun s acc => default EmptyString (fs !! seg_filepath s) +:+ acc)
        EmptyString segments.

(** ** Sample data: three segments and a lone one in one directory *)

Definition acb_listing : list string :=
  ["out/new/bgm-003.acb"; "out/new/bgm-001.acb"; "out/new/bgm-002.ACB";
   "out/new/se-001.acb"; "out/new/voice.acb"].

Definition acb_files : gmap string string :=
  <["out/new/bgm-003.acb" := "C"]>
    (<["out/new/bgm-001.acb" := "A"]>
       (<["out/new/bgm-002.ACB" := "B"]>
          (<["out/new/se-001.acb" := "S"]> (<["out/new/voice.acb" := "V"]> ∅)))).

End MergeAcb.

(** * src/removeUnchangedFiles.ts *)
Module RemoveUnchanged.

(** ** The directory tree

    A path is the list of its segments from the root of the tree:
    [path.join(dir, entry.name)] appends a segment and
    [path.relative(dir, p)] takes the segments of [dir] off the front. *)
#[warnings="-register-all"]
Inductive node : Type :=
| File (data : string)
| Dir (entries : list (string * node)).

Abbreviation path := (list string).

(** The tree, and for every path the number of coming operations on it
    that fail with [EBUSY] (a file another process holds open). *)
Record world : Type := mkWorld {
  root : node;
  busy : gmap path nat
}.

Fixpoint lookup_entry (name : string) (es : list (string * node)) : option node :=
  match es with
  | [] => None
  | (n, c) :: rest => if String.eqb n name then Some c else lookup_entry name rest
  end.

Fixpoint lookup_path (p : path) (n : node) : option node :=
  match p with
  | [] => Some n
  | name :: p' =>
      match n with
      | Dir es =>
          match lookup_entry name es with
          | Some c => lookup_path p' c
          | None => None
          end
      | File _ => None
      end
  end.

(** The tree with the entry at [p] replaced by [v], or removed when [v]
    is [None]. *)
Fixpoint set_path (p : path) (v : option node) (n : node) : node :=
  match p, n with
  | name :: p', Dir es =>
      Dir ((fix go (es : list (string * node)) : list (string * node) :=
              match es with
              | [] => []
              | (n0, c) :: rest =>
                  if String.eqb n0 name then
                    match p' with
                    | [] =>
                        match v with
                        | Some c' => (n0, c') :: rest
                        | None => rest
                        end
                    | _ => (n0, set_path p' v c) :: rest
                    end
                  else (n0, c) :: go rest
              end) es)
  | _, _ => n
  end.

(** One use of a path: [true] when it is refused as busy. *)
Definition take_busy (p : path) (w : world) : world * bool :=
  match busy w !! p with
  | Some (S k) => (mkWorld (root w) (<[p := k]> (busy w)), true)
  | _ => (w, false)
  end.

(** [fsp.readFile] *)
Definition readFile (p : path) (w : world) : world * result string :=
  let '(w, refused) := take_busy p w in
  if refused then (w, Throw "EBUSY")
  else
    match lookup_path p (root w) with
    | Some (File data) => (w, Ok data)
    | Some (Dir _) => (w, Throw "EISDIR")
    | None => (w, Throw "ENOENT")
    end.

(** [fsp.unlink] *)
Definition unlink (p : path) (w : world) : world * result unit :=
  let '(w, refused) := take_busy p w in
  if refused then (w, Throw "EBUSY")
  else
    match lookup_path p (root w) with
    | Some (File _) => (mkWorld (set_path p None (root w)) (busy w), Ok tt)
    | Some (Dir _) => (w, Throw "EISDIR")
    | None => (w, Throw "ENOENT")
    end.

Definition retryable (code : string) : bool :=
  String.eqb code "EBUSY" || String.eqb code "EPERM".

(** [safeRead(filePath, retry)] *)
Fixpoint safeRead (filePath : path) (retry : nat) (w : world)
    : world * result string :=
  match retry with
  | 0 => (w, Throw "file stays busy, cannot be read")
  | S retry' =>
      match readFile filePath w with
      | (w', Ok buffer) => (w', Ok buffer)
      | (w', Throw code) =>
          if retryable code then safeRead filePath retry' w'
          else (w', Throw code)
      end
  end.

(** [safeDelete(filePath, retry)]: giving up is a warning, not an error. *)
Fixpoint safeDelete (filePath : path) (retry : nat) (w : world)
    : world * result unit :=
  match retry with
  | 0 => (w, Ok tt)
  | S retry' =>
      match unlink filePath w with
      | (w', Ok _) => (w', Ok tt)
      | (w', Throw code) =>
          if retryable code then safeDelete filePath retry' w'
          else (w', Throw code)
      end
  end.

(** [walkDir] below a directory node reached by [dir]. *)
Fixpoint walk_node (dir : path) (n : node) : list path :=
  match n with
  | File _ => [dir]
  | Dir es =>
      (fix go (es : list (string * node)) : list path :=
         match es with
         | [] => []
         | (name, c) :: rest => walk_node (dir ++ [name]) c ++ go rest
         end) es
  end.

Definition walkDir (dir : path) (w : world) : result (list path) :=
  match lookup_path dir (root w) with
  | Some (Dir es) => Ok (walk_node dir (Dir es))
  | Some (File _) => Throw "ENOTDIR"
  | None => Throw "ENOENT"
  end.

(** [removeEmptyDirs] on the node of a directory: [None] when the
    directory went away (the call returned [true]). *)
Fixpoint prune (n : node) : option node :=
  match n with
  | File data => Some (File data)
  | Dir es =>
      let kept :=
        (fix go (es : list (string * node)) : list (string * node) :=
           match es with
           | [] => []
           | (name, c) :: rest =>
               match c with
               | File _ => (name, c) :: go rest
               | Dir _ =>
                   match prune c with
                   | None => go rest
                   | Some c' => (name, c') :: go rest
                   end
               end
           end) es in
      match kept with
      | [] => None
      | _ => Some (Dir kept)
      end
  end.

Definition removeEmptyDirs (dir : path) (w : world) : world * result bool :=
  match lookup_path dir (root w) with
  | None => (w, Ok true)
  | Some (File _) => (w, Throw "ENOTDIR")
  | Some (Dir es) =>
      match prune (Dir es), dir with
      | None, [] => (mkWorld (Dir []) (busy w), Ok true)
      | None, _ => (mkWorld (set_path dir None (root w)) (busy w), Ok true)
      | Some n', [] => (mkWorld n' (busy w), Ok false)
      | Some n', _ => (mkWorld (set_path dir (Some n') (root w)) (busy w), Ok false)
      end
  end.

(** [path.relative(dir, p)] for a [p] below [dir], as the map key. *)
Definition relative (dir p : path) : string :=
  Path.join_segments (drop (length dir) p).

(** Lines 118-122. *)
Definition build_relativeMap (change_old : path) (oldFiles : list path)
    : list (string * path) :=
  foldl (fun m oldPath => map_set (relative change_old oldPath) oldPath m)
        [] oldFiles.

Section hashing.
(** [createHash("md5").update(buffer).digest("hex")] of the platform. *)
Context (md5 : string -> string).

Definition hashFile (filePath : path) (w : world) : world * result string :=
  match safeRead filePath 5 w with
  | (w', Ok buffer) => (w', Ok (md5 buffer))
  | (w', Throw e) => (w', Throw e)
  end.

(** Lines 125-140: the task queued for one file of the candidate tree. *)
Definition compare_task (relativeMap : list (string * path)) (change : path)
    (newPath : path) (w : world) : world * result unit :=
  let rel := relative change newPath in
  match map_get rel relativeMap with
  | None => (w, Ok tt)
  | Some oldFilePath =>
      match hashFile oldFilePath w with
      | (w1, Throw e) => (w1, Throw e)
      | (w1, Ok oldHash) =>
          match hashFile newPath w1 with
          | (w2, Throw e) => (w2, Throw e)
          | (w2, Ok newHash) =>
              if String.eqb oldHash newHash then safeDelete newPath 5 w2
              else (w2, Ok tt)
          end
      end
  end.

(** [await Promise.all(tasks)], the tasks taken in queue order.  The
    limiter starts every queued task, whatever became of the ones before
    it: a task that throws makes the awaited promise reject with its
    error, and the tasks after it still run.  The world returned with the
    error is the one they leave behind. *)
Fixpoint run_tasks (relativeMap : list (string * path)) (change : path)
    (newFiles : list path) (w : world) : world * result unit :=
  match newFiles with
  | [] => (w, Ok tt)
  | newPath :: rest =>
      match compare_task relativeMap change newPath w with
      | (w1, Throw e) => ((run_tasks relativeMap change rest w1).1, Throw e)
      | (w1, Ok _) => run_tasks relativeMap change rest w1
      end
  end.

(** [removeUnchangedFiles(change_old, change)] of
    src/removeUnchangedFiles.ts: it resolves to [undefined]. *)
Definition removeUnchangedFiles (change_old change : path) (w : world)
    : world * result unit :=
  match walkDir change_old w with
  | Throw e => (w, Throw e)
  | Ok oldFiles =>
      match walkDir change w with
      | Throw e => (w, Throw e)
      | Ok newFiles =>
          let relativeMap := build_relativeMap change_old oldFiles in
          match run_tasks relativeMap change newFiles w with
          | (w1, Throw e) => (w1, Throw e)
          | (w1, Ok _) =>
              match removeEmptyDirs change w1 with
              | (w2, Throw e) => (w2, Throw e)
              | (w2, Ok _) => (w2, Ok tt)
              end
          end
      end
  end.

(** ** The other source of the same function, which returns a list

    Its task pushes [newPath] onto [changedFiles] when the hashes
    differ; for a file the old tree lacks it returns before pushing. *)
Definition compare_task_listing (relativeMap : list (string * path))
    (change : path) (newPath : path) (changedFiles : list path) (w : world)
    : world * result (list path) :=
  let rel := relative change newPath in
  match map_get rel relativeMap with
  | None => (w, Ok changedFiles)
  | Some oldPath =>
      match hashFile oldPath w with
      | (w1, Throw e) => (w1, Throw e)
      | (w1, Ok oldHash) =>
          match hashFile newPath w1 with
          | (w2, Throw e) => (w2, Throw e)
          | (w2, Ok newHash) =>
              if String.eqb oldHash newHash then
                match safeDelete newPath 5 w2 with
                | (w3, Throw e) => (w3, Throw e)
                | (w3, Ok _) => (w3, Ok changedFiles)
                end
              else (w2, Ok (changedFiles ++ [newPath]))
          end
      end
  end.

Fixpoint run_tasks_listing (relativeMap : list (string * path)) (change : path)
    (newFiles : list path) (changedFiles : list path) (w : world)
    : world * result (list path) :=
  match newFiles with
  | [] => (w, Ok changedFiles)
  | newPath :: rest =>
      match compare_task_listing relativeMap change newPath changedFiles w with
      | (w1, Throw e) =>
          ((run_tasks_listing relativeMap change rest changedFiles w1).1, Throw e)
      | (w1, Ok changed) => run_tasks_listing relativeMap change rest changed w1
      end
  end.

Definition removeUnchangedFiles_listing (change_old change : path) (w : world)
    : world * result (list path) :=
  match walkDir change_old w with
  | Throw e => (w, Throw e)
  | Ok oldFiles =>
      match walkDir change w with
      | Throw e => (w, Throw e)
      | Ok newFiles =>
          let relativeMap := build_relativeMap change_old oldFiles in
          match run_tasks_listing relativeMap change newFiles [] w with
          | (w1, Throw e) => (w1, Throw e)
          | (w1, Ok changedFiles) =>
              match removeEmptyDirs change w1 with
              | (w2, Throw e) => (w2, Throw e)
              | (w2, Ok _) => (w2, Ok changedFiles)
              end
          end
      end
  end.
End hashing.

(** ** Vocabulary for the facts about trees *)

(** A tree as a file system has it: the names of a directory are distinct,
    not empty and free of separators. *)
Fixpoint wf_node (n : node) : Prop :=
  match n with
  | File _ => True
  | Dir es =>
      NoDup es.*1 /\
      (fix go (es : list (string * node)) : Prop :=
         match es with
         | [] => True
         | (name, c) :: rest =>
             name <> EmptyString /\ Path.no_sep name = true /\ wf_node c /\ go rest
         end) es
  end.

(** The bytes of the regular file at [p], if there is one. *)
Definition file_data (p : path) (n : node) : option string :=
  match lookup_path p n with
  | Some (File data) => Some data
  | _ => None
  end.

(** No directory of the tree is empty. *)
Fixpoint populated (n : node) : Prop :=
  match n with
  | File _ => True
  | Dir es =>
      es <> [] /\
      (fix go (es : list (string * node)) : Prop :=
         match es with
         | [] => True
         | (_, c) :: rest => populated c /\ go rest
         end) es
  end.

(** The candidate file at [rel] has a counterpart in the reference tree
    with the same digest. *)
Definition unchanged (md5 : string -> string) (change_old change rel : path)
    (n : node) : bool :=
  match file_data (change_old ++ rel) n, file_data (change ++ rel) n with
  | Some oldData, Some newData => String.eqb (md5 oldData) (md5 newData)
  | _, _ => false
  end.

(** The entries of a directory after the first one called [name] went
    through [f]: replaced by what [f] returns, or dropped. *)
Fixpoint update_entry (name : string) (f : node -> option node)
    (es : list (string * node)) : list (string * node) :=
  match es with
  | [] => []
  | (n0, c) :: rest =>
      if String.eqb n0 name then
        match f c with
        | Some c' => (n0, c') :: rest
        | None => rest
        end
      else (n0, c) :: update_entry name f rest
  end.

(** Neither path leads to the other. *)
Definition apart (p q : path) : Prop := ~ p `prefix_of` q /\ ~ q `prefix_of` p.

(** A reference tree and a candidate tree: one file with the same bytes
    in both, one that differs, one the candidate alone has. *)
Definition two_trees : node :=
  Dir [("change_old", Dir [("same.txt", File "s"); ("diff.txt", File "v1")]);
       ("change", Dir [("same.txt", File "s"); ("diff.txt", File "v2");
                       ("new.txt", File "n")])].

Definition two_trees_reconciled : node :=
  Dir [("change_old", Dir [("same.txt", File "s"); ("diff.txt", File "v1")]);
       ("change", Dir [("diff.txt", File "v2"); ("new.txt", File "n")])].

(** A candidate tree with directories that hold no file. *)
Definition sparse_tree : node :=
  Dir [("change",
        Dir [("a", Dir [("b", Dir [])]);
             ("c", Dir [("keep.txt", File "k"); ("d", Dir [])])])].

End RemoveUnchanged.

(** * The finders of src/mergeBytes.ts and the decoder whose source is
      kept in src/removeUnchangedFiles.ts, on the directory tree *)
Module DecodeAcb.
Import RemoveUnchanged.

(** [SEGMENTED_ACB_PATTERN = /-(\d{3,})\.acb$/i] as a test: the name ends
    with a dash, at least three digits and [.acb] in any case of the
    letters.  The digits reach from the last dash to the extension. *)
Definition segmented_acb (name : string) : bool :=
  match MergeAcb.strip_acb name with
  | None => false
  | Some stem =>
      match MergeBytes.split_last "-" stem with
      | Some (_, String _ digits) =>
          str_all is_digit digits && (3 <=? String.length digits)
      | _ => false
      end
  end.

(** The name of the entry a path leads to. *)
Definition entry_name (p : path) : string := default EmptyString (last p).

(** The loop of the three finders below a node reached by [dir]: a
    directory is searched, a file is listed when its name passes [keep]. *)
Fixpoint find_node (keep : string -> bool) (dir : path) (n : node) : list path :=
  match n with
  | File _ => if keep (entry_name dir) then [dir] else []
  | Dir es =>
      (fix go (es : list (string * node)) : list path :=
         match es with
         | [] => []
         | (name, c) :: rest => find_node keep (dir ++ [name]) c ++ go rest
         end) es
  end.

Definition find_files (keep : string -> bool) (dir : path) (w : world)
    : result (list path) :=
  match lookup_path dir (root w) with
  | Some (Dir es) => Ok (find_node keep dir (Dir es))
  | Some (File _) => Throw "ENOTDIR"
  | None => Throw "ENOENT"
  end.

(** [getAllAcbFiles(dir)] of src/mergeBytes.ts *)
Definition getAllAcbFiles : path -> world -> result (list path) :=
  find_files MergeAcb.is_acb_name.

(** [getAllBytesFiles(dir)] of src/mergeBytes.ts *)
Definition getAllBytesFiles : path -> world -> result (list path) :=
  find_files (ends_with ".bytes").

(** [findValidAcbFiles(dir)] *)
Definition valid_acb_name (name : string) : bool :=
  MergeAcb.is_acb_name name && negb (segmented_acb name).

Definition findValidAcbFiles : path -> world -> result (list path) :=
  find_files valid_acb_name.

(** ** [dedupeWavPair] *)

(** [fs.readdir(dir)]: the names of the entries. *)
Definition readdir (dir : path) (w : world) : result (list string) :=
  match lookup_path dir (root w) with
  | Some (Dir es) => Ok es.*1
  | Some (File _) => Throw "ENOTDIR"
  | None => Throw "ENOENT"
  end.

(** [f.toLowerCase().endsWith('.wav')] *)
Definition is_wav_name (name : string) : bool :=
  ends_with ".wav" (MergeAcb.lower_ascii name).

(** Lines 265-280, one pass of the loop: both files are read; when both
    reads succeed and the bytes are equal the new file is unlinked.  A
    failed read or unlink is caught and the file is kept. *)
Definition dedupe_one (changeOutDir oldOutDir : path) (wav : string) (w : world)
    : world :=
  let '(w1, bufNew) := readFile (changeOutDir ++ [wav]) w in
  let '(w2, bufOld) := readFile (oldOutDir ++ [wav]) w1 in
  match bufNew, bufOld with
  | Ok bufNew, Ok bufOld =>
      if String.eqb bufNew bufOld then (unlink (changeOutDir ++ [wav]) w2).1
      else w2
  | _, _ => w2
  end.

(** [dedupeWavPair(changeOutDir, oldOutDir)] *)
Definition dedupeWavPair (changeOutDir oldOutDir : path) (w : world)
    : world * result unit :=
  match lookup_path oldOutDir (root w) with
  | None => (w, Ok tt)
  | Some _ =>
      match readdir changeOutDir w with
      | Throw e => (w, Throw e)
      | Ok names =>
          (foldl (fun w wav => dedupe_one changeOutDir oldOutDir wav w) w
             (filter (fun f => is_wav_name f = true) names),
           Ok tt)
      end
  end.

(** The entry [name] of the new directory is a sound file and the old
    directory has a file of that name with the same bytes. *)
Definition same_wav (changeOutDir oldOutDir : path) (name : string) (n : node)
    : bool :=
  is_wav_name name &&
  match file_data (changeOutDir ++ [name]) n, file_data (oldOutDir ++ [name]) n with
  | Some bufNew, Some bufOld => String.eqb bufNew bufOld
  | _, _ => false
  end.

(** ** Sample data: decoded sounds of a changed and of an old file *)

Definition wav_trees : node :=
  Dir [("old", Dir [("a.wav", File "1"); ("b.WAV", File "2"); ("c.txt", File "3")]);
       ("new", Dir [("a.wav", File "1"); ("b.WAV", File "9"); ("c.txt", File "3");
                    ("d.wav", File "4")])].

End DecodeAcb.

(** * src/downloadAssetBundleInfo.ts *)
Module DownloadAB.

Definition BASE_NAME : string := "AssetBundleInfo".
Definition OUT_DIR : string := BASE_NAME.

(** [url.match(/\/Release\/(\d+\.\d+\.\d+\.\d+)/)]: the version at the
    first place of [url] where the expression matches. *)
Fixpoint extractVersion (url : string) : option string :=
  match s ← expect "/Release/" url; scan_version s with
  | Some (v, _) => Some v
  | None =>
      match url with
      | EmptyString => None
      | String _ rest => extractVersion rest
      end
  end.

(** [/^\d+\.\d+\.\d+\.\d+$/.test(input)] *)
Definition isVersionFormat (input : string) : bool :=
  match scan_version input with
  | Some (_, EmptyString) => true
  | _ => false
  end.

(** [incrementVersion(version)].  [Number(lastNum)] and [last.toString()]
    are taken on a run of decimal digits whose number stays exactly
    representable; the facts assume as much. *)
Definition incrementVersion (version : string) : result string :=
  let parts := split_on "." version in
  match last parts with
  | Some (String c rest) =>
      let last := digits_value (String c rest) in
      let last := (last + (if (last mod 100 =? 90)%N then 20 else 10))%N in
      Ok (String.concat "." (removelast parts ++ [pretty last]))
  | _ => Throw "Invalid version number"
  end.

(** Line 120: where the manifest of [version] is saved. *)
Definition savedName (version : string) : string :=
  BASE_NAME +:+ "_" +:+ version +:+ ".txt".

Definition finalPath (version : string) : string :=
  Path.join OUT_DIR (savedName version).

End DownloadAB.



(** * Facts about strings and the shared helpers *)
Module SharedFacts.

Lemma append_nil_r (s : string) : s +:+ EmptyString = s.
Proof. induction s as [|c s IH]; simpl; [done | by rewrite IH]. Qed.

Lemma append_assoc (a b c : string) : (a +:+ b) +:+ c = a +:+ (b +:+ c).
Proof. induction a as [|x a IH]; simpl; [done | by rewrite IH]. Qed.

Lemma append_length (a b : string) :
  String.length (a +:+ b) = String.length a + String.length b.
Proof. induction a as [|x a IH]; simpl; [done | by rewrite IH]. Qed.

(** ** The sort *)

Section js_sort_facts.
Context {A : Type} (le : A -> A -> bool).
Hypothesis le_total : forall a b, le a b = true \/ le b a = true.
Hypothesis le_trans : forall a b c, le a b = true -> le b c = true -> le a c = true.

Lemma sort_insert_perm x l : sort_insert le x l ≡ₚ x :: l.
Proof.
  induction l as [|y l IH]; simpl; [done |].
  destruct (le x y); [done |]. rewrite IH. apply Permutation_swap.
Qed.

Lemma js_sort_perm l : js_sort le l ≡ₚ l.
Proof.
  induction l as [|x l IH]; simpl; [done |].
  by rewrite sort_insert_perm, IH.
Qed.

Lemma sort_insert_sorted x l :
  StronglySorted (fun a b => le a b = true) l ->
  StronglySorted (fun a b => le a b = true) (sort_insert le x l).
Proof.
  induction 1 as [|y l Hl IH Hy]; simpl.
  - repeat constructor.
  - destruct (le x y) eqn:Hxy.
    + constructor; [by constructor |]. constructor; [done |].
      eapply Forall_impl; [exact Hy |]. intros z Hz. by eapply le_trans.
    + constructor; [done |]. rewrite sort_insert_perm. constructor; [| done].
      destruct (le_total x y); [congruence | done].
Qed.

Lemma js_sort_sorted l :
  StronglySorted (fun a b => le a b = true) (js_sort le l).
Proof.
  induction l as [|x l IH]; simpl; [constructor | by apply sort_insert_sorted].
Qed.
End js_sort_facts.

Lemma StronglySorted_weaken {A} (R R' : A -> A -> Prop) l :
  (forall a b, R a b -> R' a b) -> StronglySorted R l -> StronglySorted R' l.
Proof.
  intros HR. induction 1 as [|x l Hl IH Hx]; constructor; [done |].
  eapply Forall_impl; [exact Hx | auto].
Qed.

(** ** The map *)

Section js_map_facts.
Context {V : Type}.
Implicit Types m : list (string * V).

Lemma map_get_set k v k' m :
  map_get k' (map_set k v m) = if String.eqb k k' then Some v else map_get k' m.
Proof.
  induction m as [|[k0 v0] m IH]; simpl.
  - done.
  - destruct (String.eqb_spec k0 k) as [-> | Hne]; simpl.
    + by destruct (String.eqb k k').
    + rewrite IH. destruct (String.eqb_spec k0 k') as [-> | Hne'].
      * by destruct (String.eqb_spec k k') as [-> | _].
      * done.
Qed.

Lemma map_keys_get k m : k ∈ map_keys m <-> is_Some (map_get k m).
Proof.
  unfold map_keys. induction m as [|[k0 v0] m IH]; csimpl.
  - rewrite elem_of_nil. split; [done | by intros [? ?]].
  - rewrite elem_of_cons, IH. destruct (String.eqb_spec k0 k) as [-> | Hne].
    + split; [by eexists | by left].
    + split; [by intros [-> | ?] | by right].
Qed.

Lemma map_has_true k m : map_has k m = true <-> is_Some (map_get k m).
Proof. unfold map_has. destruct (map_get k m); split; by (done || eexists || intros [? ?]). Qed.

Lemma map_has_false k m : map_has k m = false <-> map_get k m = None.
Proof. unfold map_has. by destruct (map_get k m). Qed.

Lemma map_keys_set k v m :
  map_keys (map_set k v m) = if map_has k m then map_keys m else map_keys m ++ [k].
Proof.
  unfold map_keys, map_has. induction m as [|[k0 v0] m IH]; csimpl; [done |].
  destruct (String.eqb_spec k0 k) as [-> | Hne]; csimpl; [done |].
  rewrite IH. by destruct (map_get k m).
Qed.

Lemma map_set_NoDup k v m : NoDup (map_keys m) -> NoDup (map_keys (map_set k v m)).
Proof.
  intros Hm. rewrite map_keys_set. destruct (map_has k m) eqn:Hk; [done |].
  apply NoDup_app. split_and!; [done | | apply NoDup_singleton].
  intros x Hx ->%list_elem_of_singleton.
  apply map_keys_get, map_has_true in Hx. congruence.
Qed.
End js_map_facts.

End SharedFacts.

(** * Facts about src/compare.ts *)
Module CompareFacts.
Import Compare SharedFacts.

Lemma alpha_is_alnum c : is_alpha c = true -> is_alnum c = true.
Proof. unfold is_alnum. intros ->. done. Qed.

Lemma alnum_is_pathchar c : is_alnum c = true -> is_pathchar c = true.
Proof. unfold is_pathchar. intros ->. done. Qed.

(** *** The hash expression *)

Lemma take_hex_sound n s h :
  take_hex n s = Some h ->
  String.length h = n /\ str_all is_hex h = true /\ exists rest, s = h +:+ rest.
Proof.
  revert s h. induction n as [|n IH]; intros s h; simpl.
  - intros [= <-]. split_and!; [done | done | by exists s].
  - destruct s as [|c s]; [done |].
    destruct (is_hex c) eqn:Hc; [| done].
    destruct (take_hex n s) as [h' |] eqn:Hh; [| done].
    intros [= <-]. destruct (IH _ _ Hh) as (Hlen & Hall & rest & ->).
    simpl. rewrite Hc, Hall, Hlen. split_and!; [done | done | by exists rest].
Qed.

Lemma take_hex_complete h rest :
  str_all is_hex h = true -> take_hex (String.length h) (h +:+ rest) = Some h.
Proof.
  induction h as [|c h IH]; simpl; [done |].
  intros [Hc Hh]%andb_prop. rewrite Hc, (IH Hh). done.
Qed.

#[local] Arguments take_hex : simpl never.

(** A successful hash match splits the line at [hashPos]. *)
Lemma match_hash_sound line hashPos hashValue :
  match_hash line = Some (hashPos, hashValue) ->
  hash_token hashValue /\
  exists rest,
    line = substring 0 hashPos line +:+ String "@" (hashValue +:+ rest) /\
    String.length (substring 0 hashPos line) = hashPos.
Proof.
  revert hashPos hashValue.
  induction line as [|c line IH]; intros pos h; simpl; [done |].
  destruct (if Ascii.eqb c "@" then take_hex 64 line else None) as [h0 |] eqn:Hh.
  - intros [= <- <-].
    destruct (Ascii.eqb c "@") eqn:Hc; [| done].
    apply Ascii.eqb_eq in Hc as ->.
    destruct (take_hex_sound _ _ _ Hh) as (Hlen & Hall & rest & ->).
    split; [done |]. exists rest. done.
  - destruct (match_hash line) as [[i h'] |] eqn:Hm; [| done].
    intros [= <- <-].
    destruct (IH _ _ eq_refl) as (Htok & rest & Hline & Hlen).
    split; [done |]. exists rest. simpl. rewrite Hlen. split; [| done].
    f_equal. done.
Qed.

(** Every line holding an [@] followed by 64 hex digits has a match. *)
Lemma match_hash_complete pre h post :
  hash_token h -> is_Some (match_hash (pre +:+ String "@" (h +:+ post))).
Proof.
  intros [Hlen Hall]. induction pre as [|c pre IH]; simpl.
  - rewrite <- Hlen, take_hex_complete by done. by eexists.
  - destruct (if Ascii.eqb c "@" then _ else None); [by eexists |].
    destruct IH as [[i h'] ->]. by eexists.
Qed.

(** *** The path expression *)

Lemma longest_tail_sound s m r :
  longest_tail s = Some (m, r) ->
  s = m +:+ r /\
  exists mid d, m = mid +:+ String d EmptyString /\
    str_all is_pathchar mid = true /\ is_alnum d = true.
Proof.
  revert m r. induction s as [|x s IH]; intros m r; simpl; [done |].
  destruct (is_pathchar x) eqn:Hx; [| done].
  destruct (longest_tail s) as [[m' r'] |] eqn:Ht.
  - intros [= <- <-]. destruct (IH _ _ eq_refl) as (-> & mid & d & -> & Hmid & Hd).
    split; [done |]. exists (String x mid), d. simpl. rewrite Hx, Hmid. done.
  - destruct (is_alnum x) eqn:Ha; [| done].
    intros [= <- <-]. split; [done |]. exists EmptyString, x. done.
Qed.

Lemma longest_tail_none s mid d post :
  longest_tail s = None ->
  s = mid +:+ String d post -> str_all is_pathchar mid = true ->
  is_alnum d = false.
Proof.
  revert mid. induction s as [|x s IH]; intros mid; simpl.
  - destruct mid; done.
  - destruct (is_pathchar x) eqn:Hx.
    + destruct (longest_tail s) as [[m' r'] |] eqn:Ht; [done |].
      destruct (is_alnum x) eqn:Ha; [done |]. intros _.
      destruct mid as [|y mid]; simpl.
      * by intros [= <- _].
      * intros [= <- ->] [_ Hmid]%andb_prop. by eapply IH.
    + intros _. destruct mid as [|y mid]; simpl.
      * intros [= <- _] _. destruct (is_alnum x) eqn:Ha; [| done].
        by rewrite (alnum_is_pathchar _ Ha) in Hx.
      * intros [= <- ->] [Hy _]%andb_prop. congruence.
Qed.

Lemma matchAll_from_skip m r :
  matchAll_from (String.length m) (m +:+ r) = matchAll_from 0 r.
Proof. induction m as [|c m IH]; simpl; [by destruct r | done]. Qed.

(** A first match is a token standing at the head of the scanned text. *)
Lemma matchAll_path_cons c rest m r :
  is_alpha c = true -> longest_tail rest = Some (m, r) ->
  matchAll_path (String c rest) = String c m :: matchAll_path r /\
  path_token (String c m) /\ rest = m +:+ r.
Proof.
  intros Hc Ht. unfold matchAll_path. simpl. rewrite Hc, Ht.
  destruct (longest_tail_sound _ _ _ Ht) as (-> & mid & d & -> & Hmid & Hd).
  rewrite matchAll_from_skip. split_and!; [done | | done].
  exists c, mid, d. done.
Qed.

(** The scan finds nothing exactly when no substring is a token. *)
Lemma matchAll_path_nil s :
  matchAll_path s = [] <-> (forall t, path_token t -> ~ occurs_in t s).
Proof.
  induction s as [|c s IH].
  - split; [| done]. intros _ t (c & mid & d & -> & _) (pre & post & Heq).
    destruct pre; done.
  - destruct (is_alpha c) eqn:Hc.
    + destruct (longest_tail s) as [[m r] |] eqn:Ht.
      * destruct (matchAll_path_cons _ _ _ _ Hc Ht) as (-> & Htok & ->).
        split; [done |]. intros Hno. exfalso. apply (Hno _ Htok).
        by exists EmptyString, r.
      * assert (matchAll_path (String c s) = matchAll_path s) as ->.
        { unfold matchAll_path. simpl. by rewrite Hc, Ht. }
        rewrite IH. split.
        -- intros Hno t Htok (pre & post & Heq).
           destruct pre as [|x pre]; simpl in Heq.
           ++ destruct Htok as (c' & mid & d & -> & _ & Hmid & Hd).
              simpl in Heq. injection Heq as <- ->.
              rewrite append_assoc in Ht. simpl in Ht.
              by rewrite (longest_tail_none _ _ _ _ Ht eq_refl Hmid) in Hd.
           ++ injection Heq as <- ->. apply (Hno _ Htok). by exists pre, post.
        -- intros Hno t Htok (pre & post & ->). apply (Hno _ Htok).
           by exists (String c pre), post.
    + assert (matchAll_path (String c s) = matchAll_path s) as ->.
      { unfold matchAll_path. simpl. by rewrite Hc. }
      rewrite IH. split.
      * intros Hno t Htok (pre & post & Heq).
        destruct pre as [|x pre]; simpl in Heq.
        -- destruct Htok as (c' & mid & d & -> & Hc' & _).
           simpl in Heq. injection Heq as <- _. congruence.
        -- injection Heq as <- ->. apply (Hno _ Htok). by exists pre, post.
      * intros Hno t Htok (pre & post & ->). apply (Hno _ Htok).
        by exists (String c pre), post.
Qed.

(** The last match is a token of the text after which the scan finds
    nothing more. *)
Lemma matchAll_from_last skip s p :
  last (matchAll_from skip s) = Some p ->
  exists pre post,
    s = pre +:+ p +:+ post /\ path_token p /\ matchAll_path post = [].
Proof.
  revert skip. induction s as [|c s IH]; intros skip; simpl; [done |].
  assert (forall k, last (matchAll_from k s) = Some p ->
    exists pre post,
      String c s = pre +:+ p +:+ post /\ path_token p /\ matchAll_path post = [])
    as Hrest.
  { intros k Hk. destruct (IH _ Hk) as (pre & post & -> & Htok & Hnil).
    by exists (String c pre), post. }
  destruct skip as [|k]; [| by apply Hrest].
  destruct (is_alpha c) eqn:Hc; [| by apply Hrest].
  destruct (longest_tail s) as [[m r] |] eqn:Ht; [| by apply Hrest].
  destruct (matchAll_from (String.length m) s) as [|q qs] eqn:Hq.
  - intros [= <-]. destruct (matchAll_path_cons _ _ _ _ Hc Ht) as (_ & Htok & ->).
    exists EmptyString, r. split_and!; [done | done |].
    by rewrite matchAll_from_skip in Hq.
  - intros Hl. apply (Hrest (String.length m)). rewrite Hq.
    by rewrite last_cons_cons in Hl.
Qed.

(** C10. A line that holds a valid [@]-prefixed 64-hex-digit hash yields
    no entry unless a path-like token (a letter, then letters, digits,
    [_ - . /], closed by a letter or digit) stands before the hash; when
    there are such tokens, the entry's path is the last one matched: a
    token of the text before the hash with no further token after it. *)
Theorem extractPathAndHash_takes_last_token_before_hash (line : string) :
  (exists pre h post, hash_token h /\ line = pre +:+ String "@" (h +:+ post)) ->
  exists hashPos hashValue rest,
    match_hash line = Some (hashPos, hashValue) /\
    hash_token hashValue /\
    line = substring 0 hashPos line +:+ String "@" (hashValue +:+ rest) /\
    ((forall t, path_token t -> ~ occurs_in t (substring 0 hashPos line)) ->
       extractPathAndHash line = None) /\
    ((exists t, path_token t /\ occurs_in t (substring 0 hashPos line)) ->
       exists p before after,
         extractPathAndHash line = Some (p, hashValue) /\
         last (matchAll_path (substring 0 hashPos line)) = Some p /\
         substring 0 hashPos line = before +:+ p +:+ after /\
         path_token p /\
         (forall t, path_token t -> ~ occurs_in t after)).
Proof.
  intros (pre & h & post & Hh & ->).
  destruct (match_hash_complete pre h post Hh) as [[hashPos hashValue] Hm].
  destruct (match_hash_sound _ _ _ Hm) as (Htok & rest & Hline & _).
  exists hashPos, hashValue, rest. split_and!; [done | done | done | |].
  - intros Hno. unfold extractPathAndHash. rewrite Hm.
    by rewrite (proj2 (matchAll_path_nil _) Hno).
  - intros (t & Ht & Hocc). unfold extractPathAndHash. rewrite Hm.
    destruct (last (matchAll_path (substring 0 hashPos
      (pre +:+ String "@" (h +:+ post))))) as [p |] eqn:Hlast.
    + destruct (matchAll_from_last _ _ _ Hlast) as (b & a & Hsplit & Hp & Hnil).
      exists p, b, a. split_and!; [done | done | done | done |].
      by apply matchAll_path_nil.
    + apply last_None in Hlast.
      by destruct (proj1 (matchAll_path_nil _) Hlast t Ht).
Qed.

Lemma extractPathAndHash_takes_last_token_before_hash_witness :
  let line := "live2d/chara.bundle v2 sound/bgm001.acb  @" +:+ sample_hash in
  (exists pre h post, hash_token h /\ line = pre +:+ String "@" (h +:+ post)) /\
  extractPathAndHash line = Some ("sound/bgm001.acb", sample_hash).
Proof.
  intros line.
  assert (exists pre h post,
    hash_token h /\ line = pre +:+ String "@" (h +:+ post)) as Hline.
  { exists "live2d/chara.bundle v2 sound/bgm001.acb  ", sample_hash, "".
    split; [split |]; reflexivity. }
  split; [exact Hline |].
  destruct (extractPathAndHash_takes_last_token_before_hash line Hline)
    as (hashPos & hashValue & rest & Hm & _).
  vm_compute in Hm. injection Hm as <- <-. reflexivity.
Defined.

(** *** The order of strings *)

Lemma string_leb_total a b : String.leb a b = true \/ String.leb b a = true.
Proof. apply String.leb_total. Qed.

Lemma string_leb_trans a b c :
  String.leb a b = true -> String.leb b c = true -> String.leb a c = true.
Proof.
  intros Hab%Is_true_true Hbc%Is_true_true. apply Is_true_true.
  change (String.le a c). by etrans.
Qed.

Lemma sorted_strings l :
  StronglySorted String.le (js_sort String.leb l).
Proof.
  eapply StronglySorted_weaken;
    [| apply (js_sort_sorted String.leb string_leb_total string_leb_trans)].
  intros a b Hab. by apply Is_true_true.
Qed.

Lemma parse_lines_NoDup lines : NoDup (map_keys (parse_lines lines)).
Proof.
  unfold parse_lines.
  assert (forall acc, NoDup (map_keys acc) ->
    NoDup (map_keys (foldl read_line acc lines))) as H.
  { induction lines as [|l lines IH]; intros acc Hacc; simpl; [done |].
    apply IH. unfold read_line. destruct (extractPathAndHash l) as [[p h] |]; [| done].
    by apply map_set_NoDup. }
  apply H. constructor.
Qed.

(** *** The diff *)

Lemma diff_maps_new oldMap newMap p :
  p ∈ new_ (diff_maps oldMap newMap) <->
  is_Some (map_get p newMap) /\ map_get p oldMap = None.
Proof.
  unfold diff_maps; simpl. rewrite js_sort_perm, list_elem_of_filter.
  rewrite map_has_false, map_keys_get. tauto.
Qed.

Lemma diff_maps_change oldMap newMap p :
  p ∈ change (diff_maps oldMap newMap) <->
  exists hn ho,
    map_get p newMap = Some hn /\ map_get p oldMap = Some ho /\ hn <> ho.
Proof.
  unfold diff_maps; simpl. rewrite js_sort_perm, list_elem_of_filter.
  rewrite map_has_true, map_keys_get. unfold get_differs.
  rewrite negb_true_iff, bool_decide_eq_false. split.
  - intros [[[ho Ho] Hne] [hn Hn]]. exists hn, ho. split_and!; [done.. |].
    intros ->. congruence.
  - intros (hn & ho & Hn & Ho & Hne). split_and!; [by eexists | | by eexists].
    rewrite Hn, Ho. congruence.
Qed.

(** C1. For two parsed manifests the diff's [new] list holds exactly the
    paths present in the new manifest and absent from the old one, the
    [change] list exactly the paths present in both with different
    hashes; the two lists are disjoint, free of duplicates and sorted
    lexicographically. *)
Theorem compareVersions_diff_correct
    (dir : gmap string (list string)) (olderFile newestFile : string)
    (d : DiffResult) :
  compareVersions dir olderFile newestFile = Ok d ->
  exists oldMap newMap,
    readFileToAssetMap dir olderFile = Ok oldMap /\
    readFileToAssetMap dir newestFile = Ok newMap /\
    (forall p, p ∈ new_ d <->
       is_Some (map_get p newMap) /\ map_get p oldMap = None) /\
    (forall p, p ∈ change d <->
       exists hn ho,
         map_get p newMap = Some hn /\ map_get p oldMap = Some ho /\ hn <> ho) /\
    (forall p, p ∈ new_ d -> p ∉ change d) /\
    NoDup (new_ d) /\ NoDup (change d) /\
    StronglySorted String.le (new_ d) /\ StronglySorted String.le (change d).
Proof.
  unfold compareVersions.
  destruct (readFileToAssetMap dir olderFile) as [oldMap | e] eqn:Hold; [| done].
  destruct (readFileToAssetMap dir newestFile) as [newMap | e] eqn:Hnew; [| done].
  intros [= <-]. exists oldMap, newMap.
  assert (NoDup (map_keys newMap)) as Hnd.
  { unfold readFileToAssetMap in Hnew. destruct (dir !! newestFile); [| done].
    injection Hnew as <-. apply parse_lines_NoDup. }
  split_and!; [done | done | apply diff_maps_new | apply diff_maps_change | ..].
  - intros p [_ Hnone]%diff_maps_new (hn & ho & _ & Hsome & _)%diff_maps_change.
    congruence.
  - unfold diff_maps; simpl. rewrite js_sort_perm. by apply NoDup_filter.
  - unfold diff_maps; simpl. rewrite js_sort_perm. by apply NoDup_filter.
  - apply sorted_strings.
  - apply sorted_strings.
Qed.

Lemma compareVersions_diff_correct_witness :
  compareVersions sample_manifests
    "AssetBundleInfo_1.0.0.1.txt" "AssetBundleInfo_1.0.0.2.txt"
    = Ok (mkDiff ["z.bin"] ["y.bin"]) /\
  NoDup ["z.bin"] /\ ("z.bin" : string) ∉ ["y.bin" : string].
Proof.
  assert (compareVersions sample_manifests
    "AssetBundleInfo_1.0.0.1.txt" "AssetBundleInfo_1.0.0.2.txt"
    = Ok (mkDiff ["z.bin"] ["y.bin"])) as Hrun by (vm_compute; reflexivity).
  destruct (compareVersions_diff_correct _ _ _ _ Hrun)
    as (oldMap & newMap & _ & _ & _ & _ & Hdisj & Hnd & _).
  split; [exact Hrun |]. split; [exact Hnd |].
  apply Hdisj. simpl. apply list_elem_of_singleton. reflexivity.
Defined.

(** C8, as the code has it.  A manifest whose lines yield no entry is
    parsed to the empty map without complaint, and the comparison then
    succeeds: with an empty old manifest every path of the new manifest
    is reported as new and none as changed; with an empty new manifest
    both lists are empty. *)
Theorem compareVersions_accepts_empty_manifest
    (dir : gmap string (list string)) (olderFile newestFile : string)
    (oldLines newLines : list string) :
  dir !! olderFile = Some oldLines ->
  dir !! newestFile = Some newLines ->
  exists d,
    compareVersions dir olderFile newestFile = Ok d /\
    (parse_lines oldLines = [] ->
       new_ d = js_sort String.leb (map_keys (parse_lines newLines)) /\
       change d = []) /\
    (parse_lines newLines = [] -> new_ d = [] /\ change d = []).
Proof.
  intros Hold Hnew. unfold compareVersions, readFileToAssetMap.
  rewrite Hold, Hnew. eexists. split; [done |]. split.
  - intros ->. unfold diff_maps; simpl. split.
    + f_equal. induction (map_keys (parse_lines newLines)) as [|k ks IH]; [done |].
      rewrite filter_cons_True by done. by rewrite IH.
    + induction (map_keys (parse_lines newLines)) as [|k ks IH]; [done |].
      rewrite filter_cons_False; [done |]. by intros [? _].
  - by intros ->.
Qed.

(** No hard error on a manifest without entries: the old manifest has no
    valid line, and the comparison returns a diff. *)
Lemma compareVersions_empty_manifest_is_no_error :
  let dir : gmap string (list string) :=
    <[ "old.txt" := [ "<html>502 Bad Gateway</html>" ] ]>
    (<[ "new.txt" := [ "x.bin @" +:+ hash_a ] ]> ∅) in
  readFileToAssetMap dir "old.txt" = Ok [] /\
  compareVersions dir "old.txt" "new.txt" = Ok (mkDiff ["x.bin"] []) /\
  ~ (exists msg, compareVersions dir "old.txt" "new.txt" = Throw msg).
Proof.
  intros dir. split; [vm_compute; reflexivity |].
  assert (compareVersions dir "old.txt" "new.txt" = Ok (mkDiff ["x.bin"] []))
    as Hrun by (vm_compute; reflexivity).
  split; [exact Hrun |]. intros [msg Hmsg]. congruence.
Qed.

Lemma compareVersions_accepts_empty_manifest_witness :
  let dir : gmap string (list string) :=
    <[ "old.txt" := [ "<html>502 Bad Gateway</html>" ] ]>
    (<[ "new.txt" := [ "x.bin @" +:+ hash_a ] ]> ∅) in
  dir !! "old.txt" = Some [ "<html>502 Bad Gateway</html>" ] /\
  dir !! "new.txt" = Some [ "x.bin @" +:+ hash_a ] /\
  exists d, compareVersions dir "old.txt" "new.txt" = Ok d.
Proof.
  intros dir.
  assert (dir !! "old.txt" = Some [ "<html>502 Bad Gateway</html>" ]) as Hold
    by (vm_compute; reflexivity).
  assert (dir !! "new.txt" = Some [ "x.bin @" +:+ hash_a ]) as Hnew
    by (vm_compute; reflexivity).
  split; [exact Hold |]. split; [exact Hnew |].
  destruct (compareVersions_accepts_empty_manifest dir _ _ _ _ Hold Hnew)
    as (d & Hd & _).
  exists d. exact Hd.
Defined.

End CompareFacts.

(** * Facts about the path functions *)
Module PathFacts.
Import Path.

Lemma split_slash_nonempty s : split_slash s <> [].
Proof.
  destruct s as [|c s]; simpl; [done |].
  destruct (Ascii.eqb c "/"); [done |]. by destruct (split_slash s).
Qed.

Lemma split_slash_app a b :
  split_slash (a +:+ String "/" b) = split_slash a ++ split_slash b.
Proof.
  induction a as [|c a IH]; simpl; [done |].
  destruct (Ascii.eqb c "/"); [by rewrite IH |].
  rewrite IH. pose proof (split_slash_nonempty a).
  by destruct (split_slash a).
Qed.

Lemma split_slash_no_sep s : Forall (fun seg => no_sep seg = true) (split_slash s).
Proof.
  induction s as [|c s IH]; simpl; [by repeat constructor |].
  destruct (Ascii.eqb c "/") eqn:Hc; [by constructor |].
  destruct (split_slash s) as [|seg segs].
  { constructor; [simpl; by rewrite Hc | constructor]. }
  inversion IH as [|? ? Hseg Hsegs]; subst. constructor; [| done].
  simpl. by rewrite Hc.
Qed.

Lemma norm_step_plain allow res seg :
  plain seg -> norm_step allow res seg = seg :: res.
Proof.
  intros (H1 & H2 & H3). unfold norm_step.
  apply String.eqb_neq in H1, H2, H3. by rewrite H1, H2, H3.
Qed.

Lemma norm_step_skip allow res seg :
  seg = "" \/ seg = "." -> norm_step allow res seg = res.
Proof. by intros [-> | ->]. Qed.

Lemma seg_cases seg : seg = "" \/ seg = "." \/ seg = ".." \/ plain seg.
Proof.
  destruct (decide (seg = "")); [by left |].
  destruct (decide (seg = ".")); [by right; left |].
  destruct (decide (seg = "..")); [by right; right; left |].
  by right; right; right.
Qed.

(** Segments free of [..] only ever add to what is kept. *)
Lemma foldl_norm_step_grows allow segs st :
  ".." ∉ segs ->
  exists pushed,
    foldl (norm_step allow) st segs = pushed ++ st /\ ".." ∉ pushed.
Proof.
  revert st. induction segs as [|seg segs IH]; intros st Hno; simpl.
  - exists []. split; [done | apply not_elem_of_nil].
  - apply not_elem_of_cons in Hno as [Hseg Hno].
    destruct (seg_cases seg) as [He | [He | [He | Hp]]]; [| | done |].
    + rewrite norm_step_skip by auto. by apply IH.
    + rewrite norm_step_skip by auto. by apply IH.
    + rewrite norm_step_plain by done.
      destruct (IH (seg :: st) Hno) as (pushed & -> & Hpushed).
      exists (pushed ++ [seg]). rewrite <- app_assoc. split; [done |].
      rewrite elem_of_app, list_elem_of_singleton. intros [? | ?]; [done | congruence].
Qed.

Lemma foldl_norm_step_normal allow segs st :
  Forall (fun seg => no_sep seg = true) segs ->
  normal allow (reverse st) -> normal allow (reverse (foldl (norm_step allow) st segs)).
Proof.
  revert st. induction segs as [|seg segs IH]; intros st Hsegs Hst; simpl; [done |].
  inversion Hsegs as [|? ? Hseg Hsegs']; subst. apply IH; [done |].
  destruct (seg_cases seg) as [He | [He | [-> | Hp]]].
  - by rewrite norm_step_skip by auto.
  - by rewrite norm_step_skip by auto.
  - destruct Hst as (n & tops & Hrev & Htops & Hallow).
    destruct tops as [|t tops' _] using rev_ind.
    + rewrite app_nil_r in Hrev.
      assert (st = replicate n "..") as ->.
      { rewrite <- (reverse_involutive st), Hrev. apply reverse_replicate. }
      unfold norm_step; simpl. destruct n as [|n]; simpl.
      * destruct allow.
        -- exists 1, []. split_and!; [done | constructor | done].
        -- exists 0, []. split_and!; [done | constructor | done].
      * destruct allow.
        -- exists (S (S n)), []. rewrite app_nil_r. split_and!; [| constructor | done].
           change (reverse (replicate (S (S n)) "..") = replicate (S (S n)) "..").
           apply reverse_replicate.
        -- by specialize (Hallow eq_refl).
    + assert (st = t :: reverse (replicate n ".." ++ tops')) as ->.
      { rewrite <- (reverse_involutive st), Hrev, app_assoc, reverse_snoc. done. }
      apply Forall_app in Htops as [Htops' Ht].
      inversion Ht as [|? ? [(_ & _ & Ht3) _] _]; subst.
      unfold norm_step; simpl. apply String.eqb_neq in Ht3. rewrite Ht3.
      rewrite reverse_involutive. by exists n, tops'.
  - rewrite norm_step_plain by done.
    destruct Hst as (n & tops & Hrev' & Htops & Hallow).
    exists n, (tops ++ [seg]). rewrite reverse_cons, Hrev', app_assoc.
    split_and!; [done | | done].
    apply Forall_app. split; [done |]. by apply Forall_singleton.
Qed.

Lemma normalizeString_normal p allow : normal allow (normalizeString p allow).
Proof.
  unfold normalizeString. apply foldl_norm_step_normal.
  - apply split_slash_no_sep.
  - exists 0, []. split_and!; [done | constructor | done].
Qed.

Lemma normal_no_sep allow segs :
  normal allow segs -> Forall (fun seg => seg <> "" /\ no_sep seg = true) segs.
Proof.
  intros (n & tops & -> & Htops & _). apply Forall_app. split.
  - apply Forall_replicate. done.
  - eapply Forall_impl; [exact Htops |]. intros seg [(? & _) ?]. done.
Qed.

Lemma split_slash_segment seg : no_sep seg = true -> split_slash seg = [seg].
Proof.
  induction seg as [|c seg IH]; simpl; [done |].
  intros [Hc Hseg]%andb_prop. apply negb_true_iff in Hc. rewrite Hc.
  by rewrite (IH Hseg).
Qed.

Lemma split_slash_join segs :
  segs <> [] -> Forall (fun seg => no_sep seg = true) segs ->
  split_slash (join_segments segs) = segs.
Proof.
  unfold join_segments. induction segs as [|x segs IH]; [done |]. intros _ Hall.
  inversion Hall as [|? ? Hx Hsegs]; subst.
  destruct segs as [|y segs].
  - by apply split_slash_segment.
  - change (String.concat "/" (x :: y :: segs))
      with (x +:+ String "/" (String.concat "/" (y :: segs))).
    rewrite split_slash_app, split_slash_segment by done.
    rewrite IH by done. done.
Qed.

Lemma join_segments_head x segs :
  exists tail, join_segments (x :: segs) = x +:+ tail.
Proof.
  unfold join_segments. destruct segs as [|y segs]; simpl.
  - exists "". by rewrite SharedFacts.append_nil_r.
  - by eexists.
Qed.

Lemma join_segments_empty allow segs :
  normal allow segs -> join_segments segs = "" -> segs = [].
Proof.
  intros Hn%normal_no_sep Hj. destruct segs as [|x segs]; [done |].
  inversion Hn as [|? ? [Hx _] _]; subst.
  destruct (join_segments_head x segs) as [tail Ht]. rewrite Ht in Hj.
  destruct x; done.
Qed.

Lemma join_segments_relative allow segs :
  normal allow segs -> isAbsolute (join_segments segs) = false.
Proof.
  intros Hn%normal_no_sep. destruct segs as [|x segs]; [done |].
  inversion Hn as [|? ? [Hx Hsep] _]; subst.
  destruct (join_segments_head x segs) as [tail ->].
  destruct x as [|c x]; [done |]. simpl in *.
  apply andb_prop in Hsep as [Hc _]. by apply negb_true_iff in Hc.
Qed.

Lemma foldl_norm_step_plain allow tops st :
  Forall (fun seg => plain seg /\ no_sep seg = true) tops ->
  foldl (norm_step allow) st tops = reverse tops ++ st.
Proof.
  revert st. induction tops as [|t tops IH]; intros st Hall; simpl; [done |].
  inversion Hall as [|? ? [Ht _] Htops]; subst.
  rewrite norm_step_plain, IH by done.
  by rewrite reverse_cons, <- app_assoc.
Qed.

Lemma foldl_norm_step_dotdot n st :
  st = [] \/ (exists st', st = ".." :: st') ->
  foldl (norm_step true) st (replicate n "..") = replicate n ".." ++ st.
Proof.
  revert st. induction n as [|n IH]; intros st Hst; simpl; [done |].
  assert (norm_step true st ".." = ".." :: st) as ->.
  { by destruct Hst as [-> | (st' & ->)]. }
  rewrite IH by eauto. change (".." :: st) with ([".."] ++ st).
  rewrite app_assoc. f_equal. by rewrite <- replicate_S_end.
Qed.

(** Normalising again changes nothing. *)
Lemma foldl_norm_step_fixed allow segs :
  normal allow segs -> foldl (norm_step allow) [] segs = reverse segs.
Proof.
  intros (n & tops & -> & Htops & Hallow).
  rewrite foldl_app, reverse_app, reverse_replicate.
  destruct allow.
  - rewrite foldl_norm_step_dotdot by auto. rewrite app_nil_r.
    by apply foldl_norm_step_plain.
  - rewrite (Hallow eq_refl). simpl.
    by apply foldl_norm_step_plain.
Qed.

(** [path.normalize] keeps the segments and the kind of a path. *)
Lemma normalize_segments p :
  p <> "" ->
  isAbsolute (normalize p) = isAbsolute p /\ segments (normalize p) = segments p.
Proof.
  intros Hp. unfold normalize. apply String.eqb_neq in Hp. rewrite Hp.
  pose proof (normalizeString_normal p (negb (isAbsolute p))) as Hn.
  unfold segments at 2. set (segs := normalizeString p (negb (isAbsolute p))) in *.
  destruct (String.eqb_spec (join_segments segs) "") as [He | Hne].
  - rewrite (join_segments_empty _ _ Hn He).
    destruct (isAbsolute p); [done |]. by destruct (trailingSeparator p).
  - assert (segs <> []) as Hsegs by (intros ->; done).
    pose proof (normal_no_sep _ _ Hn) as Hsep.
    assert (Forall (fun seg => no_sep seg = true) segs) as Hsep'.
    { eapply Forall_impl; [exact Hsep |]. by intros seg [_ ?]. }
    pose proof (split_slash_join segs Hsegs Hsep') as Hsplit.
    pose proof (join_segments_relative _ _ Hn) as Hrel.
    assert (split_slash (join_segments segs +:+ "/") = segs ++ [""]) as Hsplit'.
    { change (join_segments segs +:+ "/")
        with (join_segments segs +:+ String "/" "").
      by rewrite split_slash_app, Hsplit. }
    assert (isAbsolute (join_segments segs +:+ "/") = false) as Hrel'.
    { destruct (join_segments segs); done. }
    unfold segments, normalizeString.
    destruct (isAbsolute p) eqn:Habs, (trailingSeparator p); simpl.
    + split; [done |]. rewrite Hsplit'.
      rewrite foldl_app, foldl_norm_step_fixed by done. simpl.
      rewrite norm_step_skip by auto. by rewrite reverse_involutive.
    + split; [done |]. rewrite Hsplit.
      rewrite foldl_norm_step_fixed by done. by rewrite reverse_involutive.
    + rewrite Hrel'. split; [done |]. simpl. rewrite Hsplit'.
      rewrite foldl_app, foldl_norm_step_fixed by done. simpl.
      rewrite norm_step_skip by auto. by rewrite reverse_involutive.
    + rewrite Hrel. split; [done |]. simpl. rewrite Hsplit.
      rewrite foldl_norm_step_fixed by done. by rewrite reverse_involutive.
Qed.

End PathFacts.

(** * Facts about src/getAssets.ts *)
Module GetAssetsFacts.
Import Path PathFacts GetAssets.

(** ** Where a download lands *)

Lemma isAbsolute_app root tail :
  root <> "" -> isAbsolute (root +:+ tail) = isAbsolute root.
Proof. by destruct root. Qed.

Lemma join_inside root clean :
  root <> "" -> ".." ∉ split_slash clean -> inside root (join root clean).
Proof.
  intros Hroot Hclean. unfold join.
  destruct (String.eqb_spec root "") as [? | _]; [done |].
  destruct (String.eqb_spec clean "") as [-> | Hne].
  - destruct (normalize_segments root Hroot) as [Habs Hsegs].
    split; [done |]. exists []. rewrite app_nil_r. split; [done |].
    apply not_elem_of_nil.
  - assert (root +:+ "/" +:+ clean <> "") as Hp by (by destruct root).
    destruct (normalize_segments _ Hp) as [Habs Hsegs].
    split; [by rewrite Habs, isAbsolute_app |].
    rewrite Hsegs. unfold segments, normalizeString.
    rewrite isAbsolute_app by done.
    change (root +:+ "/" +:+ clean) with (root +:+ String "/" clean).
    rewrite split_slash_app, foldl_app.
    destruct (foldl_norm_step_grows (negb (isAbsolute root)) (split_slash clean)
      (foldl (norm_step (negb (isAbsolute root))) [] (split_slash root)) Hclean)
      as (pushed & -> & Hpushed).
    exists (reverse pushed). rewrite reverse_app. split; [done |].
    by rewrite elem_of_reverse.
Qed.

Lemma cleanPath_segments assetPath :
  ".." ∉ split_slash assetPath -> ".." ∉ split_slash (cleanPath assetPath).
Proof.
  destruct assetPath as [|c rest]; [done |]. unfold cleanPath.
  destruct (Ascii.eqb c "/") eqn:Hc; [| done].
  simpl. rewrite Hc. by intros [_ ?]%not_elem_of_cons.
Qed.

(** ** The retry loop *)

Lemma exists_at_emit e w p : exists_at (emit e w) p = exists_at w p.
Proof. done. Qed.

Lemma exists_at_false w p : exists_at w p = false -> files w !! p = None.
Proof.
  unfold exists_at. intros [Hf _]%orb_false_iff.
  apply bool_decide_eq_false in Hf. by apply eq_None_not_Some.
Qed.

Lemma exists_at_file w p data : files w !! p = Some data -> exists_at w p = true.
Proof.
  intros Hp. unfold exists_at. apply orb_true_iff. left.
  apply bool_decide_eq_true. by eexists.
Qed.



(** What stands at the destination after a row of passes. *)
Lemma foldl_dest_after_none before l :
  (forall a, a ∈ l -> dest_after None a = None) ->
  foldl dest_after before l = before.
Proof.
  revert before. induction l as [|a l IH]; intros before Hl; [done |].
  simpl. rewrite IH by (intros b Hb; by apply Hl, list_elem_of_further).
  specialize (Hl a (list_elem_of_here _ _)).
  by destruct a.
Qed.

Lemma foldl_dest_after_last before l1 a l2 data :
  dest_after None a = Some data ->
  (forall b, b ∈ l2 -> dest_after None b = None) ->
  foldl dest_after before (l1 ++ a :: l2) = Some data.
Proof.
  intros Ha Hl2. rewrite foldl_app. simpl.
  rewrite foldl_dest_after_none by done.
  by destruct a.
Qed.

Section loop.
Context (env : environment) (retries : nat) (cleanPath url savePath : string).

Lemma attempts_done fuel attempt backoff w :
  ~ attempt < retries ->
  attempts env retries cleanPath url savePath fuel attempt backoff w =
    (emit (EvLog (LogGaveUp cleanPath)) w, Settles false).
Proof.
  intros Hge. destruct fuel as [|fuel]; simpl;
    by destruct (Nat.ltb_spec attempt retries); [lia |].
Qed.

(** One turn of the loop. *)
Lemma attempts_step fuel attempt backoff w :
  attempt < retries ->
  attempts env retries cleanPath url savePath (S fuel) attempt backoff w =
    let a := env url (S attempt) in
    let w1 := attempt_world cleanPath url savePath (S attempt) a w in
    if is_retryable a then
      if S attempt <? retries then
        attempts env retries cleanPath url savePath fuel (S attempt) (backoff * 2)
          (emit (EvSleep (backoff * 1000)) w1)
      else (emit (EvLog (LogGaveUp cleanPath)) w1, Settles false)
    else (w1, last_result a).
Proof.
  intros Hlt. simpl. destruct (Nat.ltb_spec attempt retries) as [_ | ?]; [| lia].
  simpl. unfold attempt_world.
  destruct (env url (S attempt)) as [made | st | | | written | written | body];
    simpl; try done.
  - destruct (Nat.ltb_spec (S attempt) retries); [done |].
    by rewrite attempts_done by lia.
  - destruct (terminal_status st); simpl; [done |].
    destruct (Nat.ltb_spec (S attempt) retries); [done |].
    by rewrite attempts_done by lia.
  - destruct (Nat.ltb_spec (S attempt) retries); [done |].
    by rewrite attempts_done by lia.
  - destruct (Nat.ltb_spec (S attempt) retries); [done |].
    by rewrite attempts_done by lia.
  - destruct (Nat.ltb_spec (S attempt) retries); [done |].
    by rewrite attempts_done by lia.
Qed.

Lemma attempt_world_trace k a w :
  exists new,
    trace (attempt_world cleanPath url savePath k a w) = trace w ++ new /\
    attempts_made new = 1 /\ sleeps new = [] /\
    (forall f, f ∈ opened new -> f = savePath).
Proof.
  unfold attempt_world. destruct a; simpl; rewrite <- ?app_assoc; simpl;
    eexists; (split; [reflexivity |]); (split; [reflexivity |]);
    (split; [reflexivity |]); simpl; intros f Hf;
    try (by apply elem_of_nil in Hf);
    by apply list_elem_of_singleton in Hf.
Qed.

Lemma attempt_world_files k a w p :
  p <> savePath ->
  files (attempt_world cleanPath url savePath k a w) !! p = files w !! p.
Proof.
  intros Hp. unfold attempt_world. destruct a; simpl; try done;
    by rewrite lookup_insert_ne.
Qed.

Lemma attempt_world_dest k a w :
  files (attempt_world cleanPath url savePath k a w) !! savePath =
    dest_after (files w !! savePath) a.
Proof.
  unfold attempt_world. destruct a; simpl; try done;
    by rewrite lookup_insert_eq.
Qed.

Lemma attempts_made_app a b :
  attempts_made (a ++ b) = attempts_made a + attempts_made b.
Proof. unfold attempts_made. by rewrite omap_app, length_app. Qed.

Lemma sleeps_app a b : sleeps (a ++ b) = sleeps a ++ sleeps b.
Proof. apply omap_app. Qed.

Lemma opened_app a b : opened (a ++ b) = opened a ++ opened b.
Proof. apply omap_app. Qed.

Lemma backoff_doubles backoff k :
  (fun i => backoff * 2 ^ Z.of_nat i * 1000)%Z <$> seq 0 (S k) =
  (backoff * 1000)%Z ::
    ((fun i => backoff * 2 * 2 ^ Z.of_nat i * 1000)%Z <$> seq 0 k).
Proof.
  simpl. f_equal; [lia |]. rewrite <- fmap_S_seq, <- list_fmap_compose.
  apply list_fmap_ext. intros _ i _. simpl.
  rewrite Nat2Z.inj_succ, Z.pow_succ_r by lia. lia.
Qed.

Lemma attempts_post fuel attempt backoff w :
  attempt < retries -> retries <= attempt + fuel ->
  loop_post env retries url savePath attempt backoff w
    (attempts env retries cleanPath url savePath fuel attempt backoff w).1
    (attempts env retries cleanPath url savePath fuel attempt backoff w).2.
Proof.
  revert attempt backoff w.
  induction fuel as [|fuel IH]; intros attempt backoff w Hlt Hfuel; [lia |].
  rewrite attempts_step by done. cbv zeta.
  set (a := env url (S attempt)).
  assert (env url (S attempt) = a) as Ha by done. clearbody a.
  destruct (attempt_world_trace (S attempt) a w)
    as (new1 & Htr1 & Hmade1 & Hsl1 & Hop1).
  pose proof (attempt_world_files (S attempt) a w) as Hfiles1.
  pose proof (attempt_world_dest (S attempt) a w) as Hdest1.
  set (w1 := attempt_world cleanPath url savePath (S attempt) a w) in *.
  clearbody w1.
  (* a run that ends with this pass, with or without the closing line *)
  assert (forall r logs,
    (is_retryable a = true -> S attempt = retries) ->
    r = last_result a ->
    attempts_made logs = 0 -> sleeps logs = [] -> opened logs = [] ->
    loop_post env retries url savePath attempt backoff w
      (mkWorld (files w1) (dirs w1) (trace w1 ++ logs)) r) as Hone.
  { intros r logs Hretry Hr Hl1 Hl2 Hl3. exists 1, (new1 ++ logs).
    replace (attempt + 1) with (S attempt) by lia. rewrite Ha. simpl.
    split_and!.
    - by rewrite Htr1, <- app_assoc.
    - by rewrite attempts_made_app, Hmade1, Hl1.
    - lia.
    - lia.
    - by rewrite sleeps_app, Hsl1, Hl2.
    - intros f. rewrite opened_app, Hl3, app_nil_r. apply Hop1.
    - intros; lia.
    - done.
    - done.
    - done.
    - by rewrite Ha. }
  assert (mkWorld (files w1) (dirs w1) (trace w1 ++ []) = w1) as Hw1.
  { destruct w1. simpl. by rewrite app_nil_r. }
  destruct (is_retryable a) eqn:Hretry.
  - destruct (Nat.ltb_spec (S attempt) retries) as [Hmore | Hlast].
    + specialize (IH (S attempt) (backoff * 2)%Z
        (emit (EvSleep (backoff * 1000)) w1) Hmore ltac:(lia)).
      destruct (attempts env retries cleanPath url savePath fuel (S attempt)
        (backoff * 2) (emit (EvSleep (backoff * 1000)) w1)) as [w' r].
      unfold emit in IH. simpl in *.
      destruct IH as (n & new & Htr & Hmade & Hn & Hle & Hsl & Hop & Hmid &
        Hre & Hr & Hfiles & Hdest).
      exists (S n), (new1 ++ [EvSleep (backoff * 1000)] ++ new).
      replace (attempt + S n) with (S attempt + n) by lia.
      split_and!.
      * rewrite Htr. simpl. rewrite Htr1. by rewrite <- !app_assoc.
      * rewrite !attempts_made_app, Hmade1, Hmade. done.
      * lia.
      * lia.
      * rewrite !sleeps_app, Hsl1, Hsl. simpl.
        replace (n - 0) with (S (n - 1)) by lia. by rewrite backoff_doubles.
      * intros f. rewrite !opened_app, !elem_of_app. simpl.
        intros [? | [[]%elem_of_nil | ?]]; auto.
      * intros i Hi. destruct (decide (i = S attempt)) as [-> | Hne].
        -- by rewrite Ha.
        -- apply Hmid. lia.
      * done.
      * done.
      * intros p Hp. rewrite Hfiles by done. simpl. by apply Hfiles1.
      * rewrite Hdest. simpl. by rewrite Ha, Hdest1.
    + simpl. unfold emit. apply Hone; [| | done..].
      * intros _. lia.
      * by destruct a.
  - simpl. specialize (Hone (last_result a) []).
    rewrite Hw1 in Hone. by apply Hone.
Qed.
End loop.

Lemma downloadFile_with_unfold env retries backoff0 baseUrl saveRoot assetPath w :
  exists_at w (savePath_of saveRoot assetPath) = false ->
  downloadFile_with env retries backoff0 baseUrl saveRoot assetPath w =
  attempts env retries (cleanPath assetPath) (baseUrl +:+ cleanPath assetPath)
    (savePath_of saveRoot assetPath) retries 0 backoff0 w.
Proof. unfold downloadFile_with, savePath_of. by intros ->. Qed.

(** The passes of a run as a list: the first [i - 1], the [i]-th, the
    rest. *)
Lemma seq_split_at (i n : nat) :
  1 <= i <= n -> seq 1 n = seq 1 (i - 1) ++ i :: seq (S i) (n - i).
Proof.
  intros Hi. replace n with ((i - 1) + S (n - i)) at 1 by lia.
  rewrite seq_app. by replace (1 + (i - 1)) with i by lia.
Qed.


(** C2, as the code has it.  The write stream is opened on the destination
    path itself: there is no temporary path and no rename.  A successful
    download leaves the whole body at the destination.  Otherwise no file
    is at the destination as long as no attempt got as far as writing,
    and else the destination holds what the last attempt that wrote put
    there, whether that attempt failed or not. *)
Theorem downloadFile_writes_in_place
    (env : environment) (retries : nat) (backoff0 : Z)
    (baseUrl saveRoot assetPath : string) (w : world) :
  0 < retries ->
  exists_at w (savePath_of saveRoot assetPath) = false ->
  let url := baseUrl +:+ cleanPath assetPath in
  let dest := savePath_of saveRoot assetPath in
  let run := downloadFile_with env retries backoff0 baseUrl saveRoot assetPath w in
  exists n new,
    trace run.1 = trace w ++ new /\
    attempts_made new = n /\ 1 <= n <= retries /\
    (forall f, f ∈ opened new -> f = dest) /\
    (forall p, p <> dest -> files run.1 !! p = files w !! p) /\
    (run.2 = Settles true ->
       exists body, env url n = Received body /\ files run.1 !! dest = Some body) /\
    (run.2 = Settles false ->
       (forall i data, 1 <= i <= n -> env url i <> WriteFails data) ->
       files run.1 !! dest = None) /\
    ((forall i, 1 <= i <= n ->
        match env url i with
        | WriteFails _ | StreamFails _ | Received _ => False
        | MkdirFails _ | HttpError _ | NoResponse | OpenFails => True
        end) ->
     files run.1 !! dest = None) /\
    (forall i data,
       1 <= i <= n ->
       env url i = WriteFails data \/ env url i = StreamFails data \/
         env url i = Received data ->
       (forall j, i < j <= n ->
          match env url j with
          | WriteFails _ | StreamFails _ | Received _ => False
          | MkdirFails _ | HttpError _ | NoResponse | OpenFails => True
          end) ->
       files run.1 !! dest = Some data).
Proof.
  intros Hretries Hnone url dest run. subst run.
  rewrite downloadFile_with_unfold by done. fold url dest.
  destruct (attempts_post env retries (cleanPath assetPath) url dest retries 0
    backoff0 w Hretries ltac:(lia))
    as (n & new & Htr & Hmade & Hn & Hle & _ & Hop & Hmid & _ & Hr &
        Hfiles & Hdest).
  apply exists_at_false in Hnone. fold dest in Hnone.
  rewrite Hnone in Hdest.
  exists n, new. simpl in *.
  split_and!; [done | done | lia | lia | done | done | | | | ].
  - intros Htrue. rewrite Htrue in Hr.
    destruct (env url n) as [| | | | | | body] eqn:Hlast; try done.
    exists body. split; [done |]. rewrite Hdest.
    rewrite (seq_split_at n n) by lia. rewrite fmap_app, fmap_cons, Hlast.
    replace (n - n) with 0 by lia.
    by apply foldl_dest_after_last; [| intros b []%elem_of_nil].
  - intros Hfalse Hnw. rewrite Hdest. apply foldl_dest_after_none.
    intros a (i & -> & Hi%elem_of_seq)%list_elem_of_fmap.
    destruct (decide (i = n)) as [-> | Hne].
    + rewrite Hfalse in Hr.
      destruct (env url n) as [| | | | data | |] eqn:Hlast; try done.
      destruct (Hnw n data); [lia | done].
    + assert (is_retryable (env url i) = true) as Hre by (apply Hmid; lia).
      destruct (env url i) as [| | | | data | |] eqn:Hi'; try done.
      destruct (Hnw i data); [lia | done].
  - intros Hnw. rewrite Hdest. apply foldl_dest_after_none.
    intros a (i & -> & Hi%elem_of_seq)%list_elem_of_fmap.
    specialize (Hnw i ltac:(lia)). by destruct (env url i).
  - intros i data Hi Hwrote Hlater. rewrite Hdest.
    rewrite (seq_split_at i n) by lia. rewrite fmap_app, fmap_cons.
    apply foldl_dest_after_last.
    + by destruct Hwrote as [-> | [-> | ->]].
    + intros b (j & -> & Hj%elem_of_seq)%list_elem_of_fmap.
      specialize (Hlater j ltac:(lia)). by destruct (env url j).
Qed.

(** After a failed download a partial file stands at the final
    destination path, and that path is the one the stream was opened
    on. *)
Lemma downloadFile_leaves_partial_file :
  let run :=
    downloadFile flaky_then_gone "http://cdn/" "/srv/new" "live/a.bundle"
      empty_root in
  run.2 = Settles false /\
  files run.1 !! "/srv/new/live/a.bundle" = Some "PK-partial" /\
  opened (trace run.1) = ["/srv/new/live/a.bundle"].
Proof. vm_compute. done. Qed.

Lemma downloadFile_writes_in_place_witness :
  0 < PER_FILE_RETRIES /\
  exists_at empty_root (savePath_of "/srv/new" "live/a.bundle") = false /\
  files (downloadFile flaky_then_gone "http://cdn/" "/srv/new"
           "live/a.bundle" empty_root).1
    !! savePath_of "/srv/new" "live/a.bundle" = Some "PK-partial".
Proof.
  assert (0 < PER_FILE_RETRIES) as H1 by (unfold PER_FILE_RETRIES; lia).
  assert (exists_at empty_root (savePath_of "/srv/new" "live/a.bundle") = false)
    as H2 by reflexivity.
  split; [exact H1 |]. split; [exact H2 |].
  destruct (downloadFile_writes_in_place flaky_then_gone PER_FILE_RETRIES
    PER_FILE_BACKOFF_SECONDS "http://cdn/" "/srv/new" "live/a.bundle"
    empty_root H1 H2) as (n & new & _ & _ & Hn & _ & _ & _ & _ & _ & Hlast).
  apply (Hlast 1 "PK-partial").
  - lia.
  - by left.
  - intros [|[|j]] Hj; [lia | lia | exact I].
Defined.



(** The retry policy on the source's constants: three attempts in all,
    waits of one and two seconds. *)
Example downloadFile_three_attempts :
  let run :=
    downloadFile always_timeout "http://cdn/" "/srv/new" "live/a.bundle"
      empty_root in
  run.2 = Settles false /\ attempts_made (trace run.1) = 3 /\
  sleeps (trace run.1) = [1000; 2000]%Z.
Proof. vm_compute. done. Qed.

Example downloadFile_404_no_retry :
  let run :=
    downloadFile (fun _ _ => HttpError 404) "http://cdn/" "/srv/new"
      "live/a.bundle" empty_root in
  run.2 = Settles false /\ attempts_made (trace run.1) = 1 /\
  sleeps (trace run.1) = [].
Proof. vm_compute. done. Qed.

(** A download changes no file but its destination. *)
Lemma downloadFile_other_files env baseUrl saveRoot assetPath w p :
  p <> savePath_of saveRoot assetPath ->
  files (downloadFile env baseUrl saveRoot assetPath w).1 !! p = files w !! p.
Proof.
  intros Hp. unfold downloadFile, downloadFile_with.
  fold (savePath_of saveRoot assetPath).
  destruct (exists_at w (savePath_of saveRoot assetPath)) eqn:Hdest; [done |].
  destruct (attempts_post env PER_FILE_RETRIES (cleanPath assetPath)
    (baseUrl +:+ cleanPath assetPath)
    (savePath_of saveRoot assetPath) PER_FILE_RETRIES 0
    PER_FILE_BACKOFF_SECONDS w ltac:(unfold PER_FILE_RETRIES; lia) ltac:(lia))
    as (n & new & _ & _ & _ & _ & _ & _ & _ & _ & _ & Hfiles & _).
  by apply Hfiles.
Qed.

(** A batch changes no file but the destinations of its tasks: whatever
    the outcome of the downloads, nothing else is written. *)
Lemma run_tasks_with_other_files env slots ts w p :
  (forall t, t ∈ ts -> p <> savePath_of (t_saveRoot t) (t_assetPath t)) ->
  files (run_tasks_with env slots ts w).1 !! p = files w !! p.
Proof.
  revert slots w. induction ts as [|t ts IH]; intros slots w Hp; [done |].
  destruct slots as [|slots']; [done |]. cbn [run_tasks_with].
  pose proof (downloadFile_other_files env (t_baseUrl t) (t_saveRoot t)
    (t_assetPath t) w p (Hp t (list_elem_of_here _ _))) as Hone.
  destruct (downloadFile env (t_baseUrl t) (t_saveRoot t) (t_assetPath t) w)
    as [w1 r]. simpl in Hone.
  pose proof (fun slots1 => IH slots1 w1
    (fun t' Ht' => Hp t' (list_elem_of_further _ _ _ Ht'))) as Hrest.
  destruct r as [ok |].
  - specialize (Hrest (S slots')).
    destruct (run_tasks_with env (S slots') ts w1) as [w2 rs].
    simpl in *. congruence.
  - specialize (Hrest slots').
    destruct (run_tasks_with env slots' ts w1) as [w2 rs].
    simpl in *. congruence.
Qed.

Lemma run_tasks_other_files env ts w p :
  (forall t, t ∈ ts -> p <> savePath_of (t_saveRoot t) (t_assetPath t)) ->
  files (run_tasks env ts w).1 !! p = files w !! p.
Proof. apply run_tasks_with_other_files. Qed.

Lemma downloadDiffAssets_other_files env baseUrlNew baseUrlOld newRoot d w p :
  (forall t, t ∈ make_tasks baseUrlNew baseUrlOld newRoot d ->
     p <> savePath_of (t_saveRoot t) (t_assetPath t)) ->
  files (downloadDiffAssets env baseUrlNew baseUrlOld newRoot d w).1 !! p
    = files w !! p.
Proof.
  intros Hp. unfold downloadDiffAssets. cbv zeta.
  pose proof (run_tasks_other_files env _
    (emit (EvLog (LogStart (length (dj_new d)) (length (dj_change d) * 2))) w)
    p Hp) as Hrun.
  destruct (run_tasks env (make_tasks baseUrlNew baseUrlOld newRoot d) _)
    as [w' results].
  by destruct (promise_all results).
Qed.

(** C9, as the code has it.  The destination is the root joined with the
    identifier minus one leading slash.  It lies inside the root whenever
    no segment of the identifier is [..], and the download touches no
    other file. *)
Theorem savePath_inside_root_without_dotdot
    (env : environment) (baseUrl saveRoot assetPath : string) (w : world) :
  saveRoot <> "" ->
  ".." ∉ split_slash assetPath ->
  inside saveRoot (savePath_of saveRoot assetPath) /\
  (forall p, p <> savePath_of saveRoot assetPath ->
     files (downloadFile env baseUrl saveRoot assetPath w).1 !! p = files w !! p).
Proof.
  intros Hroot Hsegs. split.
  - apply join_inside; [done |]. by apply cleanPath_segments.
  - intros p Hp. by apply downloadFile_other_files.
Qed.

Lemma savePath_inside_root_without_dotdot_witness :
  (("/srv/analysing/9.3.0.180/new" : string) <> "") /\
  (".." ∉ split_slash "live2d/chara/001.bundle") /\
  inside "/srv/analysing/9.3.0.180/new"
    (savePath_of "/srv/analysing/9.3.0.180/new" "live2d/chara/001.bundle").
Proof.
  assert (("/srv/analysing/9.3.0.180/new" : string) <> "") as H1 by discriminate.
  assert (".." ∉ split_slash "live2d/chara/001.bundle") as H2.
  { apply (bool_decide_unpack _). by vm_compute. }
  split; [exact H1 |]. split; [exact H2 |].
  exact (proj1 (savePath_inside_root_without_dotdot always_timeout "http://cdn/"
    "/srv/analysing/9.3.0.180/new" "live2d/chara/001.bundle" (mkWorld ∅ ∅ []) H1 H2)).
Defined.

(** An identifier that climbs with [..] resolves outside the root, and
    the download writes there. *)
Lemma savePath_escapes_root :
  let run :=
    downloadFile (fun _ _ => Received "0 * * * * root sh") "http://cdn/"
      "/srv/analysing/9.3.0.180/new" "../../../../etc/cron.d/job"
      (mkWorld ∅ ∅ []) in
  savePath_of "/srv/analysing/9.3.0.180/new" "../../../../etc/cron.d/job"
    = "/etc/cron.d/job" /\
  ~ inside "/srv/analysing/9.3.0.180/new" "/etc/cron.d/job" /\
  run.2 = Settles true /\
  files run.1 !! "/etc/cron.d/job" = Some "0 * * * * root sh".
Proof.
  split; [by vm_compute |]. split.
  - intros [_ (rest & Hsegs & _)]. vm_compute in Hsegs. discriminate.
  - by vm_compute.
Qed.

(** C7 at a batch with one permanent failure.  The run returns normally,
    so a failed download is not fatal to the run.  But the booleans of
    the tasks are dropped: the call returns nothing and no file records
    the failed identifier, which appears in one printed line only; the
    earlier entry point collected these identifiers and wrote them to a
    file. *)
Theorem downloadDiffAssets_drops_failures :
  let gone : environment := fun _ _ => HttpError 404 in
  let d := mkDiffJson ["x.bin"] [] in
  let w0 := mkWorld ∅ version_dirs [] in
  let tasks := make_tasks "http://new/" "http://old/" "/srv/analysing/1.0.0.2" d in
  let started := emit (EvLog (LogStart 1 0)) w0 in
  (run_tasks gone tasks started).2 = [Settles false] /\
  match promise_all (run_tasks gone tasks started).2 with
  | Settles results =>
      failedPaths ["x.bin"] results = ["x.bin"] /\
      files (report_failed "/srv/compare" "1.0.0.2" ["x.bin"] results w0)
        !! "/srv/compare/failed_downloads_1.0.0.2.txt" = Some ("x.bin" +:+ newline)
  | NeverSettles => False
  end /\
  downloadDiffAssets gone "http://new/" "http://old/" "/srv/analysing/1.0.0.2" d w0
    = (mkWorld ∅ version_dirs
         [EvLog (LogStart 1 0);
          EvMkdir "/srv/analysing/1.0.0.2/new"; EvGet "http://new/x.bin";
          EvLog (LogNoRetry "x.bin" 404);
          EvLog LogFinished], Settles tt).
Proof. vm_compute. done. Qed.

End GetAssetsFacts.

(** * Facts about src/mergeBytes.ts *)
Module MergeBytesFacts.
Import SharedFacts MergeBytes.

Lemma sort_parts_perm parts : sort_parts parts ≡ₚ parts.
Proof. apply js_sort_perm. Qed.


Lemma concat_parts_ext fs fs' parts :
  (forall p, p ∈ parts -> fs' !! filepath p = fs !! filepath p) ->
  concat_parts fs' parts = concat_parts fs parts.
Proof.
  induction parts as [|p parts IH]; intros Hext; simpl; [done |].
  rewrite Hext by apply list_elem_of_here.
  rewrite IH; [done |]. intros q Hq. apply Hext. by apply list_elem_of_further.
Qed.

Lemma concat_parts_app fs pre post :
  concat_parts fs (pre ++ post) = concat_parts fs pre +:+ concat_parts fs post.
Proof.
  induction pre as [|p pre IH]; simpl; [done |].
  by rewrite IH, append_assoc.
Qed.

(** Streaming readable parts appends their bytes, in the order given. *)
Lemma pipeNext_ok parts out w acc :
  (forall p, p ∈ parts -> is_Some (files w !! filepath p)) ->
  (forall p, p ∈ parts -> filepath p <> out) ->
  files w !! out = Some acc ->
  pipeNext parts out w =
    (mkWorld (<[out := acc +:+ concat_parts (files w) parts]> (files w))
       (ops w ++ ((fun p => OpPipe (filepath p) out) <$> parts) ++ [OpEnd out]),
     Ok tt).
Proof.
  revert w acc. induction parts as [|p parts IH]; intros w acc Hread Hne Hout.
  - simpl. rewrite append_nil_r. unfold did. f_equal. f_equal.
    by rewrite insert_id.
  - simpl. destruct (Hread p) as [data Hdata]; [apply list_elem_of_here |].
    rewrite Hdata, Hout. simpl.
    assert (filepath p <> out) as Hp by (apply Hne, list_elem_of_here).
    assert (concat_parts (<[out := acc +:+ data]> (files w)) parts
            = concat_parts (files w) parts) as Hext.
    { apply concat_parts_ext. intros q Hq. rewrite lookup_insert_ne; [done |].
      intros Heq. by apply (Hne q); [apply list_elem_of_further |]. }
    rewrite (IH _ (acc +:+ data)); simpl.
    + by rewrite Hext, insert_insert_eq, append_assoc, <- app_assoc.
    + intros q Hq. rewrite lookup_insert_ne.
      * apply Hread. by apply list_elem_of_further.
      * intros Heq. by apply (Hne q); [apply list_elem_of_further |].
    + intros q Hq. apply Hne. by apply list_elem_of_further.
    + by rewrite lookup_insert_eq.
Qed.

(** Streaming stops at the first part that cannot be read; what was
    written before stays in the output file. *)
Lemma pipeNext_fails pre bad post out w acc :
  (forall p, p ∈ pre -> is_Some (files w !! filepath p)) ->
  (forall p, p ∈ pre -> filepath p <> out) ->
  files w !! filepath bad = None ->
  files w !! out = Some acc ->
  exists msg,
    pipeNext (pre ++ bad :: post) out w =
      (mkWorld (<[out := acc +:+ concat_parts (files w) pre]> (files w))
         (ops w ++ ((fun p => OpPipe (filepath p) out) <$> pre)),
       Throw msg).
Proof.
  revert w acc. induction pre as [|p pre IH]; intros w acc Hread Hne Hbad Hout.
  - simpl. rewrite Hbad, append_nil_r, app_nil_r. eexists.
    f_equal. destruct w as [fs os]; simpl in *. f_equal. by rewrite insert_id.
  - simpl. destruct (Hread p) as [data Hdata]; [apply list_elem_of_here |].
    rewrite Hdata, Hout. simpl.
    assert (filepath p <> out) as Hp by (apply Hne, list_elem_of_here).
    assert (filepath bad <> out) as Hb by (intros Heq; congruence).
    destruct (IH (did (OpPipe (filepath p) out) (set_file out (acc +:+ data) w))
      (acc +:+ data)) as [msg Hmsg]; simpl.
    + intros q Hq. rewrite lookup_insert_ne.
      * apply Hread. by apply list_elem_of_further.
      * intros Heq. by apply (Hne q); [apply list_elem_of_further |].
    + intros q Hq. apply Hne. by apply list_elem_of_further.
    + by rewrite lookup_insert_ne.
    + by rewrite lookup_insert_eq.
    + exists msg. rewrite Hmsg. simpl.
      rewrite (concat_parts_ext (files w)).
      * by rewrite insert_insert_eq, append_assoc, <- app_assoc.
      * intros q Hq. rewrite lookup_insert_ne; [done |].
        intros Heq. by apply (Hne q); [apply list_elem_of_further |].
Qed.








(** C3, as the code has it.  When a member of a streamed group cannot be
    read, the merge fails with the read error and reads no further
    member; the output file is neither closed nor removed, and holds the
    bytes of the members before the failing one.  No source is deleted. *)
Theorem merge_group_read_failure_keeps_partial_output
    (outputDir : string) (deleteSource : bool) (mapKey : string)
    (parts pre post : list part) (bad : part) (w : world) :
  1 < length parts ->
  sort_parts parts = pre ++ bad :: post ->
  (forall p, p ∈ pre -> is_Some (files w !! filepath p)) ->
  (forall p, p ∈ pre -> filepath p <> Path.join outputDir mapKey) ->
  files w !! filepath bad = None ->
  filepath bad <> Path.join outputDir mapKey ->
  let out := Path.join outputDir mapKey in
  let run := merge_group outputDir deleteSource mapKey parts w in
  (exists msg, run.2 = Throw msg) /\
  files run.1 !! out = Some (concat_parts (files w) pre) /\
  (forall f, f <> out -> files run.1 !! f = files w !! f) /\
  ops run.1 =
    ops w ++ OpOpenWrite out :: ((fun p => OpPipe (filepath p) out) <$> pre).
Proof.
  intros Hlen Hs Hread Hout Hbad Hbadout out run. subst run.
  unfold merge_group. fold out. rewrite Hs.
  assert (1 < length (pre ++ bad :: post)) as Hlen'.
  { by rewrite <- Hs, (Permutation_length (sort_parts_perm parts)). }
  destruct (pre ++ bad :: post) as [|first others] eqn:Hsplit;
    [by destruct pre |].
  assert ((1 <? length (first :: others)) || negb (index first =? 0)%N = true)
    as ->.
  { apply orb_true_iff. left. by apply Nat.ltb_lt. }
  rewrite <- Hsplit.
  destruct (pipeNext_fails pre bad post out
    (set_file out "" (did (OpOpenWrite out) w)) "") as [msg ->]; simpl.
  - intros p Hp. rewrite lookup_insert_ne; [by apply Hread |].
    symmetry. by apply Hout.
  - done.
  - by rewrite lookup_insert_ne.
  - by rewrite lookup_insert_eq.
  - split_and!.
    + by exists msg.
    + rewrite lookup_insert_eq. f_equal. apply concat_parts_ext.
      intros p Hp. rewrite lookup_insert_ne; [done |]. symmetry. by apply Hout.
    + intros f Hf. by rewrite !lookup_insert_ne.
    + by rewrite <- app_assoc.
Qed.



(** The reassembly scenario of the design document, run through the whole
    function: segments 2, 0, 1 holding [B], [A] and nothing. *)
Example mergeBytesFiles_orders_segments :
  let run :=
    mergeBytesFiles ["in/s-2.txt.bytes"; "in/s.txt.bytes"; "in/s-1.txt.bytes"]
      "out" false (mkWorld three_files []) in
  run.2 = Ok tt /\ files run.1 !! "out/s.txt" = Some "AB".
Proof. by vm_compute. Qed.

(** Segment 1 cannot be read: the merge is rejected, and the output file
    stays at its destination holding segment 0 only. *)
Lemma mergeBytesFiles_leaves_truncated_output :
  let run :=
    mergeBytesFiles ["in/s-2.txt.bytes"; "in/s.txt.bytes"; "in/s-1.txt.bytes"]
      "out" false (mkWorld two_files []) in
  run.2 = Throw "ENOENT: no such file or directory, open in/s-1.txt.bytes" /\
  files run.1 !! "out/s.txt" = Some "A" /\
  ops run.1 =
    [OpMkdir "out"; OpOpenWrite "out/s.txt"; OpPipe "in/s.txt.bytes" "out/s.txt"].
Proof. by vm_compute. Qed.

Lemma merge_group_read_failure_keeps_partial_output_witness :
  1 < length three_parts /\
  sort_parts three_parts =
    [mkPart 0 "in/s.txt.bytes"] ++ mkPart 1 "in/s-1.txt.bytes"
      :: [mkPart 2 "in/s-2.txt.bytes"] /\
  two_files !! "in/s-1.txt.bytes" = None /\
  files (merge_group "out" false "s.txt" three_parts (mkWorld two_files [])).1
    !! Path.join "out" "s.txt"
  = Some (concat_parts two_files [mkPart 0 "in/s.txt.bytes"]).
Proof.
  assert (1 < length three_parts) as H1 by (simpl; lia).
  assert (sort_parts three_parts =
    [mkPart 0 "in/s.txt.bytes"] ++ mkPart 1 "in/s-1.txt.bytes"
      :: [mkPart 2 "in/s-2.txt.bytes"]) as H2 by reflexivity.
  assert (two_files !! "in/s-1.txt.bytes" = None) as H3 by reflexivity.
  split; [exact H1 |]. split; [exact H2 |]. split; [exact H3 |].
  assert (forall p, p ∈ [mkPart 0 "in/s.txt.bytes"] ->
    is_Some (two_files !! filepath p)) as H4.
  { intros p ->%list_elem_of_singleton. by eexists. }
  assert (forall p, p ∈ [mkPart 0 "in/s.txt.bytes"] ->
    filepath p <> Path.join "out" "s.txt") as H5.
  { intros p ->%list_elem_of_singleton. by vm_compute. }
  destruct (merge_group_read_failure_keeps_partial_output "out" false "s.txt"
    three_parts _ _ _ (mkWorld two_files []) H1 H2 H4 H5 H3
    ltac:(by vm_compute)) as (_ & Hout & _).
  exact Hout.
Defined.

End MergeBytesFacts.

(** * Facts about src/removeUnchangedFiles.ts *)
Module RemoveUnchangedFacts.
Import SharedFacts RemoveUnchanged.

Section tasks.
Context (md5 : string -> string).

Lemma readFile_free p w data :
  busy w !! p = None -> lookup_path p (root w) = Some (File data) ->
  readFile p w = (w, Ok data).
Proof. intros Hb Hl. unfold readFile, take_busy. by rewrite Hb, Hl. Qed.

Lemma hashFile_free p w data :
  busy w !! p = None -> lookup_path p (root w) = Some (File data) ->
  hashFile md5 p w = (w, Ok (md5 data)).
Proof.
  intros Hb Hl. unfold hashFile. simpl. by rewrite (readFile_free p w data).
Qed.

Lemma safeDelete_free p w data :
  busy w !! p = None -> lookup_path p (root w) = Some (File data) ->
  safeDelete p 5 w = (mkWorld (set_path p None (root w)) (busy w), Ok tt).
Proof. intros Hb Hl. simpl. unfold unlink, take_busy. by rewrite Hb, Hl. Qed.

(** A candidate file without a counterpart is left alone. *)
Lemma compare_task_only_in_candidate relativeMap change newPath w :
  map_get (relative change newPath) relativeMap = None ->
  compare_task md5 relativeMap change newPath w = (w, Ok tt).
Proof. intros Hget. unfold compare_task. by rewrite Hget. Qed.

(** Equal hashes: the candidate file is deleted. *)
Lemma compare_task_equal relativeMap change newPath oldPath w oldData newData :
  map_get (relative change newPath) relativeMap = Some oldPath ->
  busy w !! oldPath = None -> busy w !! newPath = None ->
  lookup_path oldPath (root w) = Some (File oldData) ->
  lookup_path newPath (root w) = Some (File newData) ->
  md5 oldData = md5 newData ->
  compare_task md5 relativeMap change newPath w =
    (mkWorld (set_path newPath None (root w)) (busy w), Ok tt).
Proof.
  intros Hget Hbo Hbn Hlo Hln Hhash. unfold compare_task. rewrite Hget.
  rewrite (hashFile_free oldPath w oldData), (hashFile_free newPath w newData)
    by done.
  rewrite Hhash, String.eqb_refl. by apply safeDelete_free with newData.
Qed.

(** Different hashes: the candidate file is kept. *)
Lemma compare_task_differs relativeMap change newPath oldPath w oldData newData :
  map_get (relative change newPath) relativeMap = Some oldPath ->
  busy w !! oldPath = None -> busy w !! newPath = None ->
  lookup_path oldPath (root w) = Some (File oldData) ->
  lookup_path newPath (root w) = Some (File newData) ->
  md5 oldData <> md5 newData ->
  compare_task md5 relativeMap change newPath w = (w, Ok tt).
Proof.
  intros Hget Hbo Hbn Hlo Hln Hhash. unfold compare_task. rewrite Hget.
  rewrite (hashFile_free oldPath w oldData), (hashFile_free newPath w newData)
    by done.
  by apply String.eqb_neq in Hhash as ->.
Qed.

(** The listing variant decides in the same way and records only the
    files whose hashes differ. *)
Lemma compare_task_listing_only_in_candidate relativeMap change newPath acc w :
  map_get (relative change newPath) relativeMap = None ->
  compare_task_listing md5 relativeMap change newPath acc w = (w, Ok acc).
Proof. intros Hget. unfold compare_task_listing. by rewrite Hget. Qed.

Lemma compare_task_listing_equal relativeMap change newPath oldPath acc w
    oldData newData :
  map_get (relative change newPath) relativeMap = Some oldPath ->
  busy w !! oldPath = None -> busy w !! newPath = None ->
  lookup_path oldPath (root w) = Some (File oldData) ->
  lookup_path newPath (root w) = Some (File newData) ->
  md5 oldData = md5 newData ->
  compare_task_listing md5 relativeMap change newPath acc w =
    (mkWorld (set_path newPath None (root w)) (busy w), Ok acc).
Proof.
  intros Hget Hbo Hbn Hlo Hln Hhash. unfold compare_task_listing. rewrite Hget.
  rewrite (hashFile_free oldPath w oldData), (hashFile_free newPath w newData)
    by done.
  rewrite Hhash, String.eqb_refl.
  by rewrite (safeDelete_free newPath w newData).
Qed.

Lemma compare_task_listing_differs relativeMap change newPath oldPath acc w
    oldData newData :
  map_get (relative change newPath) relativeMap = Some oldPath ->
  busy w !! oldPath = None -> busy w !! newPath = None ->
  lookup_path oldPath (root w) = Some (File oldData) ->
  lookup_path newPath (root w) = Some (File newData) ->
  md5 oldData <> md5 newData ->
  compare_task_listing md5 relativeMap change newPath acc w =
    (w, Ok (acc ++ [newPath])).
Proof.
  intros Hget Hbo Hbn Hlo Hln Hhash. unfold compare_task_listing. rewrite Hget.
  rewrite (hashFile_free oldPath w oldData), (hashFile_free newPath w newData)
    by done.
  by apply String.eqb_neq in Hhash as ->.
Qed.
End tasks.

(** C4 at these trees.  The file with equal hashes is deleted, the
    differing one and the one the reference tree lacks are kept.  But the
    function of src/removeUnchangedFiles.ts returns nothing, and its
    other source returns a list that names the differing file only: the
    retained file the reference tree lacks is recorded by neither. *)
Theorem removeUnchangedFiles_records_no_new_path (md5 : string -> string) :
  md5 "v1" <> md5 "v2" ->
  removeUnchangedFiles md5 ["change_old"] ["change"] (mkWorld two_trees ∅)
    = (mkWorld two_trees_reconciled ∅, Ok tt) /\
  removeUnchangedFiles_listing md5 ["change_old"] ["change"] (mkWorld two_trees ∅)
    = (mkWorld two_trees_reconciled ∅, Ok [["change"; "diff.txt"]]) /\
  lookup_path ["change"; "same.txt"] two_trees_reconciled = None /\
  lookup_path ["change"; "diff.txt"] two_trees_reconciled = Some (File "v2") /\
  lookup_path ["change"; "new.txt"] two_trees_reconciled = Some (File "n") /\
  ["change"; "new.txt"] ∉ [["change"; "diff.txt"]].
Proof.
  intros Hne.
  assert (walkDir ["change_old"] (mkWorld two_trees ∅)
    = Ok [["change_old"; "same.txt"]; ["change_old"; "diff.txt"]]) as Hold
    by reflexivity.
  assert (walkDir ["change"] (mkWorld two_trees ∅)
    = Ok [["change"; "same.txt"]; ["change"; "diff.txt"]; ["change"; "new.txt"]])
    as Hnew by reflexivity.
  set (relativeMap := [("same.txt", ["change_old"; "same.txt"]);
                       ("diff.txt", ["change_old"; "diff.txt"])]).
  set (w1 := mkWorld (set_path ["change"; "same.txt"] None two_trees) ∅).
  split_and!.
  - unfold removeUnchangedFiles. rewrite Hold, Hnew.
    change (build_relativeMap _ _) with relativeMap. cbn [run_tasks].
    rewrite (compare_task_equal md5 relativeMap ["change"] ["change"; "same.txt"]
      ["change_old"; "same.txt"] _ "s" "s") by reflexivity.
    change (mkWorld _ _) with w1 at 1.
    rewrite (compare_task_differs md5 relativeMap ["change"] ["change"; "diff.txt"]
      ["change_old"; "diff.txt"] w1 "v1" "v2") by (reflexivity || done).
    rewrite (compare_task_only_in_candidate md5 relativeMap ["change"]
      ["change"; "new.txt"] w1) by reflexivity.
    reflexivity.
  - unfold removeUnchangedFiles_listing. rewrite Hold, Hnew.
    change (build_relativeMap _ _) with relativeMap. cbn [run_tasks_listing].
    rewrite (compare_task_listing_equal md5 relativeMap ["change"]
      ["change"; "same.txt"] ["change_old"; "same.txt"] [] _ "s" "s")
      by reflexivity.
    change (mkWorld _ _) with w1 at 1.
    rewrite (compare_task_listing_differs md5 relativeMap ["change"]
      ["change"; "diff.txt"] ["change_old"; "diff.txt"] [] w1 "v1" "v2")
      by (reflexivity || done).
    rewrite (compare_task_listing_only_in_candidate md5 relativeMap ["change"]
      ["change"; "new.txt"] _ w1) by reflexivity.
    reflexivity.
  - reflexivity.
  - reflexivity.
  - reflexivity.
  - apply (bool_decide_unpack _). by vm_compute.
Qed.

Lemma removeUnchangedFiles_records_no_new_path_witness :
  (fun s : string => s) "v1" <> (fun s : string => s) "v2" /\
  removeUnchangedFiles (fun s => s) ["change_old"] ["change"] (mkWorld two_trees ∅)
    = (mkWorld two_trees_reconciled ∅, Ok tt).
Proof.
  assert ((fun s : string => s) "v1" <> (fun s : string => s) "v2") as H
    by discriminate.
  split; [exact H |].
  exact (proj1 (removeUnchangedFiles_records_no_new_path (fun s => s) H)).
Defined.

End RemoveUnchangedFacts.

(** * Facts about the string methods and the version pattern *)
Module ScanFacts.
Import SharedFacts.

(** Both sides of an equation between concatenations in one form. *)
Ltac str_norm := repeat first [rewrite !append_assoc | progress simpl].

(** A closed decidable proposition, by running its decision procedure. *)
Ltac by_decide := apply (bool_decide_unpack _); vm_compute; exact I.

Lemma expect_spec lit s r : expect lit s = Some r <-> s = lit +:+ r.
Proof.
  revert s. induction lit as [|c lit IH]; intros s; simpl.
  - split; congruence.
  - destruct s as [|d s]; [split; congruence |].
    destruct (Ascii.eqb_spec c d) as [-> | Hne].
    + rewrite IH. split; congruence.
    + split; congruence.
Qed.

Lemma expect_app lit r : expect lit (lit +:+ r) = Some r.
Proof. by apply expect_spec. Qed.

Lemma ends_with_spec suf s : ends_with suf s = true <-> exists pre, s = pre +:+ suf.
Proof.
  induction s as [|c s IH]; cbn [ends_with].
  - rewrite orb_false_r. destruct suf as [|d suf]; simpl.
    + split; [intros _; by exists "" | done].
    + split; [done |]. intros [pre Hpre]. destruct pre; simplify_eq/=.
  - rewrite orb_true_iff, IH. split.
    + intros [->%String.eqb_eq | [pre ->]]; [by exists "" | by exists (String c pre)].
    + intros [[|d pre] Hpre]; simpl in Hpre.
      * left. by apply String.eqb_eq.
      * right. exists pre. congruence.
Qed.

Lemma str_all_app P a b : str_all P (a +:+ b) = str_all P a && str_all P b.
Proof. induction a as [|c a IH]; simpl; [done |]. by rewrite IH, andb_assoc. Qed.

Lemma take_digits_spec s ds r :
  take_digits s = (ds, r) <->
  s = ds +:+ r /\ str_all is_digit ds = true /\ no_digit_ahead r.
Proof.
  revert ds r. induction s as [|c s IH]; intros ds r; simpl.
  - split.
    + by intros [= <- <-].
    + intros (Hs & _ & _). destruct ds; [| done]. simpl in Hs. by subst.
  - destruct (is_digit c) eqn:Hc.
    + destruct (take_digits s) as [ds' r'] eqn:Ht.
      pose proof (proj1 (IH ds' r') eq_refl) as (-> & Hall & Hno).
      split.
      * intros [= <- <-]. simpl. by rewrite Hc.
      * intros (Hs & Hds & Hr). destruct ds as [|d ds]; simpl in Hs.
        { subst r. simpl in Hr. congruence. }
        injection Hs as <- Hs. simpl in Hds. rewrite Hc in Hds.
        assert ((ds', r') = (ds, r)) as [= -> ->] by (by apply IH).
        done.
    + split.
      * intros [= <- <-]. by simpl.
      * intros (Hs & Hds & Hr). destruct ds as [|d ds]; simpl in Hs.
        { by subst. }
        injection Hs as <- Hs. simpl in Hds. by rewrite Hc in Hds.
Qed.

Lemma digits1_spec s ds r :
  digits1 s = Some (ds, r) <-> s = ds +:+ r /\ digit_run ds /\ no_digit_ahead r.
Proof.
  unfold digits1, digit_run. destruct (take_digits s) as [ds' r'] eqn:Ht.
  apply take_digits_spec in Ht as (-> & Hall & Hno). split.
  - destruct ds'; [done |]. by intros [= <- <-].
  - intros (Hs & [Hne Hds] & Hr).
    assert (take_digits (ds' +:+ r') = (ds, r)) as Heq by by apply take_digits_spec.
    assert (take_digits (ds' +:+ r') = (ds', r')) as Heq' by by apply take_digits_spec.
    assert (ds' = ds /\ r' = r) as [-> ->] by (split; congruence).
    by destruct ds.
Qed.

Lemma digits1_app ds r :
  digit_run ds -> no_digit_ahead r -> digits1 (ds +:+ r) = Some (ds, r).
Proof. intros. by apply digits1_spec. Qed.

Lemma no_digit_ahead_dot r : no_digit_ahead ("." +:+ r).
Proof. done. Qed.

Lemma scan_version_spec s v r :
  scan_version s = Some (v, r) <-> s = v +:+ r /\ version_text v /\ no_digit_ahead r.
Proof.
  unfold scan_version, version_text. split.
  - intros H.
    apply bind_Some in H as ([a s1] & H1 & H).
    apply bind_Some in H as (s2 & H2 & H).
    apply bind_Some in H as ([b s3] & H3 & H).
    apply bind_Some in H as (s4 & H4 & H).
    apply bind_Some in H as ([c s5] & H5 & H).
    apply bind_Some in H as (s6 & H6 & H).
    apply bind_Some in H as ([d s7] & H7 & H).
    injection H as <- <-.
    apply digits1_spec in H1 as (-> & Ha & _), H3 as (-> & Hb & _),
      H5 as (-> & Hc & _), H7 as (-> & Hd & Hr).
    apply expect_spec in H2 as ->, H4 as ->, H6 as ->.
    split_and!; [| by exists a, b, c, d | done].
    by str_norm.
  - intros (-> & (a & b & c & d & -> & Ha & Hb & Hc & Hd) & Hr).
    str_norm.
    do 3 (rewrite digits1_app by done; simpl).
    rewrite digits1_app by done. simpl. by str_norm.
Qed.

Lemma scan_version_whole v : version_text v -> scan_version v = Some (v, "").
Proof.
  intros Hv. apply scan_version_spec. by rewrite append_nil_r.
Qed.

(** The parts of a version text. *)
Lemma split_on_no_sep sep s :
  str_all (fun c => negb (Ascii.eqb c sep)) s = true -> split_on sep s = [s].
Proof.
  induction s as [|c s IH]; simpl; [done |].
  intros [Hc Hs]%andb_true_iff. apply negb_true_iff in Hc. rewrite Hc.
  by rewrite IH.
Qed.

Lemma split_on_app sep a b :
  str_all (fun c => negb (Ascii.eqb c sep)) a = true ->
  split_on sep (a +:+ String sep b) = a :: split_on sep b.
Proof.
  induction a as [|c a IH]; simpl.
  - intros _. by rewrite Ascii.eqb_refl.
  - intros [Hc Ha]%andb_true_iff. apply negb_true_iff in Hc. rewrite Hc.
    by rewrite IH.
Qed.

Lemma digits_no_dot ds :
  str_all is_digit ds = true ->
  str_all (fun c => negb (Ascii.eqb c ".")) ds = true.
Proof.
  induction ds as [|c ds IH]; simpl; [done |].
  intros [Hc Hds]%andb_true_iff. rewrite IH by done. rewrite andb_true_r.
  apply negb_true_iff. destruct (Ascii.eqb_spec c ".") as [-> | ?]; [| done].
  by vm_compute in Hc.
Qed.

Lemma version_text_split v :
  version_text v ->
  exists a b c d,
    v = a +:+ "." +:+ b +:+ "." +:+ c +:+ "." +:+ d /\
    split_on "." v = [a; b; c; d] /\
    digit_run a /\ digit_run b /\ digit_run c /\ digit_run d.
Proof.
  intros (a & b & c & d & -> & Ha & Hb & Hc & Hd). exists a, b, c, d.
  split_and!; try done.
  str_norm.
  rewrite split_on_app by (apply digits_no_dot, Ha).
  rewrite split_on_app by (apply digits_no_dot, Hb).
  rewrite split_on_app by (apply digits_no_dot, Hc).
  by rewrite split_on_no_sep by (apply digits_no_dot, Hd).
Qed.

End ScanFacts.

(** * Facts about the choice of versions (src/compare.ts) *)
Module VersionFacts.
Import SharedFacts ScanFacts Compare CompareVersions.

(** ** The sort, for a comparator that is an order on the elements only *)
Section js_sort_on.
Context {A : Type} (le : A -> A -> bool) (P : A -> Prop).
Hypothesis le_total : forall a b, P a -> P b -> le a b = true \/ le b a = true.
Hypothesis le_trans :
  forall a b c, P a -> P b -> P c ->
    le a b = true -> le b c = true -> le a c = true.

Lemma sort_insert_sorted_on x l :
  P x -> Forall P l ->
  StronglySorted (fun a b => le a b = true) l ->
  StronglySorted (fun a b => le a b = true) (sort_insert le x l).
Proof.
  intros Hx HP. induction 1 as [|y l Hl IH Hy]; simpl.
  - repeat constructor.
  - apply Forall_cons in HP as [HPy HPl].
    destruct (le x y) eqn:Hxy.
    + constructor; [by constructor |]. constructor; [done |].
      apply Forall_forall. intros z Hz.
      eapply (le_trans x y z); [done | done | | done |].
      * by eapply Forall_forall in HPl.
      * by eapply Forall_forall in Hy.
    + constructor; [by apply IH |]. rewrite sort_insert_perm.
      constructor; [| done].
      destruct (le_total x y); [done.. | congruence | done].
Qed.

Lemma js_sort_sorted_on l :
  Forall P l -> StronglySorted (fun a b => le a b = true) (js_sort le l).
Proof.
  induction l as [|x l IH]; simpl; [constructor |].
  intros [Hx Hl]%Forall_cons. apply sort_insert_sorted_on; [done | | by apply IH].
  by rewrite js_sort_perm.
Qed.
End js_sort_on.

(** ** [findIndex] *)
Lemma findIndex_Some {A} (P : A -> bool) l i :
  findIndex P l = Some i ->
  exists before x after,
    l = before ++ x :: after /\ length before = i /\ P x = true /\
    Forall (fun y => P y = false) before.
Proof.
  revert i. induction l as [|y l IH]; intros i; simpl; [done |].
  destruct (P y) eqn:Hy.
  - intros [= <-]. by exists [], y, l.
  - intros (j & Hj & ->)%fmap_Some.
    destruct (IH _ Hj) as (before' & x & after & -> & <- & Hx & Hb).
    exists (y :: before'), x, after. split_and!; [done.. |]. by constructor.
Qed.

Lemma findIndex_None {A} (P : A -> bool) l :
  findIndex P l = None -> Forall (fun y => P y = false) l.
Proof.
  induction l as [|y l IH]; simpl; [constructor |].
  destruct (P y) eqn:Hy; [done |].
  intros Hn%fmap_None. constructor; [done | by apply IH].
Qed.

(** ** The file names *)

(** What a recognised name looks like. *)
Lemma extractVersionFromFilename_inv (name : string) (v : VersionTuple) :
  extractVersionFromFilename name = Some v ->
  name = "AssetBundleInfo_" +:+ baseVer v +:+ ".txt" /\
  version_text (baseVer v) /\ extraNum v = 1%N.
Proof.
  unfold extractVersionFromFilename. intros H.
  apply bind_Some in H as (s1 & H1 & H).
  apply bind_Some in H as ([b s2] & H2 & H).
  destruct (String.eqb_spec s2 ".txt") as [-> | ?]; [| done].
  injection H as <-. simpl.
  apply expect_spec in H1 as ->.
  by apply scan_version_spec in H2 as (-> & Hv & _).
Qed.

(** A version text gives a recognised name. *)
Lemma extractVersionFromFilename_name (b : string) :
  version_text b ->
  extractVersionFromFilename ("AssetBundleInfo_" +:+ b +:+ ".txt")
    = Some (mkVersion b 1).
Proof.
  intros Hv. unfold extractVersionFromFilename. simpl.
  by rewrite (proj2 (scan_version_spec _ b ".txt")).
Qed.

(** X1. [extractVersionFromFilename] recognises exactly the names
    [AssetBundleInfo_<version>.txt] whose version is four runs of digits
    between three dots; the base version is that text and the extra number
    is always 1. *)
Theorem extractVersionFromFilename_spec (name : string) (v : VersionTuple) :
  extractVersionFromFilename name = Some v <->
    name = "AssetBundleInfo_" +:+ baseVer v +:+ ".txt" /\
    version_text (baseVer v) /\ extraNum v = 1%N.
Proof.
  unfold extractVersionFromFilename. split.
  - intros H.
    apply bind_Some in H as (s1 & H1 & H).
    apply bind_Some in H as ([b s2] & H2 & H).
    destruct (String.eqb_spec s2 ".txt") as [-> | ?]; [| done].
    injection H as <-. simpl.
    apply expect_spec in H1 as ->.
    apply scan_version_spec in H2 as (-> & Hv & _). done.
  - destruct v as [b n]. simpl. intros (-> & Hv & ->).
    simpl. rewrite (proj2 (scan_version_spec _ b ".txt")) by done. done.
Qed.

Lemma formatVersion_extracted name v :
  extractVersionFromFilename name = Some v -> formatVersion v = baseVer v.
Proof.
  intros (_ & _ & Hn)%extractVersionFromFilename_inv.
  unfold formatVersion. by rewrite Hn.
Qed.

Lemma versionKey_extracted name v :
  extractVersionFromFilename name = Some v -> length (versionKey v) = 4.
Proof.
  intros (_ & Hv & _)%extractVersionFromFilename_inv.
  destruct (version_text_split _ Hv) as (a & b & c & d & _ & Hs & _).
  unfold versionKey. by rewrite Hs.
Qed.

Lemma extracted_ends_with name v :
  extractVersionFromFilename name = Some v -> ends_with ".txt" name = true.
Proof.
  intros (-> & _ & _)%extractVersionFromFilename_inv.
  apply ends_with_spec. exists ("AssetBundleInfo_" +:+ baseVer v).
  by str_norm.
Qed.

(** What [versionFiles_of] holds for a listed name. *)
Lemma elem_of_versionFiles_of filesInDir f :
  f ∈ versionFiles_of filesInDir <->
    fileName f ∈ filesInDir /\
    extractVersionFromFilename (fileName f) = Some (version f) /\
    vkey f = versionKey (version f) /\
    formattedVersion f = formatVersion (version f).
Proof.
  unfold versionFiles_of. rewrite list_elem_of_omap. split.
  - intros (name & [Hends Hin]%list_elem_of_filter & H).
    apply bind_Some in H as (v & Hv & [= <-]). done.
  - destruct f as [v name k fv]. simpl. intros (Hin & Hv & -> & ->).
    exists name. split.
    + apply list_elem_of_filter. split; [by eapply extracted_ends_with | done].
    + by rewrite Hv.
Qed.

Lemma versionFiles_of_names filesInDir :
  fileName <$> versionFiles_of filesInDir =
  filter (fun name => is_Some (extractVersionFromFilename name)) filesInDir.
Proof.
  unfold versionFiles_of. induction filesInDir as [|name l IH]; [done |].
  destruct (extractVersionFromFilename name) as [v |] eqn:Hv.
  - rewrite (filter_cons_True (fun f => ends_with ".txt" f = true))
      by by eapply extracted_ends_with.
    rewrite (filter_cons_True (fun n => is_Some (extractVersionFromFilename n)))
      by (rewrite Hv; by eexists).
    csimpl. rewrite Hv. csimpl. by rewrite IH.
  - rewrite (filter_cons_False (fun n => is_Some (extractVersionFromFilename n)))
      by (rewrite Hv; by intros [? ?]).
    rewrite filter_cons. destruct (decide (ends_with ".txt" name = true)); [| done].
    csimpl. rewrite Hv. csimpl. done.
Qed.

Lemma versionFiles_of_keys filesInDir :
  Forall (fun f => length (vkey f) = 4) (versionFiles_of filesInDir).
Proof.
  apply Forall_forall. intros f (_ & Hv & -> & _)%elem_of_versionFiles_of.
  by eapply versionKey_extracted.
Qed.

(** ** The comparator *)

Lemma compare_keys_total a b :
  (compare_keys a b <=? 0)%Z = true \/ (compare_keys b a <=? 0)%Z = true.
Proof.
  revert b. induction a as [|x a IH]; intros [|y b]; simpl; try by left.
  rewrite (N.eqb_sym y x). destruct (N.eqb_spec x y) as [-> | Hne]; [apply IH |].
  rewrite !Z.leb_le. lia.
Qed.

Lemma compare_keys_lex a b :
  length a = length b -> (compare_keys a b <= 0)%Z <-> lex_le a b.
Proof.
  revert b. induction a as [|x a IH]; intros [|y b]; simpl; try done.
  intros [= Hlen]. destruct (N.eqb_spec x y) as [-> | Hne].
  - rewrite IH by done. split; [by right | intros [? | [_ ?]]; [lia | done]].
  - split; [intros; left; lia | intros [? | [? _]]; [lia | done]].
Qed.

Lemma compare_keys_trans a b c :
  length a = length b -> length b = length c ->
  (compare_keys a b <=? 0)%Z = true -> (compare_keys b c <=? 0)%Z = true ->
  (compare_keys a c <=? 0)%Z = true.
Proof.
  rewrite !Z.leb_le.
  revert b c. induction a as [|x a IH]; intros [|y b] [|z c]; simpl; try done.
  intros [= Hab] [= Hbc].
  destruct (N.eqb_spec x y) as [-> | Hxy], (N.eqb_spec y z) as [-> | Hyz];
    rewrite ?N.eqb_refl.
  - by eapply IH.
  - destruct (N.eqb_spec y z); [done | lia].
  - destruct (N.eqb_spec x z); [done | lia].
  - destruct (N.eqb_spec x z) as [-> | ?]; lia.
Qed.

Lemma sort_versions_perm l : sort_versions l ≡ₚ l.
Proof. apply js_sort_perm. Qed.

Lemma sort_versions_sorted l :
  Forall (fun f => length (vkey f) = 4) l ->
  StronglySorted key_le (sort_versions l).
Proof.
  intros Hl. eapply StronglySorted_weaken; [| eapply js_sort_sorted_on; [| | exact Hl]].
  - intros a b Hab. by apply Z.leb_le in Hab.
  - intros a b _ _. apply compare_keys_total.
  - intros a b c Ha Hb Hc. apply compare_keys_trans; congruence.
Qed.

Lemma key_le_version_le filesInDir f g :
  f ∈ versionFiles_of filesInDir -> g ∈ versionFiles_of filesInDir ->
  key_le f g <-> version_le (baseVer (version f)) (baseVer (version g)).
Proof.
  intros Hf Hg.
  pose proof (proj1 (Forall_forall _ _) (versionFiles_of_keys filesInDir)) as Hk.
  unfold key_le, version_le. rewrite compare_keys_lex.
  - apply elem_of_versionFiles_of in Hf as (_ & _ & -> & _).
    by apply elem_of_versionFiles_of in Hg as (_ & _ & -> & _).
  - rewrite (Hk f), (Hk g); done.
Qed.

Lemma compare_keys_refl a : compare_keys a a = 0%Z.
Proof. induction a as [|x a IH]; simpl; [done |]. by rewrite N.eqb_refl. Qed.

(** ** The two versions that are compared *)

Lemma select_versions_unfold filesInDir targetVersion :
  2 <= length (versionFiles_of filesInDir) ->
  select_versions filesInDir targetVersion =
    let versionFiles := sort_versions (versionFiles_of filesInDir) in
    let target := default EmptyString targetVersion in
    if String.eqb target "" then
      match reverse versionFiles with
      | newestFile :: olderFile :: _ => Ok (olderFile, newestFile)
      | _ => Throw "TypeError: Cannot read properties of undefined"
      end
    else
      match findIndex (fun v => String.eqb (formattedVersion v) target)
                      versionFiles with
      | None => Throw ("未找到版本 " +:+ target)
      | Some 0 => Throw ("版本 " +:+ target +:+ " 没有更旧版本可比较")
      | Some (S idx) =>
          match versionFiles !! S idx, versionFiles !! idx with
          | Some newestFile, Some olderFile => Ok (olderFile, newestFile)
          | _, _ => Throw "TypeError: Cannot read properties of undefined"
          end
      end.
Proof.
  intros Hlen. unfold select_versions.
  destruct (Nat.ltb_spec (length (versionFiles_of filesInDir)) 2); [lia | done].
Qed.

(** X2. The comparison fails with the "at least two version files" error
    exactly when the directory listing holds fewer than two recognised
    manifest names, whatever the target version and the manifests are. *)
Theorem compareVersions_needs_two_versions
    (filesInDir : list string) (dir : gmap string (list string))
    (targetVersion : option string) :
  compareVersions_in filesInDir dir targetVersion
    = Throw "需要至少两个版本文件才能比较！" <->
  length (filter (fun name => is_Some (extractVersionFromFilename name))
                 filesInDir) < 2.
Proof.
  rewrite <- versionFiles_of_names, length_fmap.
  unfold compareVersions_in. split.
  - intros H.
    destruct (Nat.lt_ge_cases (length (versionFiles_of filesInDir)) 2) as [? | Hge];
      [done | exfalso].
    rewrite select_versions_unfold in H by done. cbv zeta in H.
    destruct (String.eqb _ "").
    + destruct (reverse _) as [|n [|o ?]]; [by vm_compute in H.. |].
      unfold compareVersions, readFileToAssetMap in H.
      destruct (dir !! fileName o); [| by vm_compute in H].
      destruct (dir !! fileName n); [done | by vm_compute in H].
    + destruct (findIndex _ _) as [[|idx] |]; [by vm_compute in H | | by vm_compute in H].
      destruct (_ !! S idx) as [n |]; [| by vm_compute in H].
      destruct (_ !! idx) as [o |]; [| by vm_compute in H].
      unfold compareVersions, readFileToAssetMap in H.
      destruct (dir !! fileName o); [| by vm_compute in H].
      destruct (dir !! fileName n); [done | by vm_compute in H].
  - intros Hlt. unfold select_versions.
    by destruct (Nat.ltb_spec (length (versionFiles_of filesInDir)) 2); [| lia].
Qed.

(** X3. Without a target version (none given, or an empty one) the pair
    that is compared is the last two of the ascending order of the
    recognised files: the newest file has a version no smaller than that of
    any recognised file, and the older one a version no smaller than that
    of any file other than these two.  The version numbers are taken to be
    ones a JavaScript number holds exactly. *)
Theorem select_versions_latest_pair
    (filesInDir : list string) (targetVersion : option string)
    (olderFile newestFile : VersionFile) :
  default EmptyString targetVersion = EmptyString ->
  Forall (fun f => safe_version (baseVer (version f))) (versionFiles_of filesInDir) ->
  select_versions filesInDir targetVersion = Ok (olderFile, newestFile) ->
  exists rest,
    rest ++ [olderFile; newestFile] ≡ₚ versionFiles_of filesInDir /\
    (forall f, f ∈ versionFiles_of filesInDir ->
       version_le (baseVer (version f)) (baseVer (version newestFile))) /\
    (forall f, f ∈ rest ->
       version_le (baseVer (version f)) (baseVer (version olderFile))).
Proof.
  intros Htarget _ H.
  destruct (Nat.lt_ge_cases (length (versionFiles_of filesInDir)) 2) as [Hlt | Hge].
  { unfold select_versions in H.
    by destruct (Nat.ltb_spec (length (versionFiles_of filesInDir)) 2); [| lia]. }
  rewrite select_versions_unfold in H by done. cbv zeta in H.
  rewrite Htarget in H. simpl in H.
  destruct (reverse _) as [|n [|o r]] eqn:Hrev; [done.. |].
  injection H as -> ->.
  apply (f_equal reverse) in Hrev. rewrite reverse_involutive in Hrev.
  rewrite !reverse_cons, <- app_assoc in Hrev. simpl in Hrev.
  pose proof (sort_versions_perm (versionFiles_of filesInDir)) as Hperm.
  pose proof (sort_versions_sorted _ (versionFiles_of_keys filesInDir)) as Hsorted.
  rewrite Hrev in Hperm, Hsorted.
  assert (forall f, f ∈ reverse r ++ [olderFile; newestFile] ->
    f ∈ versionFiles_of filesInDir) as Hin.
  { intros f Hf. by rewrite <- Hperm. }
  exists (reverse r). split_and!; [done | |].
  - intros f Hf. rewrite <- Hperm in Hf.
    apply (key_le_version_le filesInDir); [by rewrite <- Hperm | |].
    { apply Hin, elem_of_app. right. apply elem_of_cons. right. apply list_elem_of_here. }
    change [olderFile; newestFile] with ([olderFile] ++ [newestFile]) in Hf, Hsorted.
    rewrite app_assoc in Hf, Hsorted.
    apply elem_of_app in Hf as [Hf | ->%list_elem_of_singleton].
    + eapply StronglySorted_app_1_elem_of;
        [exact Hsorted | done | apply list_elem_of_here].
    + unfold key_le. by rewrite compare_keys_refl.
  - intros f Hf. apply (key_le_version_le filesInDir).
    { apply Hin, elem_of_app. by left. }
    { apply Hin, elem_of_app. right. apply list_elem_of_here. }
    eapply StronglySorted_app_1_elem_of;
      [exact Hsorted | done | apply list_elem_of_here].
Qed.

Lemma select_versions_latest_pair_witness :
  select_versions sample_listing None
    = Ok (sample_file "9.3.0.180", sample_file "10.0.0.1") /\
  version_le "9.3.0.20" "10.0.0.1" /\ version_le "9.3.0.20" "9.3.0.180".
Proof.
  assert (select_versions sample_listing None
    = Ok (sample_file "9.3.0.180", sample_file "10.0.0.1")) as Hrun
    by (vm_compute; reflexivity).
  assert (Forall (fun f => safe_version (baseVer (version f)))
            (versionFiles_of sample_listing)) as Hsafe
    by (unfold safe_version, safe_integer; by_decide).
  destruct (select_versions_latest_pair sample_listing None _ _ eq_refl Hsafe Hrun)
    as (rest & Hperm & Hnew & Hold).
  assert (sample_file "9.3.0.20" ∈ versionFiles_of sample_listing) as Hin
    by (apply (list_elem_of_lookup_2 _ 1); vm_compute; reflexivity).
  split; [exact Hrun |]. split; [exact (Hnew _ Hin) |].
  apply (Hold (sample_file "9.3.0.20")).
  rewrite <- Hperm in Hin.
  apply elem_of_app in Hin as [Hin | Hin]; [exact Hin |].
  exfalso. apply elem_of_cons in Hin as [Heq | Hin]; [by vm_compute in Heq |].
  apply elem_of_cons in Hin as [Heq | Hin]; [by vm_compute in Heq |].
  by apply elem_of_nil in Hin.
Defined.

(** X4. With a target version and at least two recognised files, the
    files are put in ascending order of their keys.  On success the newest
    file is the first one of that order whose version text is the target
    and the older file is its immediate predecessor; the two failures are
    a target that no file has, and a target that the first file of the
    order has, which leaves nothing older to compare with.  The version
    numbers are taken to be ones a JavaScript number holds exactly. *)
Theorem select_versions_target
    (filesInDir : list string) (target : string) :
  target <> EmptyString ->
  2 <= length (versionFiles_of filesInDir) ->
  Forall (fun f => safe_version (baseVer (version f))) (versionFiles_of filesInDir) ->
  let sorted := sort_versions (versionFiles_of filesInDir) in
  sorted ≡ₚ versionFiles_of filesInDir /\
  StronglySorted key_le sorted /\
  match select_versions filesInDir (Some target) with
  | Ok (olderFile, newestFile) =>
      exists before after,
        sorted = before ++ olderFile :: newestFile :: after /\
        formattedVersion newestFile = target /\
        Forall (fun f => formattedVersion f <> target) (before ++ [olderFile])
  | Throw msg =>
      (msg = "未找到版本 " +:+ target /\
       Forall (fun f => formattedVersion f <> target) sorted) \/
      (msg = "版本 " +:+ target +:+ " 没有更旧版本可比较" /\
       exists newestFile after,
         sorted = newestFile :: after /\ formattedVersion newestFile = target)
  end.
Proof.
  intros Htarget Hlen _ sorted.
  split; [apply sort_versions_perm |].
  split; [apply sort_versions_sorted, versionFiles_of_keys |].
  rewrite select_versions_unfold by done. cbv zeta. fold sorted. simpl.
  destruct (String.eqb_spec target "") as [? | _]; [done |].
  destruct (findIndex _ sorted) as [i |] eqn:Hfind.
  - apply findIndex_Some in Hfind as (before & x & after & Hs & Hi & Hx & Hb).
    apply String.eqb_eq in Hx.
    assert (Forall (fun f => formattedVersion f <> target) before) as Hb'.
    { eapply Forall_impl; [exact Hb |]. intros f Hf. simpl in Hf.
      by apply String.eqb_neq in Hf. }
    destruct i as [|idx].
    + destruct before; [| done]. right. split; [done |]. by exists x, after.
    + destruct (reverse before) as [|o rb] eqn:Hrb.
      { apply (f_equal reverse) in Hrb. rewrite reverse_involutive in Hrb.
        by subst before. }
      apply (f_equal reverse) in Hrb. rewrite reverse_involutive, reverse_cons in Hrb.
      subst before. rewrite length_app in Hi. simpl in Hi.
      rewrite Hs.
      rewrite (list_lookup_middle (reverse rb ++ [o]) after x (S idx))
        by (rewrite length_app; simpl; lia).
      rewrite <- app_assoc. simpl.
      rewrite (list_lookup_middle (reverse rb) (x :: after) o idx) by lia.
      exists (reverse rb), after. done.
  - left. split; [done |].
    apply findIndex_None in Hfind. eapply Forall_impl; [exact Hfind |].
    intros f Hf. simpl in Hf. by apply String.eqb_neq in Hf.
Qed.

Lemma select_versions_target_witness :
  select_versions sample_listing (Some "9.3.0.180")
    = Ok (sample_file "9.3.0.20", sample_file "9.3.0.180") /\
  StronglySorted key_le (sort_versions (versionFiles_of sample_listing)).
Proof.
  assert (("9.3.0.180" : string) <> "") as H1 by done.
  assert (2 <= length (versionFiles_of sample_listing)) as H2
    by (vm_compute; lia).
  assert (Forall (fun f => safe_version (baseVer (version f)))
            (versionFiles_of sample_listing)) as H3
    by (unfold safe_version, safe_integer; by_decide).
  destruct (select_versions_target sample_listing "9.3.0.180" H1 H2 H3)
    as (_ & Hsorted & _).
  split; [vm_compute; reflexivity | exact Hsorted].
Defined.

End VersionFacts.

(** * Facts about the diff record between src/compare.ts and src/getAssets.ts *)
Module DiffRecordFacts.
Import SharedFacts ScanFacts VersionFacts PathFacts.
Import Compare CompareVersions Path GetAssets.

(** ** Paths of one plain segment *)

Lemma trailingSeparator_app a b :
  b <> "" -> trailingSeparator (a +:+ b) = trailingSeparator b.
Proof.
  intros Hb. induction a as [|c a IH]; [done |].
  simpl. destruct (a +:+ b) eqn:Hab; [| done].
  destruct a; [by simpl in Hab | done].
Qed.

Lemma normalize_nonempty p : normalize p <> "".
Proof.
  unfold normalize. destruct (String.eqb_spec p ""); [done |].
  set (body := join_segments _).
  destruct (String.eqb_spec body "") as [_ | Hbody].
  - by destruct (isAbsolute p), (trailingSeparator p).
  - destruct (isAbsolute p); [done |].
    destruct (trailingSeparator p); [| done].
    by destruct body.
Qed.

Lemma join_nonempty a b : join a b <> "".
Proof.
  unfold join.
  destruct (String.eqb_spec a ""), (String.eqb_spec b "");
    done || apply normalize_nonempty.
Qed.

Lemma join_plain a b :
  plain a -> no_sep a = true -> plain b -> no_sep b = true ->
  join a b = a +:+ "/" +:+ b.
Proof.
  intros Ha Hsa Hb Hsb. unfold join.
  destruct (String.eqb_spec a "") as [-> | Hane]; [by destruct Ha |].
  destruct (String.eqb_spec b "") as [-> | Hbne]; [by destruct Hb |].
  assert (isAbsolute (a +:+ "/" +:+ b) = false) as Habs.
  { destruct a as [|c a]; [done |]. simpl in *.
    by apply andb_true_iff in Hsa as [->%negb_true_iff _]. }
  assert (trailingSeparator (a +:+ "/" +:+ b) = false) as Htr.
  { rewrite trailingSeparator_app by done.
    change ("/" +:+ b) with (String "/" b). destruct b as [|c b]; [done |].
    change (trailingSeparator (String "/" (String c b)))
      with (trailingSeparator (String c b)).
    clear -Hsb. revert c Hsb. induction b as [|d b IH]; intros c Hsb.
    - simpl in *. by apply andb_true_iff in Hsb as [->%negb_true_iff _].
    - change (trailingSeparator (String c (String d b)))
        with (trailingSeparator (String d b)).
      apply IH. simpl in *. by apply andb_true_iff in Hsb as [_ ?]. }
  unfold normalize.
  destruct (String.eqb_spec (a +:+ "/" +:+ b) "") as [Hp | _];
    [by destruct a |].
  rewrite Habs, Htr. simpl negb. unfold normalizeString.
  change (a +:+ "/" +:+ b) with (a +:+ String "/" b).
  rewrite split_slash_app, !split_slash_segment by done.
  change ([a] ++ [b]) with [a; b].
  rewrite (foldl_norm_step_plain true [a; b] [])
    by (repeat (constructor; [done |]); constructor).
  rewrite app_nil_r, reverse_involutive.
  change (join_segments [a; b]) with (a +:+ "/" +:+ b).
  destruct (String.eqb_spec (a +:+ "/" +:+ b) ""); [by destruct a | done].
Qed.

Lemma basename_last dir name :
  name <> "" -> no_sep name = true -> basename (dir +:+ "/" +:+ name) = name.
Proof.
  intros Hne Hsep. unfold basename.
  change (dir +:+ "/" +:+ name) with (dir +:+ String "/" name).
  rewrite split_slash_app, (split_slash_segment name) by done.
  rewrite filter_app, (filter_cons_True (fun seg => seg <> "")) by done.
  by rewrite filter_nil, last_snoc.
Qed.

(** ** The name of the record *)

Lemma digit_run_chars ds : digit_run ds -> str_all version_char ds = true.
Proof.
  intros [_ Hds]. induction ds as [|c ds IH]; [done |]. simpl in *.
  apply andb_true_iff in Hds as [Hc Hds]. unfold version_char at 1.
  by rewrite Hc, IH.
Qed.

Lemma version_text_chars v : version_text v -> str_all version_char v = true.
Proof.
  intros (a & b & c & d & -> & Ha & Hb & Hc & Hd).
  rewrite !str_all_app. simpl.
  by rewrite !digit_run_chars.
Qed.

Lemma version_chars_no_sep v : str_all version_char v = true -> no_sep v = true.
Proof.
  induction v as [|c v IH]; [done |]. simpl.
  intros [Hc Hv]%andb_true_iff. rewrite IH by done. rewrite andb_true_r.
  apply negb_true_iff. destruct (Ascii.eqb_spec c "/") as [-> | ?]; [| done].
  by vm_compute in Hc.
Qed.

Lemma no_sep_app a b : no_sep (a +:+ b) = no_sep a && no_sep b.
Proof. induction a as [|c a IH]; simpl; [done |]. by rewrite IH, andb_assoc. Qed.

Lemma match_diff_here_spec s verOld verNew :
  match_diff_here s = Some (verOld, verNew) <->
    s = "diff_" +:+ verOld +:+ "_to_" +:+ verNew +:+ ".json" /\
    version_text verOld /\ version_text verNew.
Proof.
  unfold match_diff_here. split.
  - intros H.
    apply bind_Some in H as (s1 & H1 & H).
    apply bind_Some in H as ([o s2] & H2 & H).
    apply bind_Some in H as (s3 & H3 & H).
    apply bind_Some in H as ([n s4] & H4 & H).
    destruct (String.eqb_spec s4 ".json") as [-> | ?]; [| done].
    injection H as <- <-.
    apply expect_spec in H1 as ->, H3 as ->.
    apply scan_version_spec in H2 as (-> & Ho & _), H4 as (-> & Hn & _).
    done.
  - intros (-> & Ho & Hn). simpl.
    rewrite (proj2 (scan_version_spec _ verOld ("_to_" +:+ verNew +:+ ".json")))
      by done.
    simpl.
    rewrite (proj2 (scan_version_spec _ verNew ".json")) by done. done.
Qed.

Lemma match_diff_here_no_sep s r : match_diff_here s = Some r -> no_sep s = true.
Proof.
  destruct r as [o n]. intros (-> & Ho & Hn)%match_diff_here_spec.
  rewrite !no_sep_app. simpl.
  by rewrite !version_chars_no_sep by by apply version_text_chars.
Qed.

Lemma match_diff_name_skip dir s :
  match_diff_name (dir +:+ "/" +:+ s) = match_diff_name s.
Proof.
  induction dir as [|c dir IH].
  - simpl. done.
  - change (String c dir +:+ "/" +:+ s) with (String c (dir +:+ "/" +:+ s)).
    cbn [match_diff_name]. rewrite IH.
    destruct (match_diff_here (String c (dir +:+ "/" +:+ s))) as [r |] eqn:Hm;
      [| done].
    apply match_diff_here_no_sep in Hm.
    change (String c (dir +:+ "/" +:+ s)) with (String c dir +:+ "/" +:+ s) in Hm.
    rewrite no_sep_app in Hm. simpl in Hm. by rewrite andb_false_r in Hm.
Qed.

Lemma match_diff_name_here s r : match_diff_here s = Some r -> match_diff_name s = Some r.
Proof. intros H. destruct s; cbn [match_diff_name]; by rewrite H. Qed.

(** X5. The name under which src/compare.ts writes the diff record of two
    versions is read back by the expression of src/getAssets.ts: the record
    is [compare/diff_<old>_to_<new>.json], and both the base name of that
    file in any directory and its whole path give back the two versions. *)
Theorem diff_record_name_round_trip (verOld verNew dir : string) :
  version_text verOld -> version_text verNew ->
  let name := "diff_" +:+ verOld +:+ "_to_" +:+ verNew +:+ ".json" in
  outFile verOld verNew = "compare/" +:+ name /\
  basename (dir +:+ "/" +:+ name) = name /\
  match_diff_name name = Some (verOld, verNew) /\
  match_diff_name (dir +:+ "/" +:+ name) = Some (verOld, verNew).
Proof.
  intros Ho Hn name.
  assert (match_diff_here name = Some (verOld, verNew)) as Hhere
    by by apply match_diff_here_spec.
  pose proof (match_diff_here_no_sep _ _ Hhere) as Hsep.
  assert (plain name) as Hplain by (by split_and!).
  split_and!.
  - unfold outFile, OUT_DIR. by rewrite join_plain.
  - by apply basename_last.
  - by apply match_diff_name_here.
  - rewrite match_diff_name_skip. by apply match_diff_name_here.
Qed.

Lemma diff_record_name_round_trip_witness :
  version_text "9.3.0.20" /\ version_text "9.3.0.180" /\
  outFile "9.3.0.20" "9.3.0.180" = "compare/diff_9.3.0.20_to_9.3.0.180.json" /\
  match_diff_name "/srv/garupa/compare/diff_9.3.0.20_to_9.3.0.180.json"
    = Some ("9.3.0.20", "9.3.0.180").
Proof.
  assert (version_text "9.3.0.20") as H1
    by (exists "9", "3", "0", "20"; by repeat split).
  assert (version_text "9.3.0.180") as H2
    by (exists "9", "3", "0", "180"; by repeat split).
  destruct (diff_record_name_round_trip "9.3.0.20" "9.3.0.180"
    "/srv/garupa/compare" H1 H2) as (Hout & _ & _ & Hmatch).
  split; [exact H1 |]. split; [exact H2 |]. split; [exact Hout | exact Hmatch].
Defined.

(** ** Which record is followed *)

Lemma compareVersion_keys_flip pa pb :
  compareVersion_keys pa pb = compare_keys pb pa.
Proof.
  revert pb. induction pa as [|x pa IH]; intros [|y pb]; simpl; try done.
  rewrite (N.eqb_sym y x). by rewrite IH.
Qed.

Lemma version_text_key v :
  version_text v -> length (digits_value <$> split_on "." v) = 4.
Proof.
  intros Hv. destruct (version_text_split _ Hv) as (a & b & c & d & _ & -> & _).
  done.
Qed.

Lemma compareVersion_le a b :
  version_text a -> version_text b ->
  (compareVersion a b <= 0)%Z <-> version_le b a.
Proof.
  intros Ha Hb. unfold compareVersion, version_le.
  rewrite compareVersion_keys_flip. apply compare_keys_lex.
  by rewrite !version_text_key.
Qed.

(** X6. [getLatestDiffByVersion] returns one of the files found whose name
    parses, and no parsed file has a greater new version; it throws its own
    error when nothing was found, and a TypeError when files were found but
    no name parses.  The version numbers are taken to be ones a JavaScript
    number holds exactly. *)
Theorem getLatestDiffByVersion_spec (diffFiles : list string) :
  (forall f verOld verNew,
     f ∈ diffFiles -> match_diff_name (basename f) = Some (verOld, verNew) ->
     safe_version verNew) ->
  match getLatestDiffByVersion diffFiles with
  | Ok file =>
      file ∈ diffFiles /\
      exists verOld verNew,
        match_diff_name (basename file) = Some (verOld, verNew) /\
        forall f verOld' verNew',
          f ∈ diffFiles ->
          match_diff_name (basename f) = Some (verOld', verNew') ->
          version_le verNew' verNew
  | Throw msg =>
      (diffFiles = [] /\ msg = "未找到差异文件 (compare/diff_x_to_x.json)") \/
      (diffFiles <> [] /\
       msg = "TypeError: Cannot read properties of undefined (reading 'file')" /\
       forall f, f ∈ diffFiles -> match_diff_name (basename f) = None)
  end.
Proof.
  intros _. unfold getLatestDiffByVersion.
  destruct diffFiles as [|f0 fs]; [by left |].
  set (diffFiles := f0 :: fs).
  set (parse := fun f : string =>
    '(_, newVer) ← match_diff_name (basename f); Some (f, newVer)).
  set (le := fun a b : string * string => (compareVersion a.2 b.2 <=? 0)%Z).
  assert (forall x, x ∈ omap parse diffFiles <->
    x.1 ∈ diffFiles /\ exists o, match_diff_name (basename x.1) = Some (o, x.2))
    as Hparsed.
  { intros [f n]. rewrite list_elem_of_omap. unfold parse. simpl. split.
    - intros (f' & Hin & H). apply bind_Some in H as ([o n'] & Hm & [= -> ->]).
      split; [done | by exists o].
    - intros [Hin [o Hm]]. exists f. split; [done |]. by rewrite Hm. }
  assert (forall s r, match_diff_name s = Some r -> version_text r.2) as Htext.
  { intros s [o n]. induction s as [|c s IH]; cbn [match_diff_name].
    - destruct (match_diff_here "") as [r |] eqn:Hm; [| done].
      intros [= ->]. by apply match_diff_here_spec in Hm as (_ & _ & ?).
    - destruct (match_diff_here (String c s)) as [r |] eqn:Hm; [| done].
      intros [= ->]. by apply match_diff_here_spec in Hm as (_ & _ & ?). }
  assert (Forall (fun x : string * string => version_text x.2)
            (omap parse diffFiles)) as Hall.
  { apply Forall_forall. intros x [_ [o Hm]]%Hparsed. by apply Htext in Hm. }
  pose proof (js_sort_perm le (omap parse diffFiles)) as Hperm.
  pose proof (js_sort_sorted_on le (fun x => version_text x.2)) as Hsorted.
  specialize (Hsorted
    ltac:(intros a b Ha Hb; unfold le, compareVersion;
          rewrite !compareVersion_keys_flip; apply compare_keys_total)
    ltac:(intros a b c Ha Hb Hc; unfold le, compareVersion;
          rewrite !compareVersion_keys_flip; intros H1 H2;
          eapply compare_keys_trans; [| | exact H2 | exact H1];
          by rewrite !version_text_key)
    _ Hall).
  destruct (js_sort le (omap parse diffFiles)) as [|first rest] eqn:Hs.
  - right. split_and!; [done.. |]. intros f Hf.
    destruct (match_diff_name (basename f)) as [[o n] |] eqn:Hm; [| done].
    assert ((f, n) ∈ omap parse diffFiles) as Hin
      by (apply Hparsed; split; [done | by exists o]).
    rewrite <- Hperm in Hin. by apply elem_of_nil in Hin.
  - assert (first ∈ omap parse diffFiles) as Hfirst
      by (rewrite <- Hperm; apply list_elem_of_here).
    apply Hparsed in Hfirst as [Hin [o Hm]].
    split; [done |]. exists o, first.2. split; [done |].
    intros f o' n' Hf Hm'.
    assert ((f, n') ∈ first :: rest) as Hin'.
    { rewrite Hperm. apply Hparsed. split; [done | by exists o']. }
    apply compareVersion_le; [by apply (Htext _ _ Hm) | by apply (Htext _ _ Hm') |].
    apply elem_of_cons in Hin' as [<- | Hin'].
    + unfold compareVersion. rewrite compareVersion_keys_flip.
      by rewrite compare_keys_refl.
    + apply StronglySorted_inv in Hsorted as [_ Hfirst].
      rewrite Forall_forall in Hfirst. specialize (Hfirst _ Hin').
      by apply Z.leb_le in Hfirst.
Qed.

Lemma getLatestDiffByVersion_spec_witness :
  getLatestDiffByVersion sample_diffFiles
    = Ok "/srv/compare/diff_1.0.0.2_to_1.0.0.10.json" /\
  version_le "1.0.0.2" "1.0.0.10".
Proof.
  assert (getLatestDiffByVersion sample_diffFiles
    = Ok "/srv/compare/diff_1.0.0.2_to_1.0.0.10.json") as Hrun
    by (vm_compute; reflexivity).
  assert (forall f verOld verNew,
     f ∈ sample_diffFiles -> match_diff_name (basename f) = Some (verOld, verNew) ->
     safe_version verNew) as Hsafe.
  { intros f o n Hf Hm. unfold sample_diffFiles in Hf.
    repeat (apply elem_of_cons in Hf as [-> | Hf]);
      [vm_compute in Hm; try discriminate Hm; injection Hm as <- <-;
       unfold safe_version, safe_integer; by_decide ..
      | by apply elem_of_nil in Hf]. }
  pose proof (getLatestDiffByVersion_spec sample_diffFiles Hsafe) as H.
  rewrite Hrun in H. destruct H as (_ & o & n & Hm & Hmax).
  split; [exact Hrun |].
  vm_compute in Hm. injection Hm as <- <-.
  apply (Hmax "/srv/compare/diff_1.0.0.1_to_1.0.0.2.json" "1.0.0.1" "1.0.0.2").
  - apply list_elem_of_here.
  - vm_compute. reflexivity.
Defined.

(** ** The URL prefix *)

Lemma before_first_spec sep s :
  (exists rest,
     s = before_first sep s +:+ rest /\
     (rest = "" \/ exists tail, rest = sep +:+ tail)) /\
  (forall pre post,
     s = pre +:+ sep +:+ post -> String.length (before_first sep s) <= String.length pre).
Proof.
  induction s as [|c s [(rest & Hs & Hrest) Hmin]]; cbn [before_first].
  - destruct (expect sep "") as [r |] eqn:He.
    + split; [| simpl; lia]. exists "". split; [done | by left].
    + split; [| simpl; lia]. exists "". split; [done | by left].
  - destruct (expect sep (String c s)) as [r |] eqn:He.
    + split; [| simpl; lia]. apply expect_spec in He.
      exists (String c s). split; [done |]. right. by exists r.
    + split.
      * exists rest. split; [simpl; congruence | done].
      * intros [|d pre] post Hpre.
        { simpl in Hpre. rewrite Hpre, expect_app in He. done. }
        simpl in Hpre. injection Hpre as <- Hpre. simpl.
        specialize (Hmin _ _ Hpre). lia.
Qed.

(** X7. [extractPrefix] returns the text before the first occurrence of
    [/AssetBundleInfo] in the URL, or the whole URL when there is none,
    with a slash appended. *)
Theorem extractPrefix_spec (url : string) :
  exists p rest,
    extractPrefix url = p +:+ "/" /\ url = p +:+ rest /\
    (rest = "" \/ exists tail, rest = "/AssetBundleInfo" +:+ tail) /\
    forall pre post,
      url = pre +:+ "/AssetBundleInfo" +:+ post ->
      String.length p <= String.length pre.
Proof.
  destruct (before_first_spec "/AssetBundleInfo" url) as [(rest & Hs & Hrest) Hmin].
  exists (before_first "/AssetBundleInfo" url), rest. done.
Qed.

End DiffRecordFacts.

(** * More facts about src/getAssets.ts *)
Module FetchFacts.
Import SharedFacts PathFacts DiffRecordFacts GetAssetsFacts.
Import Path GetAssets.

(** X8. A download that reports success leaves something at its
    destination, and whenever something is at the destination after a
    run (a complete file, a partial one, a directory), any later download
    of the same identifier into the same root sends no request and writes
    nothing: it logs the skip and reports success. *)
Theorem downloadFile_rerun_skips
    (env : environment) (baseUrl saveRoot assetPath : string) (w : world) :
  let run := downloadFile env baseUrl saveRoot assetPath w in
  let dest := savePath_of saveRoot assetPath in
  (run.2 = Settles true -> exists_at run.1 dest = true) /\
  (forall data, files run.1 !! dest = Some data -> exists_at run.1 dest = true) /\
  (as_dir dest ∈ dirs run.1 -> exists_at run.1 dest = true) /\
  (exists_at run.1 dest = true ->
   forall (env' : environment) (baseUrl' : string),
     downloadFile env' baseUrl' saveRoot assetPath run.1
       = (emit (EvLog (LogSkipped (cleanPath assetPath))) run.1, Settles true)).
Proof.
  intros run dest. split_and!.
  - subst run. unfold downloadFile, downloadFile_with.
    fold (savePath_of saveRoot assetPath). fold dest.
    destruct (exists_at w dest) eqn:Hdest.
    + intros _. simpl. by rewrite exists_at_emit.
    + intros Hok.
      destruct (attempts_post env PER_FILE_RETRIES (cleanPath assetPath)
        (baseUrl +:+ cleanPath assetPath) dest PER_FILE_RETRIES 0
        PER_FILE_BACKOFF_SECONDS w ltac:(unfold PER_FILE_RETRIES; lia) ltac:(lia))
        as (n & new & _ & _ & Hn & _ & _ & _ & _ & _ & Hr & _ & Hfile).
      rewrite Hok in Hr. simpl in Hr.
      destruct (env (baseUrl +:+ cleanPath assetPath) n)
        as [| | | | | | body] eqn:Hlast; try done.
      apply (exists_at_file _ _ body). rewrite Hfile.
      rewrite (seq_split_at n n) by lia. rewrite fmap_app, fmap_cons.
      rewrite Hlast. replace (n - n) with 0 by lia.
      by apply foldl_dest_after_last; [| intros b []%elem_of_nil].
  - intros data. apply exists_at_file.
  - intros Hdir. unfold exists_at. apply orb_true_iff. right.
    by apply bool_decide_eq_true.
  - intros Hthere env' baseUrl'.
    unfold downloadFile at 1, downloadFile_with.
    fold (savePath_of saveRoot assetPath). fold dest. by rewrite Hthere.
Qed.

(** ** The batch *)

Lemma inside_trans root mid dest :
  inside root mid -> inside mid dest -> inside root dest.
Proof.
  intros [Habs1 (r1 & Hs1 & Hr1)] [Habs2 (r2 & Hs2 & Hr2)].
  split; [congruence |]. exists (r1 ++ r2).
  rewrite Hs2, Hs1, <- app_assoc. split; [done |].
  rewrite elem_of_app. tauto.
Qed.

Lemma elem_of_make_tasks baseUrlNew baseUrlOld newRoot d t :
  t ∈ make_tasks baseUrlNew baseUrlOld newRoot d ->
  (exists sub, t_saveRoot t = join newRoot sub /\
     (sub = "new" \/ sub = "change" \/ sub = "change_old")) /\
  t_assetPath t ∈ dj_new d ++ dj_change d.
Proof.
  unfold make_tasks. rewrite !elem_of_app, !list_elem_of_fmap.
  intros [(id & -> & Hid) | [(id & -> & Hid) | (id & -> & Hid)]]; simpl.
  - split; [exists "new"; auto | by left].
  - split; [exists "change"; auto | by right].
  - split; [exists "change_old"; auto | by right].
Qed.

(** X9. When no identifier of the diff record has a [..] segment, every
    file the batch creates or changes lies inside the version's root
    directory. *)
Theorem downloadDiffAssets_stays_inside_root
    (env : environment) (baseUrlNew baseUrlOld newRoot : string)
    (d : diffJson) (w : world) (p : string) :
  newRoot <> "" ->
  Forall (fun assetPath => ".." ∉ split_slash assetPath) (dj_new d ++ dj_change d) ->
  files (downloadDiffAssets env baseUrlNew baseUrlOld newRoot d w).1 !! p
    <> files w !! p ->
  inside newRoot p.
Proof.
  intros Hroot Hids Hchanged.
  set (tasks := make_tasks baseUrlNew baseUrlOld newRoot d).
  destruct (decide (Exists (fun t => p = savePath_of (t_saveRoot t) (t_assetPath t))
                      tasks)) as [Hex | Hnone].
  - apply Exists_exists in Hex as (t & Ht & ->).
    apply elem_of_make_tasks in Ht as [(sub & -> & Hsub) Hid].
    rewrite Forall_forall in Hids. specialize (Hids _ Hid).
    apply (inside_trans _ (join newRoot sub)).
    + apply join_inside; [done |].
      destruct Hsub as [-> | [-> | ->]]; vm_compute;
        intros H; repeat (apply elem_of_cons in H as [[=] | H]);
        by apply elem_of_nil in H.
    + apply join_inside; [apply join_nonempty | by apply cleanPath_segments].
  - exfalso. apply Hchanged. apply downloadDiffAssets_other_files.
    intros t Ht ->. apply Hnone, Exists_exists. by exists t.
Qed.

Lemma downloadDiffAssets_stays_inside_root_witness :
  ("/srv/analysing/1.0.0.2" : string) <> "" /\
  Forall (fun assetPath => ".." ∉ split_slash assetPath)
    (dj_new sample_diffJson ++ dj_change sample_diffJson) /\
  inside "/srv/analysing/1.0.0.2" "/srv/analysing/1.0.0.2/change_old/sound/b.acb".
Proof.
  assert (("/srv/analysing/1.0.0.2" : string) <> "") as H1 by done.
  assert (Forall (fun assetPath => ".." ∉ split_slash assetPath)
    (dj_new sample_diffJson ++ dj_change sample_diffJson)) as H2.
  { repeat constructor; vm_compute; intros H;
      repeat (apply elem_of_cons in H as [[=] | H]); by apply elem_of_nil in H. }
  split; [exact H1 |]. split; [exact H2 |].
  apply (downloadDiffAssets_stays_inside_root (fun _ _ => Received "RIFF")
    "http://new/" "http://old/" "/srv/analysing/1.0.0.2" sample_diffJson
    (mkWorld ∅ version_dirs []) _ H1 H2).
  vm_compute. discriminate.
Defined.

End FetchFacts.

(** * More facts about the manifests of src/compare.ts *)
Module ManifestFacts.
Import SharedFacts CompareFacts Compare.

(** The hash of [line] when its path is [p]. *)
Lemma parse_lines_snoc lines line :
  parse_lines (lines ++ [line]) = read_line (parse_lines lines) line.
Proof. unfold parse_lines. by rewrite foldl_app. Qed.

(** X10. In the parsed manifest a path maps to the hash of the last line
    that names it. *)
Theorem readFileToAssetMap_last_line_wins (lines : list string) (p : string) :
  map_get p (parse_lines lines) =
  last (omap (fun line =>
                '(q, hashValue) ← extractPathAndHash line;
                if String.eqb q p then Some hashValue else None) lines).
Proof.
  induction lines as [|line lines IH] using rev_ind; [done |].
  rewrite parse_lines_snoc, omap_app. unfold read_line. csimpl.
  destruct (extractPathAndHash line) as [[q h] |]; csimpl.
  - rewrite map_get_set. destruct (String.eqb q p).
    + by rewrite last_snoc.
    + by rewrite app_nil_r.
  - by rewrite app_nil_r.
Qed.

(** X11. A manifest compared with itself gives an empty diff. *)
Theorem compareVersions_same_manifest
    (dir : gmap string (list string)) (file : string) :
  is_Some (dir !! file) ->
  compareVersions dir file file = Ok (mkDiff [] []).
Proof.
  intros [lines Hlines]. unfold compareVersions, readFileToAssetMap.
  rewrite Hlines. f_equal.
  set (m := parse_lines lines).
  assert (new_ (diff_maps m m) = []) as Hnew.
  { apply elem_of_nil_inv. intros p [[h Hh] Hnone]%diff_maps_new. congruence. }
  assert (change (diff_maps m m) = []) as Hchange.
  { apply elem_of_nil_inv. intros p (hn & ho & Hn & Ho & Hne)%diff_maps_change.
    congruence. }
  destruct (diff_maps m m) as [n c]. simpl in *. by subst.
Qed.

Lemma compareVersions_same_manifest_witness :
  compareVersions sample_manifests
    "AssetBundleInfo_1.0.0.2.txt" "AssetBundleInfo_1.0.0.2.txt"
    = Ok (mkDiff [] []).
Proof.
  apply compareVersions_same_manifest. vm_compute. by eexists.
Defined.

Lemma diff_maps_change_NoDup oldMap newMap :
  NoDup (map_keys newMap) -> NoDup (change (diff_maps oldMap newMap)).
Proof.
  intros Hnd. unfold diff_maps. simpl. rewrite js_sort_perm.
  by apply NoDup_filter.
Qed.

#[local] Instance string_le_antisym : AntiSymm (=) String.le.
Proof.
  intros a b Hab%Is_true_true Hba%Is_true_true. by apply String.leb_antisym.
Qed.

(** X12. Comparing two manifests in the other direction gives the same
    list of changed paths, and a path that is new in one direction is
    neither new nor changed in the other. *)
Theorem compareVersions_swap
    (dir : gmap string (list string)) (olderFile newestFile : string)
    (d d' : DiffResult) :
  compareVersions dir olderFile newestFile = Ok d ->
  compareVersions dir newestFile olderFile = Ok d' ->
  change d' = change d /\
  (forall p, p ∈ new_ d -> (p ∉ new_ d') /\ (p ∉ change d')).
Proof.
  unfold compareVersions, readFileToAssetMap.
  destruct (dir !! olderFile) as [oldLines |]; [| done].
  destruct (dir !! newestFile) as [newLines |]; [| done].
  intros [= <-] [= <-].
  set (oldMap := parse_lines oldLines). set (newMap := parse_lines newLines).
  split.
  - apply (StronglySorted_unique String.le).
    + apply sorted_strings.
    + apply sorted_strings.
    + apply NoDup_Permutation.
      * apply diff_maps_change_NoDup, parse_lines_NoDup.
      * apply diff_maps_change_NoDup, parse_lines_NoDup.
      * intros p. rewrite !diff_maps_change. split.
        -- intros (hn & ho & ? & ? & ?). by exists ho, hn.
        -- intros (hn & ho & ? & ? & ?). by exists ho, hn.
  - intros p [[h Hh] Hnone]%diff_maps_new. split.
    + intros [_ ?]%diff_maps_new. congruence.
    + intros (hn & ho & ? & ? & ?)%diff_maps_change. congruence.
Qed.

Lemma compareVersions_swap_witness :
  compareVersions sample_manifests
    "AssetBundleInfo_1.0.0.1.txt" "AssetBundleInfo_1.0.0.2.txt"
    = Ok (mkDiff ["z.bin"] ["y.bin"]) /\
  compareVersions sample_manifests
    "AssetBundleInfo_1.0.0.2.txt" "AssetBundleInfo_1.0.0.1.txt"
    = Ok (mkDiff [] ["y.bin"]) /\
  change (mkDiff [] ["y.bin"]) = change (mkDiff ["z.bin"] ["y.bin"]).
Proof.
  assert (compareVersions sample_manifests
    "AssetBundleInfo_1.0.0.1.txt" "AssetBundleInfo_1.0.0.2.txt"
    = Ok (mkDiff ["z.bin"] ["y.bin"])) as H1 by (vm_compute; reflexivity).
  assert (compareVersions sample_manifests
    "AssetBundleInfo_1.0.0.2.txt" "AssetBundleInfo_1.0.0.1.txt"
    = Ok (mkDiff [] ["y.bin"])) as H2 by (vm_compute; reflexivity).
  split; [exact H1 |]. split; [exact H2 |].
  exact (proj1 (compareVersions_swap _ _ _ _ _ H1 H2)).
Defined.

End ManifestFacts.

(** * Facts about the directory tree of src/removeUnchangedFiles.ts *)
Module TreeFacts.
Import SharedFacts PathFacts RemoveUnchanged.

(** ** Induction on trees *)

Lemma node_ind' (P : node -> Prop) :
  (forall data, P (File data)) ->
  (forall es, Forall (fun e => P e.2) es -> P (Dir es)) ->
  forall n, P n.
Proof.
  intros HF HD. fix IH 1. intros [data | es]; [apply HF |].
  apply HD. induction es as [|[name c] es IHes]; constructor; [apply IH | apply IHes].
Qed.

Lemma wf_Dir es :
  wf_node (Dir es) <->
  NoDup es.*1 /\
  Forall (fun e => e.1 <> "" /\ Path.no_sep e.1 = true /\ wf_node e.2) es.
Proof.
  simpl. apply and_iff_compat_l.
  induction es as [|[name c] es IH]; [split; [constructor | done] |].
  rewrite Forall_cons. simpl. rewrite IH. tauto.
Qed.

Lemma populated_Dir es :
  populated (Dir es) <-> es <> [] /\ Forall (fun e => populated e.2) es.
Proof.
  simpl. apply and_iff_compat_l.
  induction es as [|[name c] es IH]; [split; [constructor | done] |].
  rewrite Forall_cons. simpl. rewrite IH. tauto.
Qed.

(** A concrete tree is well formed. *)
Ltac wf_tree :=
  simpl;
  repeat match goal with
         | |- _ /\ _ => split
         | |- NoDup _ => apply (bool_decide_unpack _); vm_compute; exact I
         | |- True => exact I
         | |- _ <> _ => done
         | |- _ = _ => reflexivity
         end.

(** ** Entries *)

Lemma lookup_entry_Some name es c : lookup_entry name es = Some c -> (name, c) ∈ es.
Proof.
  induction es as [|[n0 c0] es IH]; simpl; [done |].
  destruct (String.eqb_spec n0 name) as [-> | ?].
  - intros [= ->]. apply list_elem_of_here.
  - intros H. apply list_elem_of_further. by apply IH.
Qed.

Lemma lookup_entry_None name es : lookup_entry name es = None <-> name ∉ es.*1.
Proof.
  induction es as [|[n0 c0] es IH]; csimpl.
  - split; [intros _; apply not_elem_of_nil | done].
  - rewrite not_elem_of_cons. destruct (String.eqb_spec n0 name) as [-> | ?].
    + split; [done | by intros [? _]].
    + rewrite IH. split; [by split | by intros [_ ?]].
Qed.

Lemma lookup_entry_NoDup name es c :
  NoDup es.*1 -> (name, c) ∈ es -> lookup_entry name es = Some c.
Proof.
  induction es as [|[n0 c0] es IH]; csimpl; [by intros _ ?%elem_of_nil |].
  intros [Hn0 Hnd]%NoDup_cons [[= -> ->] | Hin]%elem_of_cons.
  - by rewrite String.eqb_refl.
  - destruct (String.eqb_spec n0 name) as [-> | ?]; [| by apply IH].
    exfalso. apply Hn0. apply list_elem_of_fmap. by exists (name, c).
Qed.

(** ** [set_path] on a directory *)

Lemma set_path_cons name p' v es :
  set_path (name :: p') v (Dir es) =
  Dir (update_entry name
         (fun c => match p' with [] => v | _ => Some (set_path p' v c) end) es).
Proof.
  simpl. f_equal. induction es as [|[n0 c] es IH]; simpl; [done |].
  destruct (String.eqb n0 name); [by destruct p', v | by rewrite IH].
Qed.

Lemma update_entry_other name f es name' :
  name' <> name -> lookup_entry name' (update_entry name f es) = lookup_entry name' es.
Proof.
  intros Hne. induction es as [|[n0 c] es IH]; simpl; [done |].
  destruct (String.eqb_spec n0 name) as [-> | ?].
  - destruct (String.eqb_spec name name') as [? | _]; [congruence |].
    destruct (f c); simpl; [| done].
    by destruct (String.eqb_spec name name') as [? | _]; [congruence |].
  - simpl. by rewrite IH.
Qed.

Lemma update_entry_same name f es :
  NoDup es.*1 ->
  lookup_entry name (update_entry name f es) = lookup_entry name es ≫= f.
Proof.
  induction es as [|[n0 c] es IH]; csimpl; [done |].
  intros [Hn0 Hnd]%NoDup_cons.
  destruct (String.eqb_spec n0 name) as [-> | ?].
  - csimpl. destruct (f c); simpl; [by rewrite String.eqb_refl |].
    by apply lookup_entry_None.
  - simpl. destruct (String.eqb_spec n0 name); [done | by apply IH].
Qed.

Lemma update_entry_same_Some name f es :
  (forall c, is_Some (f c)) ->
  lookup_entry name (update_entry name f es) = lookup_entry name es ≫= f.
Proof.
  intros Hf. induction es as [|[n0 c] es IH]; csimpl; [done |].
  destruct (String.eqb_spec n0 name) as [-> | ?].
  - csimpl. destruct (Hf c) as [c' Hc']. rewrite Hc'. simpl.
    by rewrite String.eqb_refl.
  - simpl. destruct (String.eqb_spec n0 name); [done | by apply IH].
Qed.

Lemma update_entry_names name f es x :
  x ∈ (update_entry name f es).*1 -> x ∈ es.*1.
Proof.
  induction es as [|[n0 c] es IH]; csimpl; [done |].
  destruct (String.eqb n0 name).
  - destruct (f c); csimpl; [done | apply list_elem_of_further].
  - csimpl. rewrite !elem_of_cons. intros [-> | ?]; [by left | right; by apply IH].
Qed.

Lemma update_entry_NoDup name f es :
  NoDup es.*1 -> NoDup (update_entry name f es).*1.
Proof.
  induction es as [|[n0 c] es IH]; csimpl; [done |].
  intros [Hn0 Hnd]%NoDup_cons. destruct (String.eqb n0 name).
  - destruct (f c); csimpl; [by apply NoDup_cons | done].
  - csimpl. apply NoDup_cons. split; [| by apply IH].
    intros Hin. by apply Hn0, (update_entry_names name f).
Qed.

Lemma update_entry_Forall (Q : string * node -> Prop) name f es :
  Forall Q es ->
  (forall c c', (name, c) ∈ es -> Q (name, c) -> f c = Some c' -> Q (name, c')) ->
  Forall Q (update_entry name f es).
Proof.
  induction 1 as [|[n0 c] es Hc Hes IH]; intros Hf; simpl; [constructor |].
  destruct (String.eqb_spec n0 name) as [-> | ?].
  - destruct (f c) as [c' |] eqn:Hfc; [| done]. constructor; [| done].
    apply (Hf c); [apply list_elem_of_here | done..].
  - constructor; [done |]. apply IH. intros c1 c2 Hin. apply Hf.
    by apply list_elem_of_further.
Qed.

(** ** Looking up after [set_path] *)

Lemma lookup_set_path_apart p q v n :
  apart p q -> lookup_path q (set_path p v n) = lookup_path q n.
Proof.
  revert q n. induction p as [|name p' IH]; intros q n [Hpq Hqp].
  - destruct Hpq. apply prefix_nil.
  - destruct n as [data | es]; [done |]. rewrite set_path_cons.
    destruct q as [|name' q']; [destruct Hqp; apply prefix_nil |]. simpl.
    destruct (decide (name' = name)) as [-> | Hne].
    + assert (p' <> []) as Hp'.
      { intros ->. apply Hpq. by apply prefix_cons, prefix_nil. }
      destruct p' as [|x p'']; [done |].
      rewrite update_entry_same_Some by (intros c; by eexists).
      destruct (lookup_entry name es) as [c |]; simpl; [| done].
      apply IH. split.
      * intros H. apply Hpq. by apply prefix_cons.
      * intros H. apply Hqp. by apply prefix_cons.
    + by rewrite update_entry_other.
Qed.

Lemma lookup_set_path_below d rel v n :
  rel <> [] ->
  lookup_path d (set_path (d ++ rel) v n) = set_path rel v <$> lookup_path d n.
Proof.
  intros Hrel. revert n. induction d as [|name d IH]; intros n; [done |].
  destruct n as [data | es]; [done |]. simpl app. rewrite set_path_cons. simpl.
  assert (d ++ rel <> []) as Hne by (by destruct d, rel).
  destruct (d ++ rel) as [|x t] eqn:Hd; [done |].
  rewrite update_entry_same_Some by (intros c; by eexists).
  rewrite <- Hd in IH |- *.
  destruct (lookup_entry name es) as [c |]; simpl; [| done].
  apply IH.
Qed.

Lemma lookup_set_path_replaced d v n rel :
  d <> [] -> is_Some (lookup_path d n) ->
  lookup_path (d ++ rel) (set_path d (Some v) n) = lookup_path rel v.
Proof.
  revert n. induction d as [|name d IH]; intros n Hd Hn; [done |].
  destruct n as [data | es]; [by destruct Hn |]. simpl app. rewrite set_path_cons.
  simpl in *.
  rewrite update_entry_same_Some by (intros c; destruct d; by eexists).
  destruct (lookup_entry name es) as [c |]; simpl; [| by destruct Hn].
  destruct d as [|x d']; [by rewrite app_nil_l |]. by apply IH.
Qed.

Lemma lookup_set_path_removed d n rel :
  wf_node n -> d <> [] ->
  lookup_path (d ++ rel) (set_path d None n) = None.
Proof.
  revert n. induction d as [|name d IH]; intros n Hwf Hd; [done |].
  destruct n as [data | es]; [done |]. simpl app. rewrite set_path_cons. simpl.
  apply wf_Dir in Hwf as [Hnd Hall].
  rewrite update_entry_same by done.
  destruct (lookup_entry name es) as [c |] eqn:Hc; simpl; [| done].
  destruct d as [|x d']; [done |]. simpl. apply IH; [| done].
  apply lookup_entry_Some in Hc. rewrite Forall_forall in Hall.
  by destruct (Hall _ Hc) as (_ & _ & ?).
Qed.

Lemma set_path_None_wf p n : wf_node n -> wf_node (set_path p None n).
Proof.
  revert n. induction p as [|name p' IH]; intros n Hwf; [by destruct n |].
  destruct n as [data | es]; [done |]. rewrite set_path_cons.
  apply wf_Dir in Hwf as [Hnd Hall]. apply wf_Dir. split.
  - by apply update_entry_NoDup.
  - apply update_entry_Forall; [done |].
    intros c c' _ (? & ? & Hc) Hf. simpl in *. split_and!; [done.. |].
    destruct p'; [done |]. injection Hf as <-. by apply IH.
Qed.

(** The file at [q] after the file at [r] was removed. *)
Lemma file_data_set_path_None r q n data :
  wf_node n -> r <> [] -> file_data r n = Some data ->
  file_data q (set_path r None n) = if decide (q = r) then None else file_data q n.
Proof.
  unfold file_data. revert q n.
  induction r as [|name r' IH]; intros q n Hwf Hne Hr; [done |]. clear Hne.
  - destruct n as [d | es]; [done |]. rewrite set_path_cons.
    apply wf_Dir in Hwf as [Hnd Hall]. simpl in Hr.
    destruct (lookup_entry name es) as [c |] eqn:Hc; [| done].
    assert (wf_node c) as Hwfc.
    { apply lookup_entry_Some in Hc. rewrite Forall_forall in Hall.
      by destruct (Hall _ Hc) as (_ & _ & ?). }
    destruct q as [|name' q']; [by rewrite decide_False |]. simpl.
    destruct (decide (name' = name)) as [-> | Hne].
    + rewrite update_entry_same, Hc by done. simpl.
      destruct r' as [|x r''].
      * simpl in Hr. destruct c as [d |]; [| done].
        destruct q' as [|y q'']; [by rewrite decide_True |].
        by rewrite decide_False.
      * rewrite (IH q' c Hwfc ltac:(done) Hr).
        destruct (decide (q' = x :: r'')) as [-> | Hq].
        -- by rewrite decide_True.
        -- rewrite decide_False by congruence. done.
    + rewrite update_entry_other by done. by rewrite decide_False by congruence.
Qed.

(** ** Paths *)

Lemma lookup_path_app d rel n :
  lookup_path (d ++ rel) n = lookup_path d n ≫= lookup_path rel.
Proof.
  revert n. induction d as [|name d IH]; intros n; [done |].
  destruct n as [data | es]; [done |]. simpl.
  destruct (lookup_entry name es); [apply IH | done].
Qed.

Lemma lookup_path_wf d n c : wf_node n -> lookup_path d n = Some c -> wf_node c.
Proof.
  revert n. induction d as [|name d IH]; intros n Hwf; [by intros [= <-] |].
  destruct n as [data | es]; [done |]. simpl.
  destruct (lookup_entry name es) as [c0 |] eqn:Hc; [| done].
  apply IH. apply wf_Dir in Hwf as [_ Hall]. rewrite Forall_forall in Hall.
  apply lookup_entry_Some in Hc. by destruct (Hall _ Hc) as (_ & _ & ?).
Qed.

Lemma file_data_app d rel n c :
  lookup_path d n = Some c -> file_data (d ++ rel) n = file_data rel c.
Proof. intros Hc. unfold file_data. by rewrite lookup_path_app, Hc. Qed.

Lemma file_data_nil n : is_Some (file_data [] n) -> exists data, n = File data.
Proof. unfold file_data. simpl. destruct n; [by eexists | by intros [? ?]]. Qed.

Lemma path_cases (p q : path) :
  p `prefix_of` q \/ (exists rel, rel <> [] /\ p = q ++ rel) \/ apart p q.
Proof.
  destruct (decide (p `prefix_of` q)) as [? | Hpq]; [by left |].
  destruct (decide (q `prefix_of` p)) as [[rel ->] | Hqp]; [| by right; right].
  right; left. exists rel. split; [| done]. intros ->. apply Hpq.
  by rewrite app_nil_r.
Qed.

Lemma apart_app p q rel : apart p q -> apart (p ++ rel) q.
Proof.
  intros [Hpq Hqp]. split.
  - intros H. apply Hpq. by eapply prefix_app_l.
  - intros Hq.
    destruct (prefix_weak_total p q (p ++ rel)) as [? | ?];
      [by exists rel | done..].
Qed.

(** ** [walkDir] *)

Lemma walk_node_Dir dir es :
  walk_node dir (Dir es) = es ≫= (fun e => walk_node (dir ++ [e.1]) e.2).
Proof.
  simpl. induction es as [|[name c] es IH]; csimpl; [done |]. by rewrite IH.
Qed.

Lemma elem_of_walk_node_2 n dir rel :
  is_Some (file_data rel n) -> dir ++ rel ∈ walk_node dir n.
Proof.
  revert dir rel. induction n as [data | es IH] using node_ind'; intros dir rel.
  - destruct rel; [| by intros [? ?]]. intros _. rewrite app_nil_r.
    apply list_elem_of_here.
  - destruct rel as [|name rel]; [by intros [? ?] |].
    rewrite walk_node_Dir. unfold file_data. simpl.
    destruct (lookup_entry name es) as [c |] eqn:Hc; [| by intros [? ?]].
    intros Hfile. apply list_elem_of_bind.
    apply lookup_entry_Some in Hc. exists (name, c). split; [| done]. simpl.
    rewrite Forall_forall in IH. rewrite (cons_middle name), app_assoc.
    by apply (IH _ Hc).
Qed.

Lemma elem_of_walk_node_1 n dir p :
  wf_node n -> p ∈ walk_node dir n ->
  exists rel, p = dir ++ rel /\ is_Some (file_data rel n).
Proof.
  revert dir p. induction n as [data | es IH] using node_ind'; intros dir p Hwf.
  - intros ->%list_elem_of_singleton. exists []. by rewrite app_nil_r.
  - rewrite walk_node_Dir, list_elem_of_bind. intros ([name c] & Hp & Hin).
    apply wf_Dir in Hwf as [Hnd Hall]. rewrite Forall_forall in IH, Hall.
    destruct (Hall _ Hin) as (_ & _ & Hwfc). simpl in *.
    destruct (IH _ Hin _ _ Hwfc Hp) as (rel & -> & Hrel).
    exists (name :: rel). split; [by rewrite <- app_assoc |].
    unfold file_data in *. simpl. by rewrite (lookup_entry_NoDup name es c).
Qed.

Lemma walk_node_prefix n dir p : p ∈ walk_node dir n -> dir `prefix_of` p.
Proof.
  revert dir p. induction n as [data | es IH] using node_ind'; intros dir p.
  - by intros ->%list_elem_of_singleton.
  - rewrite walk_node_Dir, list_elem_of_bind. intros ([name c] & Hp & Hin).
    rewrite Forall_forall in IH. apply (IH _ Hin) in Hp. simpl in Hp.
    by eapply prefix_app_l.
Qed.

Lemma walk_node_NoDup n dir : wf_node n -> NoDup (walk_node dir n).
Proof.
  revert dir. induction n as [data | es IH] using node_ind'; intros dir Hwf.
  - apply NoDup_singleton.
  - rewrite walk_node_Dir. apply wf_Dir in Hwf as [Hnd Hall].
    induction es as [|[name c] es IHes]; csimpl; [constructor |].
    apply Forall_cons in IH as [IHc IH], Hall as [(_ & _ & Hwfc) Hall].
    apply NoDup_cons in Hnd as [Hname Hnd]. simpl in *.
    apply NoDup_app. split_and!; [by apply IHc | | by apply IHes].
    intros p Hp ([name' c'] & Hp' & Hin)%list_elem_of_bind.
    apply walk_node_prefix in Hp as [r1 ->], Hp' as [r2 Hr2]. simpl in Hr2.
    rewrite <- !app_assoc in Hr2. apply app_inv_head in Hr2. injection Hr2 as -> _.
    apply Hname. apply list_elem_of_fmap. by exists (name', c').
Qed.

Lemma walkDir_Ok dir w files :
  walkDir dir w = Ok files <->
  exists es, lookup_path dir (root w) = Some (Dir es) /\
             files = walk_node dir (Dir es).
Proof.
  unfold walkDir. destruct (lookup_path dir (root w)) as [[data | es] |].
  - split; [done | by intros (? & ? & _)].
  - split; [intros [= <-]; by eexists | by intros (? & [= <-] & ->)].
  - split; [done | by intros (? & ? & _)].
Qed.

(** ** [removeEmptyDirs] *)

Lemma prune_Dir es :
  prune (Dir es) =
  match omap (fun e => (fun c' => (e.1, c')) <$> prune e.2) es with
  | [] => None
  | kept => Some (Dir kept)
  end.
Proof.
  cbn [prune].
  assert ((fix go (es : list (string * node)) : list (string * node) :=
             match es with
             | [] => []
             | (name, c) :: rest =>
                 match c with
                 | File _ => (name, c) :: go rest
                 | Dir _ =>
                     match prune c with
                     | Some c' => (name, c') :: go rest
                     | None => go rest
                     end
                 end
             end) es
          = omap (fun e => (fun c' => (e.1, c')) <$> prune e.2) es) as ->;
    [| by destruct (omap _ es)].
  induction es as [|[name c] es IH]; [done |]. rewrite IH. csimpl.
  destruct c as [data | es']; [done |]. by destruct (prune (Dir es')).
Qed.

Lemma lookup_entry_pruned name es :
  NoDup es.*1 ->
  lookup_entry name (omap (fun e => (fun c' => (e.1, c')) <$> prune e.2) es)
    = lookup_entry name es ≫= prune.
Proof.
  induction es as [|[n0 c] es IH]; csimpl; [done |].
  intros [Hn0 Hnd]%NoDup_cons.
  destruct (String.eqb_spec n0 name) as [-> | Hne]; csimpl.
  - destruct (prune c) as [c' |]; csimpl; [by rewrite String.eqb_refl |].
    rewrite IH by done. apply lookup_entry_None in Hn0. by rewrite Hn0.
  - destruct (prune c) as [c' |]; csimpl; [| by apply IH].
    destruct (String.eqb_spec n0 name); [done | by apply IH].
Qed.

Lemma pruned_names (es : list (string * node)) (x : string) :
  x ∈ (omap (fun e => (fun c' => (e.1, c')) <$> prune e.2) es).*1 -> x ∈ es.*1.
Proof.
  intros ([n c'] & -> & Hin)%list_elem_of_fmap.
  apply list_elem_of_omap in Hin as ([n0 c] & Hin & Hp). simpl in Hp.
  destruct (prune c); [| done]. injection Hp as -> _.
  apply list_elem_of_fmap. by exists (n, c).
Qed.

Lemma pruned_NoDup (es : list (string * node)) :
  NoDup es.*1 ->
  NoDup (omap (fun e => (fun c' => (e.1, c')) <$> prune e.2) es).*1.
Proof.
  induction es as [|[n0 c] es IH]; csimpl; [done |].
  intros [Hn0 Hnd]%NoDup_cons. destruct (prune c); csimpl; [| by apply IH].
  apply NoDup_cons. split; [| by apply IH].
  intros Hin. by apply Hn0, pruned_names.
Qed.

Lemma prune_spec n :
  wf_node n ->
  match prune n with
  | Some n' =>
      wf_node n' /\ populated n' /\ (forall q, file_data q n' = file_data q n)
  | None => forall q, file_data q n = None
  end.
Proof.
  induction n as [data | es IH] using node_ind'; intros Hwf; [done |].
  apply wf_Dir in Hwf as [Hnd Hall]. rewrite prune_Dir.
  set (kept := omap (fun e => (fun c' => (e.1, c')) <$> prune e.2) es).
  rewrite Forall_forall in IH, Hall.
  assert (forall e, e ∈ kept ->
    e.1 <> "" /\ Path.no_sep e.1 = true /\ wf_node e.2 /\ populated e.2) as Hkept.
  { intros [n c'] ([n0 c] & Hin & Hp)%list_elem_of_omap. simpl in Hp.
    destruct (Hall _ Hin) as (? & ? & Hwfc). specialize (IH _ Hin Hwfc).
    simpl in *. destruct (prune c) as [c'' |]; [| done].
    injection Hp as <- <-. by destruct IH as (? & ? & _). }
  assert (forall q, file_data q (Dir kept) = file_data q (Dir es)) as Hfiles.
  { intros [|name q]; [done |]. unfold file_data. simpl.
    unfold kept. rewrite lookup_entry_pruned by done.
    destruct (lookup_entry name es) as [c |] eqn:Hc; [| done]. simpl.
    apply lookup_entry_Some in Hc. destruct (Hall _ Hc) as (_ & _ & Hwfc).
    specialize (IH _ Hc Hwfc). simpl in IH.
    destruct (prune c) as [c' |].
    - destruct IH as (_ & _ & IH). apply IH.
    - symmetry. apply IH. }
  destruct kept as [|e kept'] eqn:Hk.
  - intros q. rewrite <- Hfiles. by destruct q.
  - split_and!; [| | done].
    + apply wf_Dir. split.
      * rewrite <- Hk. by apply pruned_NoDup.
      * apply Forall_forall. intros e' He'. by destruct (Hkept _ He') as (? & ? & ? & _).
    + apply populated_Dir. split; [done |].
      apply Forall_forall. intros e' He'. by destruct (Hkept _ He') as (_ & _ & _ & ?).
Qed.

End TreeFacts.

(** * More facts about src/removeUnchangedFiles.ts *)
Module ReconcileFacts.
Import SharedFacts PathFacts TreeFacts RemoveUnchangedFacts RemoveUnchanged.

(** ** Reading and deleting a file that may be busy *)

(** X13. [safeRead] on an existing file that is refused as busy [k] times
    returns its bytes when [k] is below the number of tries and throws the
    "stays busy" error otherwise; it uses up one refusal per try and
    never changes the tree. *)
Theorem safeRead_retry_bound (filePath : path) (retry : nat) (w : world)
    (data : string) :
  file_data filePath (root w) = Some data ->
  let k := default 0 (busy w !! filePath) in
  let run := safeRead filePath retry w in
  root run.1 = root w /\
  default 0 (busy run.1 !! filePath) = k - retry /\
  run.2 = if decide (k < retry) then Ok data
          else Throw "file stays busy, cannot be read".
Proof.
  intros Hdata. revert w Hdata. induction retry as [|retry IH]; intros w Hdata.
  - simpl. split_and!; [done | lia | done].
  - cbn [safeRead]. unfold readFile, take_busy.
    destruct (busy w !! filePath) as [[|k] |] eqn:Hb; simpl.
    + unfold file_data in Hdata.
      destruct (lookup_path filePath (root w)) as [[d |] |]; [| done..].
      injection Hdata as ->. simpl. by rewrite Hb.
    + specialize (IH (mkWorld (root w) (<[filePath := k]> (busy w))) Hdata).
      simpl in IH. rewrite lookup_insert_eq in IH. simpl in IH.
      destruct IH as (Hroot & Hbusy & Hres). split_and!; [done.. |].
      rewrite Hres. destruct (decide (k < retry)), (decide (S k < S retry));
        done || lia.
    + unfold file_data in Hdata.
      destruct (lookup_path filePath (root w)) as [[d |] |]; [| done..].
      injection Hdata as ->. simpl. by rewrite Hb.
Qed.

Lemma safeRead_retry_bound_witness :
  file_data ["change"; "diff.txt"] two_trees = Some "v2" /\
  (safeRead ["change"; "diff.txt"] 5
     (mkWorld two_trees {[ ["change"; "diff.txt"] := 2 ]})).2 = Ok "v2" /\
  (safeRead ["change"; "diff.txt"] 5
     (mkWorld two_trees {[ ["change"; "diff.txt"] := 7 ]})).2
    = Throw "file stays busy, cannot be read".
Proof.
  assert (file_data ["change"; "diff.txt"] two_trees = Some "v2") as H
    by reflexivity.
  split; [exact H |]. split.
  - exact (proj2 (proj2 (safeRead_retry_bound ["change"; "diff.txt"] 5
      (mkWorld two_trees {[ ["change"; "diff.txt"] := 2 ]}) "v2" H))).
  - exact (proj2 (proj2 (safeRead_retry_bound ["change"; "diff.txt"] 5
      (mkWorld two_trees {[ ["change"; "diff.txt"] := 7 ]}) "v2" H))).
Defined.

(** X14. [safeDelete] on an existing file never throws because the file is
    busy: with fewer refusals than tries the file, and nothing else, is
    gone afterwards; otherwise the call returns normally and the tree is
    as before. *)
Theorem safeDelete_gives_up_silently (filePath : path) (retry : nat) (w : world)
    (data : string) :
  wf_node (root w) -> filePath <> [] ->
  file_data filePath (root w) = Some data ->
  let k := default 0 (busy w !! filePath) in
  let run := safeDelete filePath retry w in
  run.2 = Ok tt /\
  (k < retry ->
     forall q, file_data q (root run.1) =
               if decide (q = filePath) then None else file_data q (root w)) /\
  (retry <= k -> root run.1 = root w).
Proof.
  intros Hwf Hne Hdata. revert w Hwf Hdata.
  induction retry as [|retry IH]; intros w Hwf Hdata.
  - simpl. split_and!; [done | lia | done].
  - cbn [safeDelete]. unfold unlink, take_busy.
    assert (lookup_path filePath (root w) = Some (File data)) as Hl.
    { unfold file_data in Hdata.
      by destruct (lookup_path filePath (root w)) as [[d |] |]; simplify_eq. }
    destruct (busy w !! filePath) as [[|k] |] eqn:Hb; simpl.
    + rewrite Hl. simpl. split_and!; [done | | lia].
      intros _ q. by eapply file_data_set_path_None.
    + specialize (IH (mkWorld (root w) (<[filePath := k]> (busy w))) Hwf Hdata).
      simpl in IH. rewrite lookup_insert_eq in IH. simpl in IH.
      destruct IH as (Hres & Hdel & Hkeep). split_and!; [done | |].
      * intros Hk. apply Hdel. lia.
      * intros Hk. apply Hkeep. lia.
    + rewrite Hl. simpl. split_and!; [done | | lia].
      intros _ q. by eapply file_data_set_path_None.
Qed.

Lemma safeDelete_gives_up_silently_witness :
  wf_node two_trees /\
  (safeDelete ["change"; "diff.txt"] 5
     (mkWorld two_trees {[ ["change"; "diff.txt"] := 7 ]})).2 = Ok tt /\
  root (safeDelete ["change"; "diff.txt"] 5
          (mkWorld two_trees {[ ["change"; "diff.txt"] := 7 ]})).1 = two_trees.
Proof.
  assert (wf_node two_trees) as Hwf by (unfold two_trees; wf_tree).
  assert (["change"; "diff.txt"] <> ([] : path)) as Hne by done.
  assert (file_data ["change"; "diff.txt"] two_trees = Some "v2") as H
    by reflexivity.
  destruct (safeDelete_gives_up_silently ["change"; "diff.txt"] 5
    (mkWorld two_trees {[ ["change"; "diff.txt"] := 7 ]}) "v2" Hwf Hne H)
    as (Hres & _ & Hkeep).
  split; [exact Hwf |]. split; [exact Hres |].
  apply Hkeep. vm_compute. lia.
Defined.

(** ** Listing a directory *)

(** X15. On a directory [walkDir] returns, without repetition, exactly the
    paths below it that are regular files; on anything else it throws. *)
Theorem walkDir_lists_the_files (dir : path) (w : world) :
  wf_node (root w) ->
  match walkDir dir w with
  | Ok files =>
      (exists es, lookup_path dir (root w) = Some (Dir es)) /\
      NoDup files /\
      (forall p, p ∈ files <->
         exists rel, p = dir ++ rel /\ is_Some (file_data p (root w)))
  | Throw _ => forall es, lookup_path dir (root w) <> Some (Dir es)
  end.
Proof.
  intros Hwf. destruct (walkDir dir w) as [files | msg] eqn:Hwalk.
  - apply walkDir_Ok in Hwalk as (es & Hdir & ->).
    pose proof (lookup_path_wf _ _ _ Hwf Hdir) as Hwfd.
    split_and!; [by exists es | by apply walk_node_NoDup |].
    intros p. split.
    + intros (rel & -> & Hrel)%elem_of_walk_node_1; [| done].
      exists rel. split; [done |]. by rewrite (file_data_app _ _ _ _ Hdir).
    + intros (rel & -> & Hrel). rewrite (file_data_app _ _ _ _ Hdir) in Hrel.
      by apply elem_of_walk_node_2.
  - intros es Hdir. unfold walkDir in Hwalk. by rewrite Hdir in Hwalk.
Qed.

Lemma walkDir_lists_the_files_witness :
  wf_node two_trees /\
  walkDir ["change"] (mkWorld two_trees ∅)
    = Ok [["change"; "same.txt"]; ["change"; "diff.txt"]; ["change"; "new.txt"]] /\
  NoDup [["change"; "same.txt"]; ["change"; "diff.txt"]; ["change"; "new.txt"]].
Proof.
  assert (wf_node two_trees) as Hwf by (unfold two_trees; wf_tree).
  pose proof (walkDir_lists_the_files ["change"] (mkWorld two_trees ∅) Hwf) as H.
  assert (walkDir ["change"] (mkWorld two_trees ∅)
    = Ok [["change"; "same.txt"]; ["change"; "diff.txt"]; ["change"; "new.txt"]])
    as Hrun by reflexivity.
  rewrite Hrun in H. destruct H as (_ & Hnd & _).
  split; [exact Hwf |]. split; [exact Hrun | exact Hnd].
Defined.

(** ** Removing the empty directories *)

Lemma populated_has_file n : populated n -> exists q, is_Some (file_data q n).
Proof.
  induction n as [data | es IH] using node_ind'; [by exists []; eexists |].
  intros [Hne Hall]%populated_Dir. destruct es as [|[name c] es]; [done |].
  apply Forall_cons in IH as [IHc _], Hall as [Hc _].
  destruct (IHc Hc) as [q Hq]. exists (name :: q).
  unfold file_data in *. simpl. by rewrite String.eqb_refl.
Qed.

Lemma file_data_set_path_above q rel v n :
  rel <> [] -> file_data q (set_path (q ++ rel) v n) = file_data q n.
Proof.
  intros Hrel. unfold file_data. rewrite lookup_set_path_below by done.
  destruct (lookup_path q n) as [[data | es] |]; simpl; [| | done].
  - by destruct rel.
  - destruct rel; [done |]. by rewrite set_path_cons.
Qed.

Lemma removeEmptyDirs_run dir w es :
  wf_node (root w) -> dir <> [] -> lookup_path dir (root w) = Some (Dir es) ->
  exists b,
    (removeEmptyDirs dir w).2 = Ok b /\
    busy (removeEmptyDirs dir w).1 = busy w /\
    (forall q, file_data q (root (removeEmptyDirs dir w).1) = file_data q (root w)) /\
    (forall q, apart dir q ->
       lookup_path q (root (removeEmptyDirs dir w).1) = lookup_path q (root w)) /\
    (if b then
       lookup_path dir (root (removeEmptyDirs dir w).1) = None /\
       (forall rel, file_data (dir ++ rel) (root w) = None)
     else
       (exists n', lookup_path dir (root (removeEmptyDirs dir w).1) = Some n' /\
                   populated n') /\
       (exists rel, is_Some (file_data (dir ++ rel) (root w)))).
Proof.
  intros Hwf Hne Hdir. unfold removeEmptyDirs. rewrite Hdir.
  pose proof (lookup_path_wf _ _ _ Hwf Hdir) as Hwfd.
  pose proof (prune_spec _ Hwfd) as Hprune.
  destruct (prune (Dir es)) as [n' |]; destruct dir as [|name dir']; try done.
  - destruct Hprune as (Hwf' & Hpop & Hfiles).
    exists false. cbn [fst snd root busy]. split; [done |]. split; [done |]. split; [| split].
    + intros q.
      destruct (path_cases (name :: dir') q) as [[rel ->] | [(rel & Hrel & Hq) | Ha]].
      * unfold file_data at 1.
        rewrite lookup_set_path_replaced by (done || by eexists).
        fold (file_data rel n'). rewrite Hfiles.
        by rewrite (file_data_app _ _ _ _ Hdir).
      * rewrite Hq. by apply file_data_set_path_above.
      * unfold file_data. by rewrite lookup_set_path_apart.
    + intros q Ha. by apply lookup_set_path_apart.
    + split.
      * exists n'. split; [| done].
        rewrite <- (app_nil_r (name :: dir')) at 1.
        rewrite lookup_set_path_replaced by (done || by eexists). done.
      * destruct (populated_has_file _ Hpop) as [rel Hrel]. exists rel.
        rewrite (file_data_app _ _ _ _ Hdir). by rewrite <- Hfiles.
  - exists true. cbn [fst snd root busy]. split; [done |]. split; [done |]. split; [| split].
    + intros q.
      destruct (path_cases (name :: dir') q) as [[rel ->] | [(rel & Hrel & Hq) | Ha]].
      * unfold file_data at 1. rewrite lookup_set_path_removed by done.
        by rewrite (file_data_app _ _ _ _ Hdir), Hprune.
      * rewrite Hq. by apply file_data_set_path_above.
      * unfold file_data. by rewrite lookup_set_path_apart.
    + intros q Ha. by apply lookup_set_path_apart.
    + split.
      * rewrite <- (app_nil_r (name :: dir')) at 1.
        by apply lookup_set_path_removed.
      * intros rel. by rewrite (file_data_app _ _ _ _ Hdir).
Qed.

(** X16. [removeEmptyDirs] on a directory never throws and changes no
    regular file anywhere.  It returns [true] when no file lies below the
    directory, which is then gone; it returns [false] when a file does,
    and then no directory at or below it is left empty. *)
Theorem removeEmptyDirs_keeps_files (dir : path) (w : world)
    (es : list (string * node)) :
  wf_node (root w) -> dir <> [] -> lookup_path dir (root w) = Some (Dir es) ->
  let run := removeEmptyDirs dir w in
  (forall q, file_data q (root run.1) = file_data q (root w)) /\
  match run.2 with
  | Ok true =>
      lookup_path dir (root run.1) = None /\
      (forall rel, file_data (dir ++ rel) (root w) = None)
  | Ok false =>
      (exists n', lookup_path dir (root run.1) = Some n' /\ populated n') /\
      (exists rel, is_Some (file_data (dir ++ rel) (root w)))
  | Throw _ => False
  end.
Proof.
  intros Hwf Hne Hdir run. subst run.
  destruct (removeEmptyDirs_run dir w es Hwf Hne Hdir)
    as (b & -> & _ & Hfiles & _ & Hb).
  split; [done |]. by destruct b.
Qed.

Lemma removeEmptyDirs_keeps_files_witness :
  wf_node sparse_tree /\
  (removeEmptyDirs ["change"] (mkWorld sparse_tree ∅)).2 = Ok false /\
  file_data ["change"; "c"; "keep.txt"]
    (root (removeEmptyDirs ["change"] (mkWorld sparse_tree ∅)).1) = Some "k".
Proof.
  assert (wf_node sparse_tree) as Hwf by (unfold sparse_tree; wf_tree).
  assert (["change"] <> ([] : path)) as Hne by done.
  destruct (removeEmptyDirs_keeps_files ["change"] (mkWorld sparse_tree ∅) _
    Hwf Hne eq_refl) as [Hfiles _].
  split; [exact Hwf |]. split; [reflexivity |].
  exact (Hfiles ["change"; "c"; "keep.txt"]).
Defined.

(** ** What the reconciliation leaves alone *)

Lemma safeRead_root p retry w : root (safeRead p retry w).1 = root w.
Proof.
  revert w. induction retry as [|retry IH]; intros w; [done |].
  cbn [safeRead]. unfold readFile, take_busy.
  destruct (busy w !! p) as [[|k] |]; simpl.
  - by destruct (lookup_path p (root w)) as [[d |] |].
  - apply (IH (mkWorld (root w) (<[p := k]> (busy w)))).
  - by destruct (lookup_path p (root w)) as [[d |] |].
Qed.

Lemma hashFile_root md5 p w : root (hashFile md5 p w).1 = root w.
Proof.
  unfold hashFile. pose proof (safeRead_root p 5 w) as H.
  by destruct (safeRead p 5 w) as [w' [buffer | e]].
Qed.

Lemma safeDelete_root p retry w :
  root (safeDelete p retry w).1 = root w \/
  root (safeDelete p retry w).1 = set_path p None (root w).
Proof.
  revert w. induction retry as [|retry IH]; intros w; [by left |].
  cbn [safeDelete]. unfold unlink, take_busy.
  destruct (busy w !! p) as [[|k] |]; simpl.
  - destruct (lookup_path p (root w)) as [[d |] |]; simpl; [by right | by left..].
  - apply (IH (mkWorld (root w) (<[p := k]> (busy w)))).
  - destruct (lookup_path p (root w)) as [[d |] |]; simpl; [by right | by left..].
Qed.

Lemma compare_task_root md5 relativeMap change newPath w :
  root (compare_task md5 relativeMap change newPath w).1 = root w \/
  root (compare_task md5 relativeMap change newPath w).1
    = set_path newPath None (root w).
Proof.
  unfold compare_task. destruct (map_get _ relativeMap) as [oldPath |]; [| by left].
  pose proof (hashFile_root md5 oldPath w) as H1.
  destruct (hashFile md5 oldPath w) as [w1 [oldHash | e]]; simpl in H1; [| by left].
  pose proof (hashFile_root md5 newPath w1) as H2.
  destruct (hashFile md5 newPath w1) as [w2 [newHash | e]]; simpl in H2;
    [| left; simpl; congruence].
  destruct (String.eqb oldHash newHash); [| left; simpl; congruence].
  destruct (safeDelete_root newPath 5 w2) as [H | H]; rewrite H; [left | right];
    congruence.
Qed.

Lemma run_tasks_apart md5 relativeMap change newFiles w q :
  (forall p, p ∈ newFiles -> apart p q) ->
  lookup_path q (root (run_tasks md5 relativeMap change newFiles w).1)
    = lookup_path q (root w).
Proof.
  revert w. induction newFiles as [|p l IH]; intros w Hl; [done |].
  cbn [run_tasks].
  assert (lookup_path q (root (compare_task md5 relativeMap change p w).1)
            = lookup_path q (root w)) as Hstep.
  { destruct (compare_task_root md5 relativeMap change p w) as [-> | ->]; [done |].
    apply lookup_set_path_apart, Hl, list_elem_of_here. }
  assert (forall w', lookup_path q (root (run_tasks md5 relativeMap change l w').1)
            = lookup_path q (root w')) as Hrest.
  { intros w'. apply IH. intros p' Hp'. by apply Hl, list_elem_of_further. }
  destruct (compare_task md5 relativeMap change p w) as [w1 [[] | e]];
    simpl in Hstep; cbn [fst]; by rewrite Hrest.
Qed.

Lemma removeEmptyDirs_apart dir w q :
  apart dir q ->
  lookup_path q (root (removeEmptyDirs dir w).1) = lookup_path q (root w).
Proof.
  intros Ha. unfold removeEmptyDirs.
  destruct (lookup_path dir (root w)) as [[data | es] |]; [done | | done].
  destruct dir as [|name dir']; [destruct Ha as [[] _]; apply prefix_nil |].
  destruct (prune (Dir es)); cbn [fst root]; by apply lookup_set_path_apart.
Qed.

(** X17. Whatever the reconciliation does or fails to do (files may be
    busy, reads may throw, and the tasks queued behind a failed one still
    run), it changes nothing at a path that neither lies in the candidate
    directory nor leads to it; the reference tree is such a path whenever
    the two directories are apart. *)
Theorem removeUnchangedFiles_stays_in_candidate
    (md5 : string -> string) (change_old change : path) (w : world) (q : path) :
  apart change q ->
  lookup_path q (root (removeUnchangedFiles md5 change_old change w).1)
    = lookup_path q (root w).
Proof.
  intros Ha. unfold removeUnchangedFiles.
  destruct (walkDir change_old w) as [oldFiles | e]; [| done].
  destruct (walkDir change w) as [newFiles | e] eqn:Hnew; [| done].
  assert (forall p, p ∈ newFiles -> apart p q) as Hfiles.
  { apply walkDir_Ok in Hnew as (es & _ & ->).
    intros p [rel ->]%walk_node_prefix. by apply apart_app. }
  pose proof (run_tasks_apart md5 (build_relativeMap change_old oldFiles)
    change newFiles w q Hfiles) as Hrun.
  destruct (run_tasks md5 _ change newFiles w) as [w1 [[] | e]]; [| done].
  pose proof (removeEmptyDirs_apart change w1 q Ha) as Hrm.
  destruct (removeEmptyDirs change w1) as [w2 [b | e]]; simpl in *; congruence.
Qed.

Lemma removeUnchangedFiles_stays_in_candidate_witness :
  apart ["change"] ["change_old"] /\
  lookup_path ["change_old"]
    (root (removeUnchangedFiles (fun s => s) ["change_old"] ["change"]
             (mkWorld two_trees {[ ["change"; "same.txt"] := 9 ]})).1)
    = lookup_path ["change_old"] two_trees.
Proof.
  assert (apart ["change"] ["change_old"]) as Ha
    by (split; by intros [k [=]]).
  split; [exact Ha |].
  exact (removeUnchangedFiles_stays_in_candidate (fun s => s)
    ["change_old"] ["change"]
    (mkWorld two_trees {[ ["change"; "same.txt"] := 9 ]}) ["change_old"] Ha).
Defined.

(** A task that fails does not stop the ones queued after it.  The first
    file of the reference tree stays busy and the call rejects; the
    second file, the same in both trees, is deleted from the candidate
    all the same. *)
Example removeUnchangedFiles_goes_on_after_failure :
  let tree :=
    Dir [("change_old", Dir [("a.txt", File "a"); ("b.txt", File "b")]);
         ("change", Dir [("a.txt", File "a"); ("b.txt", File "b")])] in
  let run :=
    removeUnchangedFiles (fun s => s) ["change_old"] ["change"]
      (mkWorld tree {[ ["change_old"; "a.txt"] := 5 ]}) in
  run.2 = Throw "file stays busy, cannot be read" /\
  lookup_path ["change"; "a.txt"] (root run.1) = Some (File "a") /\
  lookup_path ["change"; "b.txt"] (root run.1) = None /\
  lookup_path ["change_old"] (root run.1) = lookup_path ["change_old"] tree.
Proof. vm_compute. done. Qed.

(** ** The reconciliation on a quiet file system *)

Lemma foldl_map_set_get {A} (key : A -> string) (l : list A) (k : string) :
  match map_get k (foldl (fun m x => map_set (key x) x m) [] l) with
  | Some x => x ∈ l /\ key x = k
  | None => forall x, x ∈ l -> key x <> k
  end.
Proof.
  induction l as [|x l IH] using rev_ind; [by intros x ?%elem_of_nil |].
  rewrite foldl_app. simpl. rewrite map_get_set.
  destruct (String.eqb_spec (key x) k) as [Hk | Hk].
  - split; [| done]. apply elem_of_app. right. apply list_elem_of_here.
  - destruct (map_get k _) as [y |].
    + destruct IH as [Hy Hky]. split; [| done]. apply elem_of_app. by left.
    + intros y [Hy | ->%list_elem_of_singleton]%elem_of_app; [by apply IH | done].
Qed.

Lemma lookup_names rel n :
  wf_node n -> is_Some (lookup_path rel n) ->
  Forall (fun s => Path.no_sep s = true) rel.
Proof.
  revert n. induction rel as [|name rel IH]; intros n Hwf Hl; [constructor |].
  destruct n as [data | es]; [by destruct Hl |]. simpl in Hl.
  destruct (lookup_entry name es) as [c |] eqn:Hc; [| by destruct Hl].
  apply wf_Dir in Hwf as [_ Hall]. rewrite Forall_forall in Hall.
  apply lookup_entry_Some in Hc. destruct (Hall _ Hc) as (_ & Hsep & Hwfc).
  constructor; [done | by eapply IH].
Qed.

Lemma file_data_lookup p n data :
  file_data p n = Some data <-> lookup_path p n = Some (File data).
Proof.
  unfold file_data. destruct (lookup_path p n) as [[d |] |]; split; congruence.
Qed.

Lemma join_segments_inj r1 r2 :
  r1 <> [] -> r2 <> [] ->
  Forall (fun s => Path.no_sep s = true) r1 ->
  Forall (fun s => Path.no_sep s = true) r2 ->
  Path.join_segments r1 = Path.join_segments r2 -> r1 = r2.
Proof.
  intros H1 H2 Hs1 Hs2 Heq.
  rewrite <- (split_slash_join r1), <- (split_slash_join r2) by done.
  by rewrite Heq.
Qed.

Lemma relativeMap_get change_old eo rel :
  wf_node (Dir eo) -> rel <> [] ->
  Forall (fun s => Path.no_sep s = true) rel ->
  map_get (Path.join_segments rel)
    (build_relativeMap change_old (walk_node change_old (Dir eo)))
  = match file_data rel (Dir eo) with
    | Some _ => Some (change_old ++ rel)
    | None => None
    end.
Proof.
  intros Hwf Hne Hsep. unfold build_relativeMap.
  pose proof (foldl_map_set_get (relative change_old)
    (walk_node change_old (Dir eo)) (Path.join_segments rel)) as Hget.
  destruct (map_get _ _) as [x |].
  - destruct Hget as [Hx Hkey].
    apply elem_of_walk_node_1 in Hx as (rx & -> & Hrx); [| done].
    unfold relative in Hkey. rewrite drop_app_length in Hkey.
    assert (rx = rel) as ->.
    { apply join_segments_inj; [| done | | done..].
      - intros ->. by destruct Hrx.
      - apply (lookup_names _ (Dir eo)); [done |].
        destruct Hrx as [d Hd]. apply file_data_lookup in Hd. by eexists. }
    by destruct Hrx as [d ->].
  - destruct (file_data rel (Dir eo)) as [d |] eqn:Hd; [| done].
    exfalso. apply (Hget (change_old ++ rel)).
    + apply elem_of_walk_node_2. by eexists.
    + unfold relative. by rewrite drop_app_length.
Qed.

Section quiet.
Context (md5 : string -> string) (change_old change : path) (R : node).
Context (relativeMap : list (string * path)).
Hypothesis Hapart : apart change_old change.
Hypothesis Hmap :
  forall rel, rel <> [] -> Forall (fun s => Path.no_sep s = true) rel ->
    map_get (Path.join_segments rel) relativeMap =
    match file_data (change_old ++ rel) R with
    | Some _ => Some (change_old ++ rel)
    | None => None
    end.

Lemma old_new_differ rel rel' : change_old ++ rel' <> change ++ rel.
Proof.
  intros Heq. destruct Hapart as [H1 H2].
  destruct (prefix_weak_total change_old change (change ++ rel)); [| | done..].
  - rewrite <- Heq. by exists rel'.
  - by exists rel.
Qed.

Lemma run_tasks_quiet l w :
  busy w = ∅ -> wf_node (root w) -> NoDup l ->
  (forall rel, file_data (change_old ++ rel) (root w)
               = file_data (change_old ++ rel) R) ->
  (forall p, p ∈ l ->
     exists rel, p = change ++ rel /\ rel <> [] /\
       Forall (fun s => Path.no_sep s = true) rel /\
       is_Some (file_data p (root w)) /\
       file_data p (root w) = file_data p R) ->
  (exists en, lookup_path change (root w) = Some (Dir en)) ->
  exists w',
    run_tasks md5 relativeMap change l w = (w', Ok tt) /\
    busy w' = ∅ /\ wf_node (root w') /\
    (exists en, lookup_path change (root w') = Some (Dir en)) /\
    forall q, file_data q (root w') =
      if decide (q ∈ l /\
                 unchanged md5 change_old change (drop (length change) q) R = true)
      then None else file_data q (root w).
Proof.
  revert w. induction l as [|p l IH]; intros w Hbusy Hwf Hnd Hold Hl Hdir.
  { exists w. split_and!; [done.. |]. intros q.
    rewrite decide_False; [done |]. by intros [?%elem_of_nil _]. }
  apply NoDup_cons in Hnd as [Hp Hnd].
  destruct (Hl p (list_elem_of_here _ _)) as (rel & -> & Hrel & Hsep & [nd Hnew] & HnewR).
  cbn [run_tasks].
  (* the worlds the task can lead to *)
  assert (exists w1,
    compare_task md5 relativeMap change (change ++ rel) w = (w1, Ok tt) /\
    busy w1 = ∅ /\ wf_node (root w1) /\
    (exists en, lookup_path change (root w1) = Some (Dir en)) /\
    forall q, file_data q (root w1) =
      if decide (q = change ++ rel /\
                 unchanged md5 change_old change rel R = true)
      then None else file_data q (root w)) as (w1 & Htask & Hbusy1 & Hwf1 & Hdir1 & Hfiles1).
  { assert (forall q, file_data q (root w) =
      if decide (q = change ++ rel /\ false = true) then None
      else file_data q (root w)) as Hsame.
    { intros q. rewrite decide_False; [done |]. by intros [_ ?]. }
    unfold unchanged. rewrite <- HnewR, Hnew.
    destruct (file_data (change_old ++ rel) R) as [od |] eqn:HoldR.
    - assert (map_get (relative change (change ++ rel)) relativeMap
              = Some (change_old ++ rel)) as Hget.
      { unfold relative. rewrite drop_app_length, Hmap by done. by rewrite HoldR. }
      assert (lookup_path (change_old ++ rel) (root w) = Some (File od)) as Hlo
        by (apply file_data_lookup; by rewrite Hold).
      assert (lookup_path (change ++ rel) (root w) = Some (File nd)) as Hln
        by by apply file_data_lookup.
      destruct (String.eqb_spec (md5 od) (md5 nd)) as [Heq | Hneq].
      + exists (mkWorld (set_path (change ++ rel) None (root w)) (busy w)).
        split_and!.
        * apply (compare_task_equal md5 _ _ _ (change_old ++ rel) _ od nd);
            done || by rewrite Hbusy.
        * done.
        * by apply set_path_None_wf.
        * destruct Hdir as [en Hen]. simpl.
          rewrite lookup_set_path_below, Hen by done. simpl.
          destruct rel as [|x rel']; [done |]. rewrite set_path_cons. by eexists.
        * intros q. simpl.
          rewrite (file_data_set_path_None _ _ _ nd) by (done || by destruct change, rel).
          destruct (decide (q = change ++ rel)) as [-> | Hq].
          -- by rewrite decide_True.
          -- rewrite decide_False; [done |]. by intros [? _].
      + exists w. split_and!; [| done..].
        apply (compare_task_differs md5 _ _ _ (change_old ++ rel) _ od nd);
          done || by rewrite Hbusy.
    - exists w. split_and!; [| done..].
      apply compare_task_only_in_candidate.
      unfold relative. rewrite drop_app_length, Hmap by done. by rewrite HoldR. }
  rewrite Htask.
  destruct (IH w1 Hbusy1 Hwf1 Hnd) as (w' & Hrun & Hbusy' & Hwf' & Hdir' & Hfiles').
  - intros rel'. rewrite Hfiles1. rewrite decide_False; [apply Hold |].
    intros [Heq _]. by apply old_new_differ in Heq.
  - intros p' Hp'.
    destruct (Hl p' (list_elem_of_further _ _ _ Hp'))
      as (rel' & -> & Hrel' & Hsep' & Hsome & HR).
    exists rel'. rewrite Hfiles1. rewrite decide_False; [done |].
    intros [Heq _]. apply Hp. by rewrite <- Heq.
  - done.
  - exists w'. split_and!; [done.. |]. intros q. rewrite Hfiles', Hfiles1.
    destruct (decide (q = change ++ rel)) as [-> | Hq].
    + rewrite drop_app_length.
      destruct (unchanged md5 change_old change rel R) eqn:Hu.
      * rewrite (decide_True (P := _ ∈ _ :: _ /\ _))
          by (split; [apply list_elem_of_here | done]).
        destruct (decide (_ ∈ l /\ _)); [done |]. by rewrite decide_True.
      * rewrite !decide_False; [done | by intros [_ ?] | by intros [_ ?] | by intros [? _]].
    + rewrite (decide_False (P := q = _ /\ _)) by by intros [? _].
      destruct (decide (q ∈ l /\ _)) as [[Hin Hu] | Hno].
      * rewrite decide_True; [done |]. split; [by apply list_elem_of_further | done].
      * rewrite decide_False; [done |].
        intros [[? | Hin]%elem_of_cons Hu]; [done |]. by apply Hno.
Qed.
End quiet.

(** X18. On a well-formed tree with no busy file and two directories that
    are apart, the reconciliation succeeds, and afterwards the candidate
    directory holds a file at a relative path exactly when it held one
    before and the reference tree has no file there with the same digest;
    such a file keeps its bytes. *)
Theorem removeUnchangedFiles_reconciles
    (md5 : string -> string) (change_old change : path) (w : world)
    (eo en : list (string * node)) :
  wf_node (root w) -> busy w = ∅ ->
  apart change_old change ->
  lookup_path change_old (root w) = Some (Dir eo) ->
  lookup_path change (root w) = Some (Dir en) ->
  let run := removeUnchangedFiles md5 change_old change w in
  run.2 = Ok tt /\
  forall rel,
    file_data (change ++ rel) (root run.1) =
    if unchanged md5 change_old change rel (root w) then None
    else file_data (change ++ rel) (root w).
Proof.
  intros Hwf Hbusy Hapart Hold Hnew run. subst run.
  unfold removeUnchangedFiles, walkDir. rewrite Hold, Hnew.
  pose proof (lookup_path_wf _ _ _ Hwf Hold) as Hwfo.
  pose proof (lookup_path_wf _ _ _ Hwf Hnew) as Hwfn.
  assert (change <> []) as Hne.
  { intros ->. destruct Hapart as [_ []]. apply prefix_nil. }
  destruct (run_tasks_quiet md5 change_old change (root w)
    (build_relativeMap change_old (walk_node change_old (Dir eo))) Hapart)
    with (l := walk_node change (Dir en)) (w := w)
    as (w1 & Hrun & Hbusy1 & Hwf1 & [en1 Hdir1] & Hfiles1).
  - intros rel Hrel Hsep. rewrite relativeMap_get by done.
    by rewrite (file_data_app _ _ _ _ Hold).
  - done.
  - done.
  - by apply walk_node_NoDup.
  - done.
  - intros p (rel & -> & Hrel)%elem_of_walk_node_1; [| done].
    exists rel. split_and!; [done | | | | done].
    + intros ->. by destruct Hrel.
    + apply (lookup_names _ (Dir en)); [done |].
      destruct Hrel as [d Hd]. apply file_data_lookup in Hd. by eexists.
    + by rewrite (file_data_app _ _ _ _ Hnew).
  - by exists en.
  - rewrite Hrun.
    destruct (removeEmptyDirs_run change w1 en1 Hwf1 Hne Hdir1)
      as (b & Hres & _ & Hfiles2 & _).
    destruct (removeEmptyDirs change w1) as [w2 [b' | e]]; cbn [fst snd] in *;
      [| done].
    split; [done |]. intros rel. rewrite Hfiles2, Hfiles1, drop_app_length.
    destruct (unchanged md5 change_old change rel (root w)) eqn:Hu.
    + rewrite decide_True; [done |]. split; [| done].
      apply elem_of_walk_node_2. rewrite <- (file_data_app _ _ _ _ Hnew).
      unfold unchanged in Hu.
      destruct (file_data (change_old ++ rel) (root w)); [| done].
      destruct (file_data (change ++ rel) (root w)); [by eexists | done].
    + rewrite decide_False; [done |]. by intros [_ ?].
Qed.

Lemma removeUnchangedFiles_reconciles_witness :
  wf_node two_trees /\ apart ["change_old"] ["change"] /\
  (removeUnchangedFiles (fun s => s) ["change_old"] ["change"]
     (mkWorld two_trees ∅)).2 = Ok tt /\
  file_data ["change"; "same.txt"]
    (root (removeUnchangedFiles (fun s => s) ["change_old"] ["change"]
             (mkWorld two_trees ∅)).1) = None /\
  file_data ["change"; "diff.txt"]
    (root (removeUnchangedFiles (fun s => s) ["change_old"] ["change"]
             (mkWorld two_trees ∅)).1) = Some "v2".
Proof.
  assert (wf_node two_trees) as Hwf by (unfold two_trees; wf_tree).
  assert (apart ["change_old"] ["change"]) as Ha
    by (split; by intros [k [=]]).
  destruct (removeUnchangedFiles_reconciles (fun s => s)
    ["change_old"] ["change"] (mkWorld two_trees ∅) _ _ Hwf eq_refl Ha
    eq_refl eq_refl) as [Hres Hfiles].
  split; [exact Hwf |]. split; [exact Ha |]. split; [exact Hres |].
  split.
  - exact (Hfiles ["same.txt"]).
  - exact (Hfiles ["diff.txt"]).
Defined.

End ReconcileFacts.

(** * Facts about the segment names of src/mergeBytes.ts *)
Module SegmentFacts.
Import SharedFacts ScanFacts MergeBytes.

Lemma append_cancel_length a b : String.length (a +:+ b) = String.length b -> a = "".
Proof. rewrite append_length. destruct a; simpl; [done | lia]. Qed.

Lemma strip_suffix_spec suf s r : strip_suffix suf s = Some r <-> s = r +:+ suf.
Proof.
  revert r. induction s as [|c s IH]; intros r; cbn [strip_suffix].
  - destruct (String.eqb_spec "" suf) as [<- | Hne].
    + split; [by intros [= <-] |]. intros H. destruct r; simplify_eq/=. done.
    + split; [done |]. intros H. destruct r, suf; simplify_eq/=.
  - destruct (String.eqb_spec (String c s) suf) as [<- | Hne].
    + split; [by intros [= <-] |]. intros H.
      assert (r = "") as ->; [| done].
      apply (append_cancel_length r (String c s)). by rewrite <- H.
    + rewrite fmap_Some. split.
      * intros (r' & Hr' & ->). apply IH in Hr'. simpl. by rewrite Hr'.
      * destruct r as [|d r']; simpl; [by intros <- |].
        intros [= <- ->]. exists r'. split; [by apply IH | done].
Qed.

Lemma free_of_app sep a b : free_of sep (a +:+ b) <-> free_of sep a /\ free_of sep b.
Proof. unfold free_of. by rewrite str_all_app, andb_true_iff. Qed.

Lemma free_of_cons sep c s :
  free_of sep (String c s) <-> c <> sep /\ free_of sep s.
Proof.
  unfold free_of. cbn [str_all].
  by rewrite andb_true_iff, negb_true_iff, Ascii.eqb_neq.
Qed.

Lemma split_last_None sep s : split_last sep s = None <-> free_of sep s.
Proof.
  induction s as [|c s IH]; [done |]. rewrite free_of_cons. simpl.
  destruct (split_last sep s) as [[f b] |].
  - split; [done |]. intros [_ Hs]. by apply IH in Hs.
  - destruct (Ascii.eqb_spec c sep) as [-> | Hne].
    + split; [done | by intros [? _]].
    + split; [intros _; split; [done | by apply IH] | done].
Qed.

Lemma split_last_spec sep s front back :
  split_last sep s = Some (front, back) <->
  s = front +:+ back /\ exists tail, back = String sep tail /\ free_of sep tail.
Proof.
  revert front back. induction s as [|c s IH]; intros front back.
  - simpl. split; [done |]. intros [H (tail & -> & _)]. by destruct front.
  - simpl. destruct (split_last sep s) as [[f b] |] eqn:Hs.
    + pose proof (proj1 (IH f b) eq_refl) as (-> & tail & -> & Htail).
      split.
      * intros [= <- <-]. split; [done |]. by exists tail.
      * intros [H (tail' & -> & Htail')]. destruct front as [|d front'].
        { simpl in H. injection H as -> H.
          assert (free_of sep (f +:+ String sep tail)) as Hf by (by rewrite H).
          apply free_of_app in Hf as [_ Hf]. by apply free_of_cons in Hf as [? _]. }
        simpl in H. injection H as <- H.
        assert (Some (f, String sep tail) = Some (front', String sep tail'))
          as Heq by (apply IH; split; [done | by exists tail']).
        by injection Heq as -> ->.
    + apply split_last_None in Hs. destruct (Ascii.eqb_spec c sep) as [-> | Hne].
      * split.
        -- intros [= <- <-]. split; [done |]. by exists s.
        -- intros [H (tail & -> & Htail)]. destruct front as [|d front'].
           { simpl in H. by injection H as <-. }
           simpl in H. injection H as <- H. rewrite H in Hs.
           apply free_of_app in Hs as [_ Hs]. by apply free_of_cons in Hs as [? _].
      * split; [done |]. intros [H (tail & -> & Htail)].
        destruct front as [|d front']; simpl in H; injection H as <- H; [done |].
        rewrite H in Hs.
        apply free_of_app in Hs as [_ Hs]. by apply free_of_cons in Hs as [? _].
Qed.

Lemma split_last_app sep front tail :
  free_of sep tail ->
  split_last sep (front +:+ String sep tail) = Some (front, String sep tail).
Proof. intros. apply split_last_spec. split; [done | by exists tail]. Qed.

Lemma digits_free_of ds sep :
  is_digit sep = false -> str_all is_digit ds = true -> free_of sep ds.
Proof.
  intros Hsep. induction ds as [|c ds IH]; [done |]. simpl.
  intros [Hc Hds]%andb_true_iff. apply free_of_cons. split; [| by apply IH].
  intros ->. congruence.
Qed.

(** Line terminators: a dash and digits at the end add none. *)
Lemma has_line_terminator_digits ds :
  str_all is_digit ds = true -> has_line_terminator ds = false.
Proof.
  induction ds as [|c ds IH]; [done |]. simpl.
  intros [Hc Hds]%andb_true_iff. rewrite IH by done.
  assert (Ascii.eqb c (ascii_of_nat 10) = false) as ->
    by (apply Ascii.eqb_neq; intros ->; by vm_compute in Hc).
  assert (Ascii.eqb c (ascii_of_nat 13) = false) as ->
    by (apply Ascii.eqb_neq; intros ->; by vm_compute in Hc).
  assert (Ascii.eqb c (ascii_of_nat 226) = false) as ->
    by (apply Ascii.eqb_neq; intros ->; by vm_compute in Hc).
  simpl. by destruct ds as [|? [|? ?]].
Qed.

Lemma has_line_terminator_numbered base ds :
  str_all is_digit ds = true ->
  has_line_terminator (base +:+ "-" +:+ ds) = has_line_terminator base.
Proof.
  intros Hds.
  assert (has_line_terminator ("-" +:+ ds) = false) as Htail.
  { simpl. rewrite has_line_terminator_digits by done. by destruct ds as [|? [|? ?]]. }
  induction base as [|c base IH].
  - exact Htail.
  - change (String c base +:+ "-" +:+ ds) with (String c (base +:+ "-" +:+ ds)).
    cbn [has_line_terminator]. rewrite IH. f_equal. f_equal.
    destruct base as [|c1 [|c2 base']]; simpl.
    + destruct ds; simpl; [done |]. by rewrite andb_false_r.
    + rewrite ?andb_false_r. simpl. destruct ds; by rewrite ?andb_false_r.
    + done.
Qed.

Lemma digit_run_cons ds : digit_run ds -> exists d rest, ds = String d rest.
Proof. intros [Hne _]. destruct ds; [done | by eexists _, _]. Qed.

(** What a match says about the name. *)
Lemma match_segment_Some
    (filename base : string) (digits : option string) (ext : string) :
  match_segment filename = Some (base, digits, ext) ->
    filename = base +:+ segment_suffix digits +:+ ext +:+ ".bytes" /\
    base <> "" /\ has_line_terminator base = false /\
    (exists e, ext = "." +:+ e /\ e <> "" /\ dot_free e) /\
    match digits with
    | Some ds => digit_run ds
    | None => ~ numbered base
    end.
Proof.
  unfold match_segment.
  destruct (strip_suffix ".bytes" filename) as [s |] eqn:Hstrip; [| done].
  apply strip_suffix_spec in Hstrip as ->.
  destruct (split_last "." s) as [[front ext'] |] eqn:Hext; [| done].
  apply split_last_spec in Hext as (-> & e & -> & He).
  destruct (String.eqb_spec (String "." e) ".") as [? | Hdot]; [done |].
  destruct (String.eqb_spec front "") as [? | Hfront]; [done |].
  destruct (has_line_terminator front) eqn:Hlt; [done |]. cbn [orb].
  assert (exists e', String "." e = "." +:+ e' /\ e' <> "" /\ dot_free e') as Hext.
  { exists e. split_and!; [done | | done]. intros ->. done. }
  assert (forall d, d = None -> (~ numbered front) ->
    Some (front, None, String "." e) = Some (base, d, ext) ->
    (front +:+ String "." e) +:+ ".bytes"
      = base +:+ segment_suffix d +:+ ext +:+ ".bytes" /\
    base <> "" /\ has_line_terminator base = false /\
    (exists e', ext = "." +:+ e' /\ e' <> "" /\ dot_free e') /\
    match d with Some ds => digit_run ds | None => ~ numbered base end) as Hplain.
  { intros d -> Hnum [= <- <-]. split_and!; [by str_norm | done..]. }
  destruct (split_last "-" front) as [[f bk] |] eqn:Hdash.
  + apply split_last_spec in Hdash as (-> & tail & -> & Htail).
    destruct f as [|c b].
    { intros H. destruct digits; [done |]. apply (Hplain None); [done | | done].
      intros (fr & ds & Hfr & [Hds1 Hds2] & Heq).
      assert (split_last "-" (fr +:+ "-" +:+ ds) = Some (fr, "-" +:+ ds)) as Hs
        by (apply split_last_app, digits_free_of; done).
      rewrite <- Heq in Hs. simpl in Hs.
      rewrite (proj2 (split_last_None "-" tail)) in Hs by done.
      simpl in Hs. by injection Hs as <-. }
    destruct tail as [|d ds'].
    { intros H. destruct digits; [done |]. apply (Hplain None); [done | | done].
      intros (fr & ds & Hfr & [Hds1 Hds2] & Heq).
      assert (split_last "-" (fr +:+ "-" +:+ ds) = Some (fr, "-" +:+ ds)) as Hs
        by (apply split_last_app, digits_free_of; done).
      rewrite <- Heq in Hs.
      rewrite (split_last_app "-" (String c b) "") in Hs by done.
      injection Hs as _ <-. done. }
    destruct (str_all is_digit (String d ds')) eqn:Hdig.
    * intros [= <- <- <-].
      change (String "-" (String d ds')) with ("-" +:+ String d ds') in Hlt.
      rewrite has_line_terminator_numbered in Hlt by done.
      split_and!; [by str_norm | done | done | done |].
      split; done.
    * intros H. destruct digits; [done |]. apply (Hplain None); [done | | done].
      intros (fr & ds & Hfr & [Hds1 Hds2] & Heq).
      assert (split_last "-" (fr +:+ "-" +:+ ds) = Some (fr, "-" +:+ ds)) as Hs
        by (apply split_last_app, digits_free_of; done).
      rewrite <- Heq in Hs.
      rewrite (split_last_app "-" (String c b) (String d ds')) in Hs by done.
      injection Hs as _ <-. congruence.
  + intros H. destruct digits; [done |]. apply (Hplain None); [done | | done].
    intros (fr & ds & Hfr & _ & Heq). apply split_last_None in Hdash.
    rewrite Heq in Hdash. apply free_of_app in Hdash as [_ Hdash].
    by apply free_of_cons in Hdash as [? _].
Qed.

(** X19. [SEGMENT_PATTERN] matches exactly the names made of a non-empty
    base without line terminator, an optional dash and run of digits, an
    extension of a dot and at least one dot-free character, and [.bytes];
    the lazy base takes a closing dash and digits for the segment number
    whenever something is left in front of the dash. *)
Theorem match_segment_spec
    (filename base : string) (digits : option string) (ext : string) :
  match_segment filename = Some (base, digits, ext) <->
    filename = base +:+ segment_suffix digits +:+ ext +:+ ".bytes" /\
    base <> "" /\ has_line_terminator base = false /\
    (exists e, ext = "." +:+ e /\ e <> "" /\ dot_free e) /\
    match digits with
    | Some ds => digit_run ds
    | None => ~ numbered base
    end.
Proof.
  split; [apply match_segment_Some |]. unfold match_segment.
  intros (-> & Hbase & Hlt & (e & -> & He & Hdot) & Hdigits).
    assert (strip_suffix ".bytes"
              (base +:+ segment_suffix digits +:+ ("." +:+ e) +:+ ".bytes")
            = Some (base +:+ segment_suffix digits +:+ "." +:+ e)) as ->
      by (apply strip_suffix_spec; by str_norm).
    assert (split_last "." (base +:+ segment_suffix digits +:+ "." +:+ e)
            = Some (base +:+ segment_suffix digits, "." +:+ e)) as ->.
    { rewrite <- append_assoc. by apply split_last_app. }
    assert (String.eqb ("." +:+ e) "." = false) as ->
      by (apply String.eqb_neq; by destruct e).
    assert (String.eqb (base +:+ segment_suffix digits) "" = false) as ->
      by (apply String.eqb_neq; by destruct base).
    destruct digits as [ds |]; unfold segment_suffix.
    + destruct Hdigits as [Hne Hds].
      rewrite has_line_terminator_numbered, Hlt by done. cbn [orb].
      change ("-" +:+ ds) with (String "-" ds).
      rewrite (split_last_app "-" base ds) by (by apply digits_free_of).
      destruct base as [|c b]; [done |]. destruct ds as [|d ds']; [done |].
      by rewrite Hds.
    + rewrite append_nil_r, Hlt. cbn [orb].
      destruct (split_last "-" base) as [[f bk] |] eqn:Hdash; [| done].
      apply split_last_spec in Hdash as (-> & tail & -> & Htail).
      destruct f as [|c b]; [done |]. destruct tail as [|d ds']; [done |].
      destruct (str_all is_digit (String d ds')) eqn:Hdig; [| done].
      destruct Hdigits. exists (String c b), (String d ds'). by split_and!.
Qed.

End SegmentFacts.

(** * Facts about the grouping and the whole run of src/mergeBytes.ts *)
Module MergeFacts.
Import SharedFacts ScanFacts PathFacts DiffRecordFacts SegmentFacts MergeBytesFacts.
Import MergeBytes.

(** ** Output paths *)







(** ** Keys *)



(** ** The groups *)

Lemma group_files_snoc l f : group_files (l ++ [f]) = group_step (group_files l) f.
Proof. unfold group_files. by rewrite foldl_app. Qed.

Lemma group_step_key m f :
  group_step m f =
    match map_key f with
    | Some key => map_set key (default [] (map_get key m) ++ [part_of f]) m
    | None => m
    end.
Proof.
  unfold group_step, map_key, part_of.
  by destruct (match_segment _) as [[[b d] e] |].
Qed.

Lemma members_snoc key l f :
  members key (l ++ [f]) =
    members key l ++ (if decide (map_key f = Some key) then [part_of f] else []).
Proof.
  unfold members. rewrite filter_app, fmap_app. f_equal.
  destruct (decide _).
  - by rewrite (filter_cons_True (fun f => map_key f = Some key)).
  - by rewrite (filter_cons_False (fun f => map_key f = Some key)).
Qed.

Lemma group_files_get fileList key :
  map_get key (group_files fileList) =
    match members key fileList with [] => None | ps => Some ps end.
Proof.
  induction fileList as [|f l IH] using rev_ind; [done |].
  rewrite group_files_snoc, group_step_key, members_snoc.
  destruct (map_key f) as [k |] eqn:Hk.
  - rewrite map_get_set. destruct (String.eqb_spec k key) as [-> | Hne].
    + rewrite decide_True by done. rewrite IH. by destruct (members key l).
    + rewrite decide_False by congruence. by rewrite app_nil_r.
  - rewrite decide_False by done. by rewrite app_nil_r.
Qed.

Lemma group_files_NoDup fileList : NoDup (map_keys (group_files fileList)).
Proof.
  induction fileList as [|f l IH] using rev_ind; [apply NoDup_nil_2 |].
  rewrite group_files_snoc, group_step_key.
  destruct (map_key f); [by apply map_set_NoDup | done].
Qed.

Lemma map_get_elem_of {V} (m : list (string * V)) k v :
  NoDup (map_keys m) -> (k, v) ∈ m -> map_get k m = Some v.
Proof.
  unfold map_keys. induction m as [|[k0 v0] m IH]; csimpl.
  - by intros _ ?%elem_of_nil.
  - intros [Hk0 Hnd]%NoDup_cons [[= -> ->] | Hin]%elem_of_cons.
    + by rewrite String.eqb_refl.
    + destruct (String.eqb_spec k0 k) as [-> | _]; [| by apply IH].
      exfalso. apply Hk0. apply list_elem_of_fmap. by exists (k, v).
Qed.








(** X20. The groups of a listing: the keys are distinct, and under each
    key stand exactly the listed files whose names reduce to it, in the
    order of the listing, each with the index its name carries; no group
    is empty.  The indexes are taken to be numbers a JavaScript number
    holds exactly. *)
Theorem group_files_by_key (fileList : list string) :
  (forall f, f ∈ fileList -> safe_integer (index (part_of f))) ->
  NoDup (map_keys (group_files fileList)) /\
  forall key,
    map_get key (group_files fileList) =
      match members key fileList with [] => None | ps => Some ps end.
Proof. intros _. split; [apply group_files_NoDup | apply group_files_get]. Qed.

Lemma three_listed (P : string -> Prop) :
  P "in/s-2.txt.bytes" -> P "in/s.txt.bytes" -> P "in/s-1.txt.bytes" ->
  forall f, f ∈ ["in/s-2.txt.bytes"; "in/s.txt.bytes"; "in/s-1.txt.bytes"] -> P f.
Proof.
  intros H1 H2 H3 f Hf. repeat (apply elem_of_cons in Hf as [-> | Hf]; [done |]).
  by apply elem_of_nil in Hf.
Qed.

Lemma group_files_by_key_witness :
  map_get "s.txt"
    (group_files ["in/s-2.txt.bytes"; "in/s.txt.bytes"; "in/s-1.txt.bytes"])
  = Some [mkPart 2 "in/s-2.txt.bytes"; mkPart 0 "in/s.txt.bytes";
          mkPart 1 "in/s-1.txt.bytes"] /\
  map_get "s-1.txt"
    (group_files ["in/s-2.txt.bytes"; "in/s.txt.bytes"; "in/s-1.txt.bytes"])
  = None.
Proof.
  destruct (group_files_by_key
    ["in/s-2.txt.bytes"; "in/s.txt.bytes"; "in/s-1.txt.bytes"]) as [_ Hget].
  - apply three_listed; unfold safe_integer; by_decide.
  - split; [exact (Hget "s.txt") | exact (Hget "s-1.txt")].
Defined.

(** ** What a run leaves alone *)

Lemma pipeNext_frame parts out w :
  (forall f, f <> out -> files (pipeNext parts out w).1 !! f = files w !! f) /\
  (forall g, OpUnlink g ∈ ops (pipeNext parts out w).1 -> OpUnlink g ∈ ops w).
Proof.
  revert w. induction parts as [|p parts IH]; intros w; simpl.
  - split; [done |].
    by intros g [H | H%list_elem_of_singleton]%elem_of_app.
  - destruct (files w !! filepath p) as [data |]; [| done].
    destruct (IH (did (OpPipe (filepath p) out)
      (set_file out (default "" (files w !! out) +:+ data) w))) as [Hf Ho].
    split.
    + intros f Hne. rewrite Hf by done. simpl. by rewrite lookup_insert_ne.
    + intros g Hg. apply Ho in Hg. simpl in Hg.
      by apply elem_of_app in Hg as [Hg | Hg%list_elem_of_singleton].
Qed.

Lemma merge_group_frame od key parts w :
  (forall f, f <> Path.join od key ->
     files (merge_group od false key parts w).1 !! f = files w !! f) /\
  (forall g, OpUnlink g ∈ ops (merge_group od false key parts w).1 ->
     OpUnlink g ∈ ops w).
Proof.
  unfold merge_group. destruct (sort_parts parts) as [|first others]; [done |].
  set (out := Path.join od key).
  destruct ((1 <? length (first :: others)) || negb (index first =? 0)%N).
  - destruct (pipeNext_frame (first :: others) out
      (set_file out "" (did (OpOpenWrite out) w))) as [Hf Ho].
    destruct (pipeNext _ _ _) as [w1 [? | e]]; simpl in *.
    all: split;
      [ intros f Hne; rewrite Hf by done; by rewrite lookup_insert_ne
      | intros g Hg; apply Ho in Hg;
        by apply elem_of_app in Hg as [Hg | Hg%list_elem_of_singleton] ].
  - unfold copyFile. destruct (files w !! filepath first) as [data |]; simpl.
    + split.
      * intros f Hne. by rewrite lookup_insert_ne.
      * by intros g [Hg | Hg%list_elem_of_singleton]%elem_of_app.
    + done.
Qed.

Lemma merge_groups_frame od gs w p :
  (forall key, key ∈ gs.*1 -> p <> Path.join od key) ->
  files (merge_groups od false gs w).1 !! p = files w !! p /\
  (forall g, OpUnlink g ∈ ops (merge_groups od false gs w).1 ->
     OpUnlink g ∈ ops w).
Proof.
  revert w. induction gs as [|[key parts] gs IH]; intros w Hp; [done |].
  cbn [merge_groups].
  destruct (merge_group_frame od key parts w) as [Hf Ho].
  destruct (merge_group od false key parts w) as [w1 [? | e]]; simpl in *.
  - destruct (IH w1) as [Hf' Ho'].
    { intros k Hk. apply Hp. by apply list_elem_of_further. }
    split.
    + rewrite Hf'. apply Hf, Hp, list_elem_of_here.
    + intros g Hg. by apply Ho, Ho'.
  - split; [apply Hf, Hp, list_elem_of_here | done].
Qed.

(** X21. Without [deleteSource], a run changes no file other than the
    outputs of its groups and deletes nothing, whether it succeeds or
    stops at a read error. *)
Theorem mergeBytesFiles_leaves_the_rest
    (fileList : list string) (outputDir : string) (w : world) (p : string) :
  (forall key, key ∈ map_keys (group_files fileList) ->
     p <> Path.join outputDir key) ->
  let run := mergeBytesFiles fileList outputDir false w in
  files run.1 !! p = files w !! p /\
  forall g, OpUnlink g ∈ ops run.1 -> OpUnlink g ∈ ops w.
Proof.
  intros Hp run. unfold run, mergeBytesFiles.
  destruct (merge_groups_frame outputDir (group_files fileList)
    (did (OpMkdir outputDir) w) p Hp) as [Hf Ho].
  split; [exact Hf |]. intros g Hg. apply Ho in Hg. simpl in Hg.
  by apply elem_of_app in Hg as [Hg | Hg%list_elem_of_singleton].
Qed.

Lemma mergeBytesFiles_leaves_the_rest_witness :
  let run := mergeBytesFiles
    ["in/s-2.txt.bytes"; "in/s.txt.bytes"; "in/s-1.txt.bytes"; "in/t.bin.bytes"]
    "out" false (mkWorld three_files []) in
  files run.1 !! "in/s.txt.bytes" = Some "A" /\
  forall g, OpUnlink g ∈ ops run.1 -> OpUnlink g ∈ [].
Proof.
  apply (mergeBytesFiles_leaves_the_rest
    ["in/s-2.txt.bytes"; "in/s.txt.bytes"; "in/s-1.txt.bytes"; "in/t.bin.bytes"]
    "out" (mkWorld three_files []) "in/s.txt.bytes").
  intros key Hkey.
  assert (map_keys (group_files
    ["in/s-2.txt.bytes"; "in/s.txt.bytes"; "in/s-1.txt.bytes"; "in/t.bin.bytes"])
    = ["s.txt"; "t.bin"]) as Hkeys by (vm_compute; reflexivity).
  rewrite Hkeys in Hkey.
  apply elem_of_cons in Hkey as [-> | Hkey]; [by vm_compute |].
  apply list_elem_of_singleton in Hkey as ->. by vm_compute.
Defined.

(** ** A run on readable sources *)






End MergeFacts.

(** * Facts about the merger of segmented ACB files in src/mergeBytes.ts *)
Module AcbFacts.
Import SharedFacts ScanFacts PathFacts DiffRecordFacts SegmentFacts.
Import MergeBytesFacts MergeFacts.
Import MergeBytes MergeAcb.

(** ** The pattern *)

Lemma lower_ascii_length s : String.length (lower_ascii s) = String.length s.
Proof. induction s as [|c s IH]; simpl; [done | by rewrite IH]. Qed.

Lemma lower_ascii_app a b : lower_ascii (a +:+ b) = lower_ascii a +:+ lower_ascii b.
Proof. induction a as [|c a IH]; simpl; [done | by rewrite IH]. Qed.

Lemma strip_acb_spec s stem :
  strip_acb s = Some stem <->
  exists ext, s = stem +:+ ext /\ lower_ascii ext = ".acb".
Proof.
  revert stem. induction s as [|c s IH]; intros stem.
  - simpl. split; [done |]. intros (ext & Hs & Hext).
    destruct stem; [| done]. simpl in Hs. by subst ext.
  - cbn [strip_acb].
    destruct (String.eqb_spec (lower_ascii (String c s)) ".acb") as [Hacb | Hne].
    + split.
      * intros [= <-]. by exists (String c s).
      * intros (ext & Hs & Hext). f_equal. symmetry.
        apply (append_cancel_length stem ext).
        rewrite <- Hs, <- (lower_ascii_length ext), Hext.
        by rewrite <- (lower_ascii_length (String c s)), Hacb.
    + rewrite fmap_Some. split.
      * intros (stem' & (ext & -> & Hext)%IH & ->). by exists ext.
      * intros (ext & Hs & Hext). destruct stem as [|d stem'].
        { simpl in Hs. by subst ext. }
        simpl in Hs. injection Hs as <- ->. exists stem'.
        split; [| done]. apply IH. by exists ext.
Qed.

Lemma match_acb_Some name base ds :
  match_acb name = Some (base, ds) ->
  exists ext,
    name = base +:+ "-" +:+ ds +:+ ext /\ lower_ascii ext = ".acb" /\
    base <> "" /\ has_line_terminator base = false /\
    str_all is_digit ds = true /\ 3 <= String.length ds.
Proof.
  unfold match_acb.
  destruct (strip_acb name) as [stem |] eqn:Hstem; [| done].
  apply strip_acb_spec in Hstem as (ext & -> & Hext).
  destruct (split_last "-" stem) as [[front back] |] eqn:Hdash; [| done].
  apply split_last_spec in Hdash as (-> & tail & -> & Htail).
  destruct front as [|c b]; [done |].
  destruct (str_all is_digit tail) eqn:Hdig; [| done].
  destruct (Nat.leb_spec 3 (String.length tail)) as [Hlen | ?]; [| done].
  destruct (has_line_terminator (String c b)) eqn:Hlt; [done |].
  intros [= <- <-]. exists ext. split_and!; try done. by str_norm.
Qed.

(** X23. [ACB_SEGMENT_PATTERN] matches a file name exactly when the name
    is a non-empty base without line terminator, a dash, at least three
    digits and [.acb] in any case of the letters; the groups are that
    base and those digits. *)
Theorem match_acb_spec (name base ds : string) :
  match_acb name = Some (base, ds) <->
  exists ext,
    name = base +:+ "-" +:+ ds +:+ ext /\ lower_ascii ext = ".acb" /\
    base <> "" /\ has_line_terminator base = false /\
    str_all is_digit ds = true /\ 3 <= String.length ds.
Proof.
  split; [apply match_acb_Some |].
  intros (ext & -> & Hext & Hbase & Hlt & Hdig & Hlen). unfold match_acb.
  assert (strip_acb (base +:+ "-" +:+ ds +:+ ext) = Some (base +:+ "-" +:+ ds))
    as ->.
  { apply strip_acb_spec. exists ext. split; [by str_norm | done]. }
  change ("-" +:+ ds) with (String "-" ds).
  rewrite (split_last_app "-" base ds) by (by apply digits_free_of).
  destruct base as [|c b]; [done |]. rewrite Hdig, Hlt.
  by destruct (Nat.leb_spec 3 (String.length ds)) as [_ | ?]; [| lia].
Qed.

(** ** One group *)

Lemma pipeSegments_pipeNext segments out w :
  pipeSegments segments out w =
    pipeNext ((fun s => mkPart 0 (seg_filepath s)) <$> segments) out w.
Proof.
  revert w. induction segments as [|s segments IH]; intros w; [done |].
  rewrite fmap_cons. cbn [pipeSegments pipeNext filepath].
  destruct (files w !! seg_filepath s); [apply IH | done].
Qed.

Lemma concat_parts_segments fs segments :
  concat_parts fs ((fun s => mkPart 0 (seg_filepath s)) <$> segments)
  = concat_segments fs segments.
Proof.
  unfold concat_parts, concat_segments.
  induction segments as [|s segments IH]; [done |].
  rewrite fmap_cons. cbn [foldr filepath]. by rewrite IH.
Qed.

Lemma sort_segments_perm segments : sort_segments segments ≡ₚ segments.
Proof. apply js_sort_perm. Qed.

Lemma numericSort_le a b :
  (numericSort a b <=? 0)%Z = true <-> (parseInt a <= parseInt b)%N.
Proof. unfold numericSort. rewrite Z.leb_le. lia. Qed.

Lemma sort_segments_sorted segments : StronglySorted seg_le (sort_segments segments).
Proof.
  eapply StronglySorted_weaken; [| apply js_sort_sorted].
  - intros a b Hab. by apply numericSort_le in Hab.
  - intros a b. rewrite !numericSort_le. lia.
  - intros a b c. rewrite !numericSort_le. lia.
Qed.

Lemma mergeSegmentedAcb_frame segments out w :
  (forall f, f <> out ->
     files (mergeSegmentedAcb segments out w).1 !! f = files w !! f) /\
  (forall g, OpUnlink g ∈ ops (mergeSegmentedAcb segments out w).1 ->
     OpUnlink g ∈ ops w).
Proof.
  unfold mergeSegmentedAcb. rewrite pipeSegments_pipeNext.
  destruct (pipeNext_frame
    ((fun s => mkPart 0 (seg_filepath s)) <$> sort_segments segments) out
    (set_file out "" (did (OpOpenWrite out) w))) as [Hf Ho].
  split.
  - intros f Hne. rewrite Hf by done. simpl. by rewrite lookup_insert_ne.
  - intros g Hg. apply Ho in Hg. simpl in Hg.
    by apply elem_of_app in Hg as [Hg | Hg%list_elem_of_singleton].
Qed.

(** X24. When every segment of a group can be read and none of them is
    the output, [mergeSegmentedAcb] succeeds and the output holds the
    bytes of the segments in ascending order of the numbers their indexes
    stand for; no other file changes. *)
Theorem mergeSegmentedAcb_concatenates_in_numeric_order
    (segments : list segment) (outputPath : string) (w : world) :
  (forall s, s ∈ segments -> is_Some (files w !! seg_filepath s)) ->
  (forall s, s ∈ segments -> seg_filepath s <> outputPath) ->
  (forall s, s ∈ segments -> safe_integer (parseInt (seg_index s))) ->
  let sorted := sort_segments segments in
  let run := mergeSegmentedAcb segments outputPath w in
  run.2 = Ok tt /\
  sorted ≡ₚ segments /\ StronglySorted seg_le sorted /\
  files run.1 !! outputPath = Some (concat_segments (files w) sorted) /\
  forall f, f <> outputPath -> files run.1 !! f = files w !! f.
Proof.
  intros Hread Hout _ sorted run.
  assert (forall s, s ∈ sorted -> s ∈ segments) as Hin.
  { intros s Hs. unfold sorted in Hs. by rewrite sort_segments_perm in Hs. }
  assert (forall fs' fs l,
    (forall s, s ∈ l -> fs' !! seg_filepath s = fs !! seg_filepath s) ->
    concat_segments fs' l = concat_segments fs l) as Hext.
  { intros fs' fs l. induction l as [|s l IH]; intros Hl; simpl; [done |].
    rewrite Hl by apply list_elem_of_here. rewrite IH; [done |].
    intros s' Hs'. by apply Hl, list_elem_of_further. }
  assert (run =
    (mkWorld (<[outputPath := concat_segments (files w) sorted]> (files w))
       (ops w ++ OpOpenWrite outputPath ::
          ((fun p => OpPipe (filepath p) outputPath) <$>
             ((fun s => mkPart 0 (seg_filepath s)) <$> sorted)) ++
          [OpEnd outputPath]), Ok tt)) as Hrun.
  { unfold run, mergeSegmentedAcb. rewrite pipeSegments_pipeNext.
    rewrite (pipeNext_ok _ _ _ ""); unfold set_file, did; cbn [files ops].
    - rewrite insert_insert_eq, concat_parts_segments, <- app_assoc.
      fold sorted. simpl. do 3 f_equal. apply Hext.
      intros s Hs. rewrite lookup_insert_ne; [done |].
      intros Heq. by apply (Hout s); [apply Hin |].
    - intros p (s & -> & Hs)%list_elem_of_fmap. cbn [filepath].
      rewrite lookup_insert_ne; [by apply Hread, Hin |].
      intros Heq. by apply (Hout s); [apply Hin |].
    - intros p (s & -> & Hs)%list_elem_of_fmap. cbn [filepath].
      by apply Hout, Hin.
    - by rewrite lookup_insert_eq. }
  rewrite Hrun. cbn [fst snd files].
  split_and!; [done | apply sort_segments_perm | apply sort_segments_sorted | |].
  - by rewrite lookup_insert_eq.
  - intros f Hf. by rewrite lookup_insert_ne.
Qed.

Lemma acb_segments_cases (P : segment -> Prop) :
  P (mkSegment "003" "out/new/bgm-003.acb") ->
  P (mkSegment "001" "out/new/bgm-001.acb") ->
  P (mkSegment "002" "out/new/bgm-002.ACB") ->
  forall s, s ∈ [mkSegment "003" "out/new/bgm-003.acb";
                 mkSegment "001" "out/new/bgm-001.acb";
                 mkSegment "002" "out/new/bgm-002.ACB"] -> P s.
Proof.
  intros H1 H2 H3 s Hs. repeat (apply elem_of_cons in Hs as [-> | Hs]; [done |]).
  by apply elem_of_nil in Hs.
Qed.

Lemma mergeSegmentedAcb_concatenates_in_numeric_order_witness :
  let segments := [mkSegment "003" "out/new/bgm-003.acb";
                   mkSegment "001" "out/new/bgm-001.acb";
                   mkSegment "002" "out/new/bgm-002.ACB"] in
  let w := mkWorld acb_files [] in
  let sorted := sort_segments segments in
  let run := mergeSegmentedAcb segments "out/new/bgm.acb" w in
  run.2 = Ok tt /\
  sorted ≡ₚ segments /\ StronglySorted seg_le sorted /\
  files run.1 !! "out/new/bgm.acb" = Some (concat_segments (files w) sorted) /\
  forall f, f <> "out/new/bgm.acb" -> files run.1 !! f = files w !! f.
Proof.
  apply (mergeSegmentedAcb_concatenates_in_numeric_order
    [mkSegment "003" "out/new/bgm-003.acb";
     mkSegment "001" "out/new/bgm-001.acb";
     mkSegment "002" "out/new/bgm-002.ACB"]
    "out/new/bgm.acb" (mkWorld acb_files [])).
  - apply acb_segments_cases; by eexists.
  - by apply acb_segments_cases.
  - apply acb_segments_cases; unfold safe_integer; by_decide.
Defined.

(** ** Grouping by a key *)

Section grouping.
Context {A B : Type} (key : A -> option string) (val : A -> B).
Context (step : list (string * list B) -> A -> list (string * list B)).
Hypothesis Hstep : forall m x,
  step m x =
    match key x with
    | Some k => map_set k (default [] (map_get k m) ++ [val x]) m
    | None => m
    end.

Lemma grouped_get l k :
  map_get k (foldl step [] l) =
    match val <$> filter (fun x => key x = Some k) l with
    | [] => None
    | vs => Some vs
    end.
Proof.
  induction l as [|x l IH] using rev_ind; [done |].
  rewrite foldl_app. cbn [foldl]. rewrite Hstep, filter_app, fmap_app.
  destruct (key x) as [k' |] eqn:Hk.
  - rewrite map_get_set. destruct (String.eqb_spec k' k) as [-> | Hne].
    + rewrite (filter_cons_True (fun x => key x = Some k)) by done.
      rewrite IH. by destruct (val <$> filter _ l).
    + rewrite (filter_cons_False (fun x => key x = Some k)) by congruence.
      by rewrite app_nil_r.
  - rewrite (filter_cons_False (fun x => key x = Some k)) by congruence.
    by rewrite app_nil_r.
Qed.

Lemma grouped_NoDup l : NoDup (map_keys (foldl step [] l)).
Proof.
  induction l as [|x l IH] using rev_ind; [apply NoDup_nil_2 |].
  rewrite foldl_app. cbn [foldl]. rewrite Hstep.
  destruct (key x); [by apply map_set_NoDup | done].
Qed.

Lemma grouped_elem_of l k vs :
  (k, vs) ∈ foldl step [] l -> vs = val <$> filter (fun x => key x = Some k) l.
Proof.
  intros Hin. apply map_get_elem_of in Hin; [| apply grouped_NoDup].
  rewrite grouped_get in Hin. by destruct (val <$> filter _ l); simplify_eq.
Qed.
End grouping.

Lemma elem_of_group_by_dir dir fl all :
  (dir, fl) ∈ group_by_dir all ->
  fl = filter (fun f => GetAssets.dirname f = dir) all.
Proof.
  intros Hin.
  apply (grouped_elem_of (fun f => Some (GetAssets.dirname f)) id dir_step) in Hin;
    [| done].
  rewrite list_fmap_id in Hin. rewrite Hin.
  apply list_filter_iff. intros f. split; congruence.
Qed.

Lemma elem_of_segment_map base parts fl :
  (base, parts) ∈ segment_map fl ->
  exists members,
    members = filter (fun f => fst <$> match_acb (basename f) = Some base) fl /\
    length parts = length members.
Proof.
  intros Hin.
  apply (grouped_elem_of (fun f => fst <$> match_acb (basename f))
    (fun f => mkSegment (default "" (snd <$> match_acb (basename f))) f)
    segment_step) in Hin.
  - eexists. split; [done |]. by rewrite Hin, length_fmap.
  - intros m f. unfold segment_step.
    by destruct (match_acb (basename f)) as [[b i] |].
Qed.

(** ** What a run leaves alone *)

Lemma merge_segment_groups_frame rootDir dir groups w p :
  (forall base parts, (base, parts) ∈ groups -> 2 <= length parts ->
     p <> Path.join dir (base +:+ ".acb")) ->
  files (merge_segment_groups rootDir false true dir groups w).1 !! p
    = files w !! p /\
  (forall g, OpUnlink g ∈ ops (merge_segment_groups rootDir false true dir groups w).1 ->
     OpUnlink g ∈ ops w).
Proof.
  revert w. induction groups as [|[base parts] groups IH]; intros w Hp; [done |].
  cbn [merge_segment_groups].
  assert (forall b ps, (b, ps) ∈ groups -> 2 <= length ps ->
    p <> Path.join dir (b +:+ ".acb")) as Hp'.
  { intros b ps Hin. apply Hp. by apply list_elem_of_further. }
  destruct (Nat.leb_spec (length parts) 1) as [Hlone | Hmany]; [by apply IH |].
  unfold acb_outputPath.
  destruct (mergeSegmentedAcb_frame parts (Path.join dir (base +:+ ".acb")) w)
    as [Hf Ho].
  assert (p <> Path.join dir (base +:+ ".acb")) as Hne.
  { apply (Hp base parts); [apply list_elem_of_here | lia]. }
  destruct (mergeSegmentedAcb _ _ _) as [w1 [? | e]]; simpl in *.
  - destruct (IH w1 Hp') as [Hf' Ho'].
    split; [by rewrite Hf', Hf | intros g Hg; by apply Ho, Ho'].
  - split; [by apply Hf | done].
Qed.

Lemma merge_dirs_frame rootDir groups w p :
  (forall dir fl base parts, (dir, fl) ∈ groups ->
     (base, parts) ∈ segment_map fl -> 2 <= length parts ->
     p <> Path.join dir (base +:+ ".acb")) ->
  files (merge_dirs rootDir false true groups w).1 !! p = files w !! p /\
  (forall g, OpUnlink g ∈ ops (merge_dirs rootDir false true groups w).1 ->
     OpUnlink g ∈ ops w).
Proof.
  revert w. induction groups as [|[dir fl] groups IH]; intros w Hp; [done |].
  cbn [merge_dirs].
  destruct (merge_segment_groups_frame rootDir dir (segment_map fl) w p)
    as [Hf Ho].
  { intros base parts. apply Hp, list_elem_of_here. }
  destruct (merge_segment_groups _ _ _ _ _ _) as [w1 [? | e]]; simpl in *.
  - destruct (IH w1) as [Hf' Ho'].
    { intros d l b ps Hin. apply Hp. by apply list_elem_of_further. }
    split; [by rewrite Hf', Hf | intros g Hg; by apply Ho, Ho'].
  - done.
Qed.

(** X25. Run as the pipeline runs it (sources kept, output beside the
    segments) on a listing without repetition, the merger changes only
    paths [dir/base.acb] for which two different listed files of the
    directory [dir] are segments of [base]: a lone segment, a complete
    file and a file of another kind are left alone, and nothing is
    deleted. *)
Theorem mergeAllSegmentedAcbFiles_merges_only_groups
    (allAcbFiles : list string) (rootDir : string) (w : world) (p : string) :
  NoDup allAcbFiles ->
  (forall f1 f2 base i1 i2,
     f1 ∈ allAcbFiles -> f2 ∈ allAcbFiles -> f1 <> f2 ->
     GetAssets.dirname f1 = GetAssets.dirname f2 ->
     match_acb (basename f1) = Some (base, i1) ->
     match_acb (basename f2) = Some (base, i2) ->
     p <> Path.join (GetAssets.dirname f1) (base +:+ ".acb")) ->
  let run := mergeAllSegmentedAcbFiles_on rootDir false true allAcbFiles w in
  files run.1 !! p = files w !! p /\
  forall g, OpUnlink g ∈ ops run.1 -> OpUnlink g ∈ ops w.
Proof.
  intros Hnd Hp run. unfold run, mergeAllSegmentedAcbFiles_on.
  destruct allAcbFiles as [|f0 l] eqn:Hall; [done |]. rewrite <- Hall in *.
  apply merge_dirs_frame.
  intros dir fl base parts ->%elem_of_group_by_dir
    (members & Hmem & Hlen)%elem_of_segment_map Hmany.
  assert (NoDup members) as Hndm by (rewrite Hmem; by do 2 apply NoDup_filter).
  assert (forall f, f ∈ members ->
    f ∈ allAcbFiles /\ GetAssets.dirname f = dir /\
    exists i, match_acb (basename f) = Some (base, i)) as Hin.
  { intros f. rewrite Hmem, !list_elem_of_filter.
    intros (Hkey & Hdir & Hf). split_and!; [done | done |].
    destruct (match_acb (basename f)) as [[b i] |]; [| done].
    injection Hkey as ->. by exists i. }
  destruct members as [|f1 [|f2 rest]]; simpl in Hlen; [lia | lia |].
  destruct (Hin f1) as (H1 & Hd1 & i1 & Hm1); [apply list_elem_of_here |].
  destruct (Hin f2) as (H2 & Hd2 & i2 & Hm2);
    [apply list_elem_of_further, list_elem_of_here |].
  rewrite <- Hd1. apply (Hp f1 f2 base i1 i2); try done; [| congruence].
  apply NoDup_cons in Hndm as [Hf1 _]. intros ->. apply Hf1, list_elem_of_here.
Qed.

Lemma mergeAllSegmentedAcbFiles_merges_only_groups_witness :
  let run := mergeAllSegmentedAcbFiles_on "out" false true acb_listing
               (mkWorld acb_files []) in
  files run.1 !! "out/new/se-001.acb" = Some "S" /\
  forall g, OpUnlink g ∈ ops run.1 -> OpUnlink g ∈ [].
Proof.
  apply (mergeAllSegmentedAcbFiles_merges_only_groups acb_listing "out"
    (mkWorld acb_files []) "out/new/se-001.acb").
  - unfold acb_listing. by_decide.
  - intros f1 f2 base i1 i2 H1 _ _ _ Hm1 _. unfold acb_listing in H1.
    repeat (apply elem_of_cons in H1 as [-> | H1];
      [vm_compute in Hm1; try discriminate Hm1;
       injection Hm1 as <- <-; by vm_compute |]).
    by apply elem_of_nil in H1.
Defined.

End AcbFacts.

(** * Facts about the finders and the decoder *)
Module DecodeFacts.
Import SharedFacts ScanFacts PathFacts SegmentFacts AcbFacts TreeFacts.
Import RemoveUnchangedFacts ReconcileFacts.
Import MergeBytes MergeAcb RemoveUnchanged DecodeAcb.

(** ** Names *)

Lemma segmented_acb_spec name :
  segmented_acb name = true <->
  exists front ds ext,
    name = front +:+ "-" +:+ ds +:+ ext /\ lower_ascii ext = ".acb" /\
    str_all is_digit ds = true /\ 3 <= String.length ds.
Proof.
  unfold segmented_acb. split.
  - destruct (strip_acb name) as [stem |] eqn:Hstem; [| done].
    apply strip_acb_spec in Hstem as (ext & -> & Hext).
    destruct (split_last "-" stem) as [[front back] |] eqn:Hdash; [| done].
    apply split_last_spec in Hdash as (-> & tail & -> & Htail).
    intros [Hdig Hlen%Nat.leb_le]%andb_prop.
    exists front, tail, ext. split_and!; try done. by str_norm.
  - intros (front & ds & ext & -> & Hext & Hdig & Hlen).
    assert (strip_acb (front +:+ "-" +:+ ds +:+ ext) = Some (front +:+ "-" +:+ ds))
      as ->.
    { apply strip_acb_spec. exists ext. split; [by str_norm | done]. }
    change ("-" +:+ ds) with (String "-" ds).
    rewrite (split_last_app "-" front ds) by (by apply digits_free_of).
    rewrite Hdig. by apply Nat.leb_le.
Qed.

Lemma is_acb_name_spec name :
  is_acb_name name = true <->
  exists stem ext, name = stem +:+ ext /\ lower_ascii ext = ".acb".
Proof.
  unfold is_acb_name. rewrite ends_with_spec. split.
  - intros [pre Hpre].
    assert (forall s pre, lower_ascii s = pre +:+ ".acb" ->
      exists stem ext, s = stem +:+ ext /\ lower_ascii ext = ".acb") as Hsplit.
    { clear. intros s. induction s as [|c s IH]; intros pre Hs.
      - by destruct pre.
      - destruct pre as [|d pre].
        + exists "", (String c s). by split.
        + simpl in Hs. injection Hs as _ Hs.
          destruct (IH pre Hs) as (stem & ext & -> & Hext).
          by exists (String c stem), ext. }
    by apply (Hsplit name pre).
  - intros (stem & ext & -> & Hext). exists (lower_ascii stem).
    by rewrite lower_ascii_app, Hext.
Qed.

(** X26. A file that the merger takes for a segment is never decoded on
    its own.  The file the merger writes for its group is decoded, unless
    the base name itself ends with a dash and at least three digits: then
    the decoder takes the merged file for a segment and skips it. *)
Theorem segments_are_not_decoded (name base ds : string) :
  match_acb name = Some (base, ds) ->
  valid_acb_name name = false /\
  (valid_acb_name (base +:+ ".acb") = false <->
   exists front ds',
     base = front +:+ "-" +:+ ds' /\ str_all is_digit ds' = true /\
     3 <= String.length ds').
Proof.
  intros (ext & -> & Hext & Hbase & Hlt & Hdig & Hlen)%match_acb_Some.
  unfold valid_acb_name. split.
  - assert (segmented_acb (base +:+ "-" +:+ ds +:+ ext) = true) as ->; [| apply andb_false_r].
    apply segmented_acb_spec. by exists base, ds, ext.
  - assert (is_acb_name (base +:+ ".acb") = true) as ->.
    { apply is_acb_name_spec. by exists base, ".acb". }
    rewrite andb_true_l, negb_false_iff, segmented_acb_spec. split.
    + intros (front & ds' & ext' & Heq & Hext' & Hdig' & Hlen').
      exists front, ds'. split_and!; [| done..].
      assert (String.length ext' = 4) as Hl
        by (by rewrite <- (lower_ascii_length ext'), Hext').
      assert (forall a b x y, String.length x = String.length y ->
        a +:+ x = b +:+ y -> a = b) as Hcancel.
      { clear. intros a. induction a as [|c a IH]; intros b x y Hxy Heq.
        - destruct b as [|d b]; [done |]. exfalso. simpl in Heq.
          rewrite Heq in Hxy. simpl in Hxy. rewrite append_length in Hxy. lia.
        - destruct b as [|d b].
          + exfalso. simpl in Heq. rewrite <- Heq in Hxy. simpl in Hxy.
            rewrite append_length in Hxy. lia.
          + simpl in Heq. injection Heq as -> Heq. f_equal. by eapply IH. }
      apply (Hcancel base (front +:+ "-" +:+ ds') ".acb" ext'); [by rewrite Hl |].
      rewrite Heq. by str_norm.
    + intros (front & ds' & -> & Hdig' & Hlen').
      exists front, ds', ".acb". split_and!; try done. by str_norm.
Qed.

Lemma segments_are_not_decoded_witness :
  valid_acb_name "bgm-001-002.acb" = false /\
  (valid_acb_name ("bgm-001" +:+ ".acb") = false <->
   exists front ds',
     "bgm-001" = front +:+ "-" +:+ ds' /\ str_all is_digit ds' = true /\
     3 <= String.length ds').
Proof.
  apply (segments_are_not_decoded "bgm-001-002.acb" "bgm-001" "002").
  by vm_compute.
Defined.

(** ** The finders *)

Lemma find_node_Dir keep dir es :
  find_node keep dir (Dir es) = es ≫= (fun e => find_node keep (dir ++ [e.1]) e.2).
Proof.
  simpl. induction es as [|[name c] es IH]; csimpl; [done |]. by rewrite IH.
Qed.

Lemma find_node_filter keep dir n :
  find_node keep dir n
  = filter (fun p => keep (entry_name p) = true) (walk_node dir n).
Proof.
  revert dir. induction n as [data | es IH] using node_ind'; intros dir.
  - simpl. destruct (keep (entry_name dir)) eqn:Hk.
    + by rewrite (filter_cons_True (fun p => keep (entry_name p) = true)).
    + rewrite (filter_cons_False (fun p => keep (entry_name p) = true)); [done |].
      by rewrite Hk.
  - rewrite find_node_Dir, walk_node_Dir.
    induction IH as [|[name c] es Hc Hes IHes]; csimpl; [done |].
    by rewrite filter_app, Hc, IHes.
Qed.

Lemma find_files_walkDir keep dir w :
  find_files keep dir w =
    match walkDir dir w with
    | Ok all => Ok (filter (fun p => keep (entry_name p) = true) all)
    | Throw e => Throw e
    end.
Proof.
  unfold find_files, walkDir.
  destruct (lookup_path dir (root w)) as [[data | es] |]; [done | | done].
  by rewrite (find_node_filter keep dir (Dir es)).
Qed.

(** X27. Each of the three finders returns what [walkDir] lists, in its
    order, cut down to the entries whose name passes the finder's test,
    and fails where [walkDir] fails; the decoder's finder returns the
    files the merger's finder returns whose name does not end like a
    segment. *)
Theorem finders_filter_the_walk (dir : path) (w : world) :
  match walkDir dir w with
  | Ok all =>
      getAllAcbFiles dir w
        = Ok (filter (fun p => is_acb_name (entry_name p) = true) all) /\
      getAllBytesFiles dir w
        = Ok (filter (fun p => ends_with ".bytes" (entry_name p) = true) all) /\
      findValidAcbFiles dir w
        = Ok (filter (fun p => segmented_acb (entry_name p) = false)
                (filter (fun p => is_acb_name (entry_name p) = true) all))
  | Throw e =>
      getAllAcbFiles dir w = Throw e /\ getAllBytesFiles dir w = Throw e /\
      findValidAcbFiles dir w = Throw e
  end.
Proof.
  unfold getAllAcbFiles, getAllBytesFiles, findValidAcbFiles.
  rewrite !find_files_walkDir. destruct (walkDir dir w) as [all | e]; [| done].
  split_and!; [done | done |]. f_equal. unfold valid_acb_name.
  induction all as [|p all IH]; [done |].
  destruct (is_acb_name (entry_name p)) eqn:Hacb,
    (segmented_acb (entry_name p)) eqn:Hseg.
  all: repeat first
    [ rewrite (filter_cons_True (fun p => is_acb_name (entry_name p) = true))
        by done
    | rewrite (filter_cons_False (fun p => is_acb_name (entry_name p) = true))
        by (by rewrite Hacb)
    | rewrite (filter_cons_True (fun p => segmented_acb (entry_name p) = false))
        by done
    | rewrite (filter_cons_False (fun p => segmented_acb (entry_name p) = false))
        by (by rewrite Hseg)
    | rewrite (filter_cons_True
        (fun p => is_acb_name (entry_name p) && negb (segmented_acb (entry_name p)) = true))
        by (by rewrite Hacb, Hseg)
    | rewrite (filter_cons_False
        (fun p => is_acb_name (entry_name p) && negb (segmented_acb (entry_name p)) = true))
        by (by rewrite Hacb, Hseg) ].
  all: by rewrite IH.
Qed.

(** ** Removing the sounds that did not change *)

Lemma readFile_quiet p w :
  busy w = ∅ ->
  readFile p w =
    (w, match lookup_path p (root w) with
        | Some (File data) => Ok data
        | Some (Dir _) => Throw "EISDIR"
        | None => Throw "ENOENT"
        end).
Proof.
  intros Hb. unfold readFile, take_busy. rewrite Hb, lookup_empty.
  by destruct (lookup_path p (root w)) as [[data | es] |].
Qed.

Lemma dedupe_one_quiet change old name w :
  busy w = ∅ ->
  dedupe_one change old name w =
    match file_data (change ++ [name]) (root w),
          file_data (old ++ [name]) (root w) with
    | Some bufNew, Some bufOld =>
        if String.eqb bufNew bufOld
        then mkWorld (set_path (change ++ [name]) None (root w)) (busy w)
        else w
    | _, _ => w
    end.
Proof.
  intros Hb. unfold dedupe_one. rewrite readFile_quiet by done.
  cbv beta iota. rewrite readFile_quiet by done. cbv beta iota.
  unfold file_data.
  destruct (lookup_path (change ++ [name]) (root w)) as [[a | ?] |] eqn:Hnew;
    destruct (lookup_path (old ++ [name]) (root w)) as [[b | ?] |]; try done.
  case_match; [| done].
  unfold unlink, take_busy. rewrite Hb, lookup_empty. cbv beta iota.
  rewrite Hnew. simpl. by rewrite Hb.
Qed.

Lemma dedupe_fold change old (R : node) l w :
  busy w = ∅ -> wf_node (root w) -> NoDup l ->
  (forall name, name ∈ l -> is_wav_name name = true) ->
  (forall name, name ∈ l ->
     file_data (change ++ [name]) (root w) = file_data (change ++ [name]) R /\
     file_data (old ++ [name]) (root w) = file_data (old ++ [name]) R) ->
  let w' := foldl (fun w wav => dedupe_one change old wav w) w l in
  busy w' = ∅ /\ wf_node (root w') /\
  forall q, file_data q (root w') =
    if decide (q ∈ (fun name => change ++ [name]) <$>
                     filter (fun name => same_wav change old name R = true) l)
    then None else file_data q (root w).
Proof.
  revert w. induction l as [|x l IH]; intros w Hb Hwf Hnd Hwav Hsame;
    cbv zeta; cbn [foldl].
  { split_and!; [done | done |]. intros q.
    rewrite decide_False; [done |]. rewrite filter_nil. apply not_elem_of_nil. }
  apply NoDup_cons in Hnd as [Hx Hnd].
  destruct (Hsame x) as [HnewR HoldR]; [apply list_elem_of_here |].
  assert (same_wav change old x R =
    match file_data (change ++ [x]) (root w), file_data (old ++ [x]) (root w) with
    | Some a, Some b => String.eqb a b
    | _, _ => false
    end) as Hx_same.
  { unfold same_wav. rewrite Hwav by apply list_elem_of_here.
    by rewrite HnewR, HoldR. }
  (* the world after the pass for [x] *)
  set (w1 := dedupe_one change old x w).
  assert (busy w1 = ∅ /\ wf_node (root w1) /\
    forall q, file_data q (root w1) =
      if decide (q = change ++ [x] /\ same_wav change old x R = true)
      then None else file_data q (root w)) as (Hb1 & Hwf1 & Hfiles1).
  { unfold w1. rewrite dedupe_one_quiet by done. rewrite Hx_same.
    destruct (file_data (change ++ [x]) (root w)) as [a |] eqn:Ha.
    2:{ split_and!; [done | done |]. intros q.
        rewrite decide_False; [done |]. by intros [_ ?]. }
    destruct (file_data (old ++ [x]) (root w)) as [b |].
    2:{ split_and!; [done | done |]. intros q.
        rewrite decide_False; [done |]. by intros [_ ?]. }
    destruct (String.eqb a b).
    - split_and!; [done | by apply set_path_None_wf |]. intros q. simpl.
      rewrite (file_data_set_path_None _ _ _ a) by (done || by destruct change).
      destruct (decide (q = change ++ [x])) as [-> | Hq].
      + by rewrite decide_True.
      + rewrite decide_False; [done |]. by intros [? _].
    - split_and!; [done | done |]. intros q.
      rewrite decide_False; [done |]. by intros [_ ?]. }
  destruct (IH w1 Hb1 Hwf1 Hnd) as (Hb' & Hwf' & Hfiles').
  { intros name Hname. by apply Hwav, list_elem_of_further. }
  { intros name Hname.
    assert (name <> x) as Hne by (intros ->; done).
    destruct (Hsame name) as [H1 H2]; [by apply list_elem_of_further |].
    rewrite !Hfiles1, H1, H2.
    rewrite !decide_False; [done | |].
    - intros [Heq _]. apply app_inj_tail in Heq as [_ ?]. done.
    - intros [Heq _]. apply app_inj_tail in Heq as [_ ?]. done. }
  split_and!; [done | done |]. intros q. rewrite Hfiles', Hfiles1.
  destruct (same_wav change old x R) eqn:Hsx.
  - rewrite (filter_cons_True (fun name => same_wav change old name R = true))
      by done.
    rewrite fmap_cons.
    destruct (decide (q ∈ (fun name => change ++ [name]) <$> filter _ l))
      as [Hin | Hout].
    + rewrite decide_True; [done |]. by apply list_elem_of_further.
    + destruct (decide (q = change ++ [x] /\ true = true)) as [[-> _] | Hq].
      * rewrite decide_True; [done |]. apply list_elem_of_here.
      * rewrite decide_False; [done |].
        intros [-> | Hin]%elem_of_cons; [by apply Hq | done].
  - rewrite (filter_cons_False (fun name => same_wav change old name R = true))
      by (by rewrite Hsx).
    rewrite (decide_False (P := _ /\ false = true)); [done |]. by intros [_ ?].
Qed.

(** X28. On a well-formed tree with no busy file, [dedupeWavPair] removes
    from the new directory exactly the entries named [*.wav] (in any
    case) that are files whose bytes equal those of the file of the same
    name in the old directory; every other file of the tree, the old
    directory included, keeps its bytes. *)
Theorem dedupeWavPair_removes_equal_sounds
    (changeOutDir oldOutDir : path) (w : world) (en : list (string * node)) :
  wf_node (root w) -> busy w = ∅ ->
  lookup_path changeOutDir (root w) = Some (Dir en) ->
  let run := dedupeWavPair changeOutDir oldOutDir w in
  run.2 = Ok tt /\
  (forall name,
     file_data (changeOutDir ++ [name]) (root run.1) =
       if same_wav changeOutDir oldOutDir name (root w) then None
       else file_data (changeOutDir ++ [name]) (root w)) /\
  (forall q, (forall name, q <> changeOutDir ++ [name]) ->
     file_data q (root run.1) = file_data q (root w)).
Proof.
  intros Hwf Hb Hdir run. unfold run, dedupeWavPair.
  destruct (lookup_path oldOutDir (root w)) as [old |] eqn:Hold.
  - unfold readdir. rewrite Hdir. cbn [fst snd].
    pose proof (lookup_path_wf _ _ _ Hwf Hdir) as [Hnd _]%wf_Dir.
    destruct (dedupe_fold changeOutDir oldOutDir (root w)
      (filter (fun f => is_wav_name f = true) en.*1) w) as (_ & _ & Hfiles);
      [done | done | by apply NoDup_filter | | done |].
    { by intros name [? _]%list_elem_of_filter. }
    split_and!; [done | |].
    + intros name. rewrite Hfiles.
      destruct (same_wav changeOutDir oldOutDir name (root w)) eqn:Hs.
      * rewrite decide_True; [done |]. apply list_elem_of_fmap.
        exists name. split; [done |]. apply list_elem_of_filter. split; [done |].
        unfold same_wav in Hs. apply andb_prop in Hs as [Hwav Hs].
        apply list_elem_of_filter. split; [done |].
        rewrite (file_data_app _ _ _ _ Hdir) in Hs. unfold file_data in Hs.
        simpl in Hs. destruct (lookup_entry name en) as [c |] eqn:Hc; [| done].
        apply lookup_entry_Some in Hc. apply list_elem_of_fmap. by exists (name, c).
      * rewrite decide_False; [done |].
        intros (name' & Heq & [Hs' _]%list_elem_of_filter)%list_elem_of_fmap.
        apply app_inj_tail in Heq as [_ <-]. congruence.
    + intros q Hq. rewrite Hfiles. rewrite decide_False; [done |].
      intros (name & -> & _)%list_elem_of_fmap. by apply (Hq name).
  - cbn [fst snd]. split_and!; [done | | done].
    intros name. unfold same_wav.
    assert (file_data (oldOutDir ++ [name]) (root w) = None) as ->.
    { unfold file_data. by rewrite lookup_path_app, Hold. }
    rewrite andb_comm. by destruct (file_data _ _).
Qed.

Lemma dedupeWavPair_removes_equal_sounds_witness :
  let run := dedupeWavPair ["new"] ["old"] (mkWorld wav_trees ∅) in
  run.2 = Ok tt /\
  (forall name,
     file_data (["new"] ++ [name]) (root run.1) =
       if same_wav ["new"] ["old"] name wav_trees then None
       else file_data (["new"] ++ [name]) wav_trees) /\
  (forall q, (forall name, q <> ["new"] ++ [name]) ->
     file_data q (root run.1) = file_data q wav_trees).
Proof.
  apply (dedupeWavPair_removes_equal_sounds ["new"] ["old"] (mkWorld wav_trees ∅)
    [("a.wav", File "1"); ("b.WAV", File "9"); ("c.txt", File "3");
     ("d.wav", File "4")]).
  - unfold wav_trees. wf_tree.
  - done.
  - done.
Defined.

End DecodeFacts.

(** * Facts about src/downloadAssetBundleInfo.ts *)
Module DownloadFacts.
Import SharedFacts ScanFacts VersionFacts PathFacts DiffRecordFacts.
Import Compare CompareVersions DownloadAB.

(** ** The version of a download *)

Lemma isVersionFormat_text v : isVersionFormat v = true -> version_text v.
Proof.
  unfold isVersionFormat.
  destruct (scan_version v) as [[x r] |] eqn:Hscan; [| done].
  destruct r; [| done]. intros _.
  apply scan_version_spec in Hscan as (-> & Hx & _). by rewrite append_nil_r.
Qed.

Lemma extractVersion_text url v : extractVersion url = Some v -> version_text v.
Proof.
  induction url as [|c url IH]; cbn [extractVersion].
  - by destruct (expect "/Release/" "" ≫= scan_version) as [[x r] |] eqn:H.
  - destruct (expect "/Release/" (String c url) ≫= scan_version)
      as [[x r] |] eqn:H; [| done].
    intros [= <-]. apply bind_Some in H as (s & _ & Hscan).
    by apply scan_version_spec in Hscan as (_ & Hx & _).
Qed.

Lemma savedName_plain v :
  version_text v -> Path.plain (savedName v) /\ Path.no_sep (savedName v) = true.
Proof.
  intros Hv. unfold savedName, BASE_NAME. split; [done |].
  rewrite !no_sep_app.
  by rewrite (version_chars_no_sep v) by by apply version_text_chars.
Qed.

(** X29. The manifest of a version that was typed in, or read from a URL,
    is saved in the directory [compareVersions] reads, under a name it
    takes for a version file of exactly that version. *)
Theorem downloaded_manifest_is_a_version_file
    (v : string) (filesInDir : list string) :
  isVersionFormat v = true \/ (exists url, extractVersion url = Some v) ->
  finalPath v = ASSET_DIR +:+ "/" +:+ savedName v /\
  (savedName v ∈ filesInDir ->
   exists f, f ∈ versionFiles_of filesInDir /\ fileName f = savedName v /\
             baseVer (version f) = v /\ formattedVersion f = v).
Proof.
  intros Hv.
  assert (version_text v) as Htext.
  { destruct Hv as [Hv | [url Hv]];
      [by apply isVersionFormat_text | by eapply extractVersion_text]. }
  destruct (savedName_plain v Htext) as [Hplain Hsep]. split.
  - unfold finalPath. by apply join_plain.
  - intros Hin.
    exists (mkVersionFile (mkVersion v 1) (savedName v)
              (versionKey (mkVersion v 1)) (formatVersion (mkVersion v 1))).
    split_and!; [| done..]. apply elem_of_versionFiles_of. simpl.
    split_and!; [done | | done | done].
    by apply extractVersionFromFilename_name.
Qed.

Lemma downloaded_manifest_is_a_version_file_witness :
  finalPath "9.3.0.210" = ASSET_DIR +:+ "/" +:+ savedName "9.3.0.210" /\
  (savedName "9.3.0.210" ∈ ["AssetBundleInfo_9.3.0.210.txt"; "notes.txt"] ->
   exists f,
     f ∈ versionFiles_of ["AssetBundleInfo_9.3.0.210.txt"; "notes.txt"] /\
     fileName f = savedName "9.3.0.210" /\
     baseVer (version f) = "9.3.0.210" /\ formattedVersion f = "9.3.0.210").
Proof.
  apply (downloaded_manifest_is_a_version_file "9.3.0.210"
    ["AssetBundleInfo_9.3.0.210.txt"; "notes.txt"]).
  right. exists "https://host/Release/9.3.0.210/AssetBundleInfo?t=1". by vm_compute.
Defined.

(** ** The next version *)

Lemma digits_value_snoc a c :
  digits_value (a +:+ String c "")
  = (digits_value a * 10 + (N_of_ascii c - 48))%N.
Proof.
  unfold digits_value. generalize 0%N as acc.
  induction a as [|d a IH]; intros acc; simpl; [done | apply IH].
Qed.

Lemma pretty_N_go_app x s : pretty_N_go x s = pretty_N_go x "" +:+ s.
Proof.
  revert s. induction (N.lt_wf_0 x) as [x _ IH]; intros s.
  assert (x = 0 \/ 0 < x)%N as [-> | Hx] by lia.
  - by rewrite !pretty_N_go_0.
  - rewrite (pretty_N_go_step x s), (pretty_N_go_step x "") by done.
    assert (x `div` 10 < x)%N as Hlt by (by apply N.div_lt).
    rewrite (IH _ Hlt (String _ s)), (IH _ Hlt (String _ "")).
    by rewrite append_assoc.
Qed.

Lemma pretty_N_char_value d :
  (d < 10)%N ->
  (N_of_ascii (pretty_N_char d) - 48)%N = d /\ is_digit (pretty_N_char d) = true.
Proof.
  intros Hd.
  assert (d = 0 \/ d = 1 \/ d = 2 \/ d = 3 \/ d = 4 \/ d = 5 \/ d = 6 \/
          d = 7 \/ d = 8 \/ d = 9)%N as Hcases by lia.
  by repeat destruct Hcases as [-> | Hcases]; [..| subst d].
Qed.

Lemma pretty_N_go_value x :
  digits_value (pretty_N_go x "") = x /\
  str_all is_digit (pretty_N_go x "") = true /\
  ((0 < x)%N -> pretty_N_go x "" <> "").
Proof.
  induction (N.lt_wf_0 x) as [x _ IH].
  assert (x = 0 \/ 0 < x)%N as [-> | Hx] by lia.
  - rewrite pretty_N_go_0. split_and!; [done | done | lia].
  - rewrite pretty_N_go_step, pretty_N_go_app by done.
    destruct (IH (x `div` 10)%N) as (Hval & Hdig & _); [by apply N.div_lt |].
    destruct (pretty_N_char_value (x `mod` 10)%N) as [Hc Hcd].
    { by apply N.mod_lt. }
    split_and!.
    + rewrite digits_value_snoc, Hval, Hc.
      rewrite (N.div_mod' x 10) at 3. lia.
    + rewrite str_all_app, Hdig. simpl. by rewrite Hcd.
    + intros _. by destruct (pretty_N_go (x `div` 10) "").
Qed.

Lemma pretty_N_value (n : N) : digits_value (pretty n) = n /\ digit_run (pretty n).
Proof.
  unfold pretty, pretty_N. destruct (decide (n = 0%N)) as [-> | Hn].
  - by split.
  - destruct (pretty_N_go_value n) as (Hval & Hdig & Hne).
    split; [done |]. split; [apply Hne; lia | done].
Qed.

(** X30. From a version of four numbers [incrementVersion] makes the
    version with the same first three numbers and the last one raised by
    10, or by 20 when it ends in 90, so that a last number ending in 00
    is never guessed from one ending in 90; the result is again a version
    of four numbers. *)
Theorem incrementVersion_raises_the_last_number (v : string) :
  version_text v -> safe_version v ->
  (forall n, last (digits_value <$> split_on "." v) = Some n ->
     safe_integer (n + 20)) ->
  exists v' a b c n,
    incrementVersion v = Ok v' /\ version_text v' /\
    digits_value <$> split_on "." v = [a; b; c; n] /\
    digits_value <$> split_on "." v' =
      [a; b; c; (n + (if (n mod 100 =? 90)%N then 20 else 10))%N].
Proof.
  intros Hv _ _.
  destruct (version_text_split v Hv) as (a & b & c & d & -> & Hsplit & Ha & Hb & Hc & Hd).
  set (n := digits_value d).
  set (n' := (n + (if (n mod 100 =? 90)%N then 20 else 10))%N).
  destruct (pretty_N_value n') as [Hval Hrun].
  assert (version_text (a +:+ "." +:+ b +:+ "." +:+ c +:+ "." +:+ pretty n'))
    as Hv' by (by exists a, b, c, (pretty n')).
  destruct (version_text_split _ Hv') as (a' & b' & c' & d' & Heq & Hsplit' & _).
  exists (a +:+ "." +:+ b +:+ "." +:+ c +:+ "." +:+ pretty n'),
    (digits_value a), (digits_value b), (digits_value c), n.
  split_and!; [| done | by rewrite Hsplit | ].
  - unfold incrementVersion. rewrite Hsplit. cbn [last removelast app].
    destruct d as [|x d]; [by destruct Hd |]. reflexivity.
  - assert (split_on "." (a +:+ "." +:+ b +:+ "." +:+ c +:+ "." +:+ pretty n')
            = [a; b; c; pretty n']) as ->.
    { str_norm.
      rewrite split_on_app by (apply digits_no_dot, Ha).
      rewrite split_on_app by (apply digits_no_dot, Hb).
      rewrite split_on_app by (apply digits_no_dot, Hc).
      by rewrite split_on_no_sep by (apply digits_no_dot, Hrun). }
    simpl. by rewrite Hval.
Qed.

Lemma incrementVersion_raises_the_last_number_witness :
  exists v' a b c n,
    incrementVersion "9.3.0.190" = Ok v' /\ version_text v' /\
    digits_value <$> split_on "." "9.3.0.190" = [a; b; c; n] /\
    digits_value <$> split_on "." v' =
      [a; b; c; (n + (if (n mod 100 =? 90)%N then 20 else 10))%N].
Proof.
  apply (incrementVersion_raises_the_last_number "9.3.0.190").
  - exists "9", "3", "0", "190". by split_and!.
  - unfold safe_version, safe_integer. by_decide.
  - intros n [= <-]. unfold safe_integer. by_decide.
Defined.

End DownloadFacts.
